(** * DataEntry: mixture synthesis, label synthesis and the mask codec

    A shallow embedding of [data_entry.py] (class [DataEntry]).

    Conventions of the embedding:
    - a numpy [float64] value is a real number ([R]), arithmetic is exact;
    - a Python [int] is an integer ([Z]); sizes and loop indices are [nat];
    - a 1-D numpy array is a [list]; a 2-D numpy array is an [ndarray]: its
      shape together with its entries;
    - a Python exception is a constructor of [exn]; a function that can raise
      returns a [result];
    - the constants of the module [parameters] and the functions of the module
      [features] are not part of [data_entry.py]: they are the fields of the
      classes [parameters] and [features]. *)

From Stdlib Require Import List ZArith QArith Reals Lia Lra Bool Arith.
From Stdlib Require Import Sorting.Sorted FinFun.
Import ListNotations.

Close Scope Q_scope.
Close Scope R_scope.
Open Scope nat_scope.

Set Implicit Arguments.

(** ** Exceptions *)

Inductive exn : Type :=
| IndexError
| AssertionError
| ValueError
| ZeroDivisionError
| Exception.

Inductive result (A : Type) : Type :=
| Ok (a : A)
| Raise (e : exn).

Arguments Ok {A} a.
Arguments Raise {A} e.

Definition bind {A B : Type} (m : result A) (k : A -> result B) : result B :=
  match m with
  | Ok a => k a
  | Raise e => Raise e
  end.

Notation "x <- m ;; k" := (bind m (fun x => k))
  (at level 61, m at next level, right associativity).

(** [for x in l: acc = body(acc, x)], stopping at the first exception. *)
Fixpoint foldM {A B : Type} (body : A -> B -> result A) (l : list B) (acc : A)
  : result A :=
  match l with
  | [] => Ok acc
  | x :: l' => acc' <- body acc x ;; foldM body l' acc'
  end.

(** [[f(x) for x in l]], stopping at the first exception. *)
Fixpoint mapM {A B : Type} (f : A -> result B) (l : list A) : result (list B) :=
  match l with
  | [] => Ok []
  | x :: l' => y <- f x ;; ys <- mapM f l' ;; Ok (y :: ys)
  end.

(** ** Python lists and numpy arrays *)

(** [l[i]] for an index [i >= 0]. *)
Definition list_getitem {A : Type} (l : list A) (i : nat) : result A :=
  match nth_error l i with
  | Some a => Ok a
  | None => Raise IndexError
  end.

(** [l[i] = v] for an index [0 <= i < len(l)] (the only use in this file). *)
Fixpoint list_setitem {A : Type} (l : list A) (i : nat) (v : A) : list A :=
  match l, i with
  | [] , _ => []
  | _ :: l', O => v :: l'
  | x :: l', S i' => x :: list_setitem l' i' v
  end.

(** A 2-D numpy array: [shape0] rows, [shape1] columns; [item i j] is
    meaningful for [i < shape0] and [j < shape1] only. *)
Record ndarray (A : Type) : Type := mk_ndarray {
  shape0 : nat;
  shape1 : nat;
  item : nat -> nat -> A
}.

(** [numpy.zeros((r, c))]. *)
Definition zeros (r c : nat) : ndarray R :=
  {| shape0 := r; shape1 := c; item := fun _ _ => 0%R |}.

(** [a[i, j]] for [i, j >= 0]. *)
Definition getitem2 {A : Type} (a : ndarray A) (i j : nat) : result A :=
  if (i <? shape0 a) && (j <? shape1 a) then Ok (item a i j) else Raise IndexError.

(** numpy's index normalisation along an axis of length [n]: a negative index
    counts from the end, anything outside [-n, n) is an [IndexError]. *)
Definition norm_index (n : nat) (i : Z) : result nat :=
  if ((0 <=? i) && (i <? Z.of_nat n))%Z then Ok (Z.to_nat i)
  else if ((- Z.of_nat n <=? i) && (i <? 0))%Z then Ok (Z.to_nat (Z.of_nat n + i))
  else Raise IndexError.

(** [a[i, j] = v], with [i >= 0] and an integer column index [j]. *)
Definition setitem2 {A : Type} (a : ndarray A) (i : nat) (j : Z) (v : A)
  : result (ndarray A) :=
  if i <? shape0 a then
    c <- norm_index (shape1 a) j ;;
    Ok {| shape0 := shape0 a; shape1 := shape1 a;
          item := fun i' j' => if (i' =? i) && (j' =? c) then v else item a i' j' |}
  else Raise IndexError.

(** [a[i, :]]. *)
Definition getrow {A : Type} (a : ndarray A) (i : nat) : result (list A) :=
  if i <? shape0 a then Ok (map (item a i) (seq 0 (shape1 a))) else Raise IndexError.

(** [a[:, j]]. *)
Definition getcol {A : Type} (a : ndarray A) (j : nat) : result (list A) :=
  if j <? shape1 a then Ok (map (fun i => item a i j) (seq 0 (shape0 a)))
  else Raise IndexError.

(** The entries of [a] in row-major order ([a.flatten()]). *)
Definition flatten {A : Type} (a : ndarray A) : list A :=
  flat_map (fun i => map (item a i) (seq 0 (shape1 a))) (seq 0 (shape0 a)).

(** [a.argmax()] and [a.max()] of a 1-D array: the first index of a largest
    entry, and that entry; [ValueError] on an empty array. *)
Fixpoint argmax_from (best_i : nat) (best : R) (i : nat) (l : list R) : nat * R :=
  match l with
  | [] => (best_i, best)
  | x :: l' =>
      if Rlt_dec best x then argmax_from i x (S i) l'
      else argmax_from best_i best (S i) l'
  end.

Definition argmax (l : list R) : result nat :=
  match l with
  | [] => Raise ValueError
  | x :: l' => Ok (fst (argmax_from 0 x 1 l'))
  end.

Definition amax (l : list R) : result R :=
  match l with
  | [] => Raise ValueError
  | x :: l' => Ok (snd (argmax_from 0 x 1 l'))
  end.

(** [a.argmin()]: the first index of a smallest entry. *)
Fixpoint argmin_from (best_i : nat) (best : R) (i : nat) (l : list R) : nat :=
  match l with
  | [] => best_i
  | x :: l' =>
      if Rlt_dec x best then argmin_from i x (S i) l'
      else argmin_from best_i best (S i) l'
  end.

Definition argmin (l : list R) : result nat :=
  match l with
  | [] => Raise ValueError
  | x :: l' => Ok (argmin_from 0 x 1 l')
  end.

(** [numpy.unique(a, return_counts=True)] on the flattened entries: the
    distinct values in ascending order, each with its number of occurrences. *)
Fixpoint insert_count (x : Z) (l : list (Z * nat)) : list (Z * nat) :=
  match l with
  | [] => [(x, 1)]
  | (y, n) :: l' =>
      if (x <? y)%Z then (x, 1) :: l
      else if (x =? y)%Z then (y, S n) :: l'
      else (y, n) :: insert_count x l'
  end.

Definition unique_counts (l : list Z) : list (Z * nat) :=
  fold_right insert_count [] l.

(** [range(start, stop, step)] for a positive [step]. *)
Definition py_range (start stop step : Z) : list Z :=
  map (fun k => (start + Z.of_nat k * step)%Z)
      (seq 0 (Z.to_nat ((stop - start + step - 1) / step))).

(** [random.choice(seq)]: [seq[k]] for a [k] below [len(seq)] that the
    generator picks, here from its draw [r]; [IndexError] on an empty [seq]. *)
Definition random_choice {A : Type} (r : nat) (l : list A) : result A :=
  match l with
  | [] => Raise IndexError
  | _ => list_getitem l (r mod length l)
  end.

(** ** Configuration and collaborators *)

(** The constants of the module [parameters] that [data_entry.py] reads. *)
Class parameters : Type := {
  SIGNAL_LENGTH_SEC : Q;
  SAMPLE_RATE_HZ : Q;
  INPUT_SIGNAL_RMS : R;
  NUM_OF_DIRECTIONS : nat;
  SGRAM_NOISE_TH_dB : R;
  MIXED_IBM_IDENTIFICATION_TH : Z
}.

(** The function of the module [features] that the label synthesizer calls. *)
Class features : Type := {
  getSpectrogram : list R -> ndarray R
}.

(** [int(q)]: truncation towards zero. *)
Definition int_of_Q (q : Q) : Z := (Qnum q ÷ Z.pos (Qden q))%Z.

(** ** Angle index conversions (lines 104-110) *)

Definition getAngleIdx (angle : Z) : Z := ((angle + 90) ÷ 5)%Z.

Definition getAngleFromIdx (angle_idx : Z) : Z := (angle_idx * 5 - 90)%Z.

(** ** The angle allocator (lines 91-102) *)

Definition MIN_ANGLE : Z := (-90)%Z.
Definition MAX_ANGLE : Z := 90%Z.
Definition STEP : Z := 5%Z.

Definition angles_list : list Z := py_range MIN_ANGLE (MAX_ANGLE + STEP) STEP.

Definition Z_in (a : Z) (l : list Z) : bool := existsb (Z.eqb a) l.

Definition getRandomAngle (r : nat) (forbidden_angles : list Z) : result Z :=
  let possible_angles :=
    filter (fun angle => negb (Z_in angle forbidden_angles)) angles_list in
  random_choice r possible_angles.

(** ** The mask codec (lines 223-252) *)

Section Codec.
Context {P : parameters}.

(** One assignment [mixed_ibm[time_dim, freq_dim] = dnn_target[freq_dim][time_dim, :].argmax()]. *)
Definition mixed_ibm_assign (dnn_target : list (ndarray R)) (time_dim : nat)
    (mixed_ibm : ndarray Z) (freq_dim : nat) : result (ndarray Z) :=
  tgt <- list_getitem dnn_target freq_dim ;;
  row <- getrow tgt time_dim ;;
  cls <- argmax row ;;
  setitem2 mixed_ibm time_dim (Z.of_nat freq_dim) (Z.of_nat cls).

(** The mixed class map holds the class indices that [argmax] returns; its
    entries are modelled by these integers. *)
Definition dnnTargetToMixedIbm (dnn_target : list (ndarray R)) : result (ndarray Z) :=
  first <- list_getitem dnn_target 0 ;;
  let mixed_ibm :=
    {| shape0 := shape0 first; shape1 := length dnn_target; item := fun _ _ => 0%Z |} in
  foldM (fun m time_dim =>
           foldM (mixed_ibm_assign dnn_target time_dim) (seq 0 (shape1 m)) m)
        (seq 0 (shape0 mixed_ibm)) mixed_ibm.

(** [ibm = numpy.zeros(mixed_ibm.shape); ibm[mixed_ibm == v] = 1]. *)
Definition ibm_of (mixed_ibm : ndarray Z) (v : Z) : ndarray R :=
  {| shape0 := shape0 mixed_ibm; shape1 := shape1 mixed_ibm;
     item := fun i j => if (item mixed_ibm i j =? v)%Z then 1%R else 0%R |}.

(** The loop over the distinct values [angle_ind] and their counts. *)
Fixpoint ibms_loop (mixed_ibm : ndarray Z) (uc : list (Z * nat))
    (ibms : list (ndarray R)) (angles : list Z) : list (ndarray R) * list Z :=
  match uc with
  | [] => (ibms, angles)
  | (angle_ind, angle_count) :: uc' =>
      if (Z.of_nat angle_count <? MIXED_IBM_IDENTIFICATION_TH)%Z then
        ibms_loop mixed_ibm uc' ibms angles
      else if (angle_ind >=? Z.of_nat NUM_OF_DIRECTIONS)%Z then
        ibms_loop mixed_ibm uc' ibms angles
      else
        ibms_loop mixed_ibm uc' (ibms ++ [ibm_of mixed_ibm angle_ind])
                  (angles ++ [getAngleFromIdx angle_ind])
  end.

Definition mixedIbmToIbms (mixed_ibm : ndarray Z) : list (ndarray R) * list Z :=
  ibms_loop mixed_ibm (unique_counts (flatten mixed_ibm)) [] [].

End Codec.

(** ** Signal power (lines 51-57) and the normalisation of line 40 *)

(** [numpy.linalg.norm(arr_in)]: the Euclidean norm. *)
Definition linalg_norm (arr_in : list R) : R :=
  sqrt (fold_right (fun x acc => x * x + acc) 0 arr_in)%R.

Definition getArrayRms (arr_in : list R) : R :=
  sqrt (linalg_norm arr_in / INR (length arr_in))%R.

(** [(signal/sig_rms)*parameters.INPUT_SIGNAL_RMS]. *)
Definition normalize_signal {P : parameters} (signal : list R) : list R :=
  let sig_rms := getArrayRms signal in
  map (fun x => (x / sig_rms * INPUT_SIGNAL_RMS)%R) signal.

(** The root-mean-square value as the specification words it: the square root
    of the mean of the squared samples. *)
Definition rms_spec (arr : list R) : R :=
  sqrt (fold_right (fun x acc => x * x + acc) 0 arr / INR (length arr))%R.

(** ** Nearest stored azimuth and binaural rendering (lines 112-139) *)

Definition find_closest_idx_in_array (array : list R) (val : R) : result nat :=
  argmin (map (fun a => Rabs (a - val)) array).

(** [scipy.signal.convolve(a, h, 'same')] on non-empty 1-D arrays: the full
    linear convolution, cut to the [len(a)] samples that start at
    [(len(h) - 1) // 2]. *)
Fixpoint add_padded (u v : list R) : list R :=
  match u, v with
  | [], _ => v
  | _, [] => u
  | x :: u', y :: v' => (x + y)%R :: add_padded u' v'
  end.

Fixpoint convolve_full (a h : list R) : list R :=
  match a with
  | [] => []
  | x :: a' => add_padded (map (Rmult x) h) (0%R :: convolve_full a' h)
  end.

Definition convolve_same (a h : list R) : list R :=
  firstn (length a) (skipn ((length h - 1) / 2) (convolve_full a h)).

(** A two-channel signal, [audio[:, 0]] and [audio[:, 1]]. *)
Definition stereo : Type := (list R * list R)%type.

(** The impulse-response table [Data.IR]: per stored direction, the taps of
    the two ears. *)
Definition brir_table : Type := list (list R * list R).

Definition getBinauralSound (audio_in : list R) (brir : brir_table)
    (pos_def : ndarray R) (angle : Z) : result stereo :=
  if ((angle >? 90) || (angle <? -90))%Z then Raise Exception
  else
    let angle := if (angle <? 0)%Z then (angle + 360)%Z else angle in
    angles <- getcol pos_def 0 ;;
    angle_idx <- find_closest_idx_in_array angles (IZR angle) ;;
    brir_direction <- list_getitem brir angle_idx ;;
    let channel1 := convolve_same audio_in (fst brir_direction) in
    let channel2 := convolve_same audio_in (snd brir_direction) in
    Ok (channel1, channel2).

(** ** The label synthesizer (lines 59-89) *)

Section LabelSynthesizer.
Context {P : parameters}.

(** The body of the two loops, for the bin [(time_ind, out_ind)]. *)
Definition label_bin (sgrams : list (ndarray R)) (noise_sgram : ndarray R)
    (self_angles : list Z) (out_ind : nat) (targets : list (ndarray R))
    (time_ind : nat) : result (list (ndarray R)) :=
  sgram_vals <- mapM (fun sgram => getitem2 sgram time_ind out_ind) sgrams ;;
  max_ind <- argmax sgram_vals ;;
  max_val <- amax sgram_vals ;;
  max_angle <- list_getitem self_angles max_ind ;;
  let angle_ind := getAngleIdx max_angle in
  noise_val <- getitem2 noise_sgram time_ind out_ind ;;
  let noise_th := (noise_val * Rpower 10 (SGRAM_NOISE_TH_dB / 10))%R in
  target <- list_getitem targets out_ind ;;
  target' <- (if Rlt_dec max_val noise_th
              then setitem2 target time_ind (-1)%Z 1%R
              else setitem2 target time_ind angle_ind 1%R) ;;
  Ok (list_setitem targets out_ind target').

(** Lines 67-89, from the spectrograms on. *)
Definition targets_of_sgrams (sgrams : list (ndarray R)) (noise_sgram : ndarray R)
    (self_angles : list Z) : result (list (ndarray R)) :=
  sgram0 <- list_getitem sgrams 0 ;;
  let targets :=
    map (fun _ => zeros (shape0 sgram0) (NUM_OF_DIRECTIONS + 1))
        (seq 0 (shape1 sgram0)) in
  foldM (fun targets out_ind =>
           foldM (label_bin sgrams noise_sgram self_angles out_ind)
                 (seq 0 (shape0 sgram0)) targets)
        (seq 0 (shape1 sgram0)) targets.

Context {F : features}.

Definition updateTargetsFromSignals (self_signals : list stereo) (self_noise : list R)
    (self_angles : list Z) : result (list (ndarray R)) :=
  let sgrams := map (fun binaural_signal => getSpectrogram (fst binaural_signal))
                    self_signals in
  let noise_sgram := getSpectrogram self_noise in
  targets_of_sgrams sgrams noise_sgram self_angles.

End LabelSynthesizer.

(** ** Construction of a data entry (lines 24-49) *)

(** The attributes of [self] that the constructor fills in. An exception
    leaves them as they were when it was raised. *)
Record DataEntry : Type := mk_DataEntry {
  signals : list stereo;
  angles : list Z;
  noise : list R;
  res_signal : stereo;
  targets : list (ndarray R)
}.

Section Constructor.
Context {P : parameters}.

Definition signal_length_samples : nat :=
  Z.to_nat (int_of_Q (SIGNAL_LENGTH_SEC * SAMPLE_RATE_HZ)%Q).

(** [self.res_signal + binaural_signal] for two signals of one length. *)
Definition stereo_add (u v : stereo) : stereo :=
  (map (fun p => (fst p + snd p)%R) (combine (fst u) (fst v)),
   map (fun p => (fst p + snd p)%R) (combine (snd u) (snd v))).

(** The loop of lines 36-46. [rand k] is the draw of the random generator at
    the call of [getRandomAngle] for source number [k]. *)
Fixpoint init_loop (brir : brir_table) (pos_def : ndarray R) (rand : nat -> nat)
    (in_signals : list (list R)) (self : DataEntry) : result unit * DataEntry :=
  match in_signals with
  | [] => (Ok tt, self)
  | signal :: in_signals' =>
      if negb (length signal =? signal_length_samples) then (Raise AssertionError, self)
      else
        let signal := normalize_signal signal in
        match getRandomAngle (rand (length (angles self))) (angles self) with
        | Raise e => (Raise e, self)
        | Ok angle =>
            let self :=
              {| signals := signals self; angles := angles self ++ [angle];
                 noise := noise self; res_signal := res_signal self;
                 targets := targets self |} in
            match getBinauralSound signal brir pos_def angle with
            | Raise e => (Raise e, self)
            | Ok binaural_signal =>
                init_loop brir pos_def rand in_signals'
                  {| signals := signals self ++ [binaural_signal];
                     angles := angles self;
                     noise := noise self;
                     res_signal := stereo_add (res_signal self) binaural_signal;
                     targets := targets self |}
            end
        end
  end.

(** [self] before the loop (lines 29-35); [first] is [in_signals[0]]. *)
Definition init_self (first : list R) : DataEntry :=
  {| signals := []; angles := []; noise := map (fun _ => 0%R) first;
     res_signal := (repeat 0%R signal_length_samples,
                    repeat 0%R signal_length_samples);
     targets := [] |}.

Context {F : features}.

(** [DataEntry.__init__], up to the feature extraction of line 49, which only
    calls the module [features]. *)
Definition init (in_signals : list (list R)) (brir : brir_table) (pos_def : ndarray R)
    (rand : nat -> nat) : result unit * DataEntry :=
  match in_signals with
  | [] => (Raise IndexError,
           {| signals := []; angles := []; noise := []; res_signal := ([], []);
              targets := [] |})
  | first :: _ =>
      match init_loop brir pos_def rand in_signals (init_self first) with
      | (Raise e, self) => (Raise e, self)
      | (Ok _, self) =>
          match updateTargetsFromSignals (signals self) (noise self) (angles self) with
          | Raise e => (Raise e, self)
          | Ok tg =>
              (Ok tt, {| signals := signals self; angles := angles self;
                         noise := noise self; res_signal := res_signal self;
                         targets := tg |})
          end
      end
  end.

End Constructor.

(** ** Evaluation (lines 254-292) *)

Record performance : Type := mk_performance {
  source_md : R;
  source_fa : R
}.

(** [a / b] on two list lengths. *)
Definition len_div (a b : nat) : result R :=
  if b =? 0 then Raise ZeroDivisionError else Ok (INR a / INR b)%R.

Section Evaluation.
Context {P : parameters}.

(** [estimateNetsPerformance] with [save=False]; [net_output] is the list of
    the predictions [net.predict(self.features[ind])]. *)
Definition estimateNetsPerformance (self_angles : list Z)
    (net_output : list (ndarray R)) : result performance :=
  mixed_ibm <- dnnTargetToMixedIbm net_output ;;
  let '(ibms, angles) := mixedIbmToIbms mixed_ibm in
  md <- len_div (length (filter (fun a => negb (Z_in a angles)) self_angles))
                (length self_angles) ;;
  fa <- len_div (length (filter (fun a => negb (Z_in a self_angles)) angles))
                (length angles) ;;
  Ok {| source_md := md; source_fa := fa |}.

End Evaluation.

(** ** Feature assembly (lines 141-156) *)

(** The other functions of the module [features] and the other constant of
    the module [parameters] that [updateFeaturesFromResSignal] reads. *)
Class feature_extractors : Type := {
  getMFCC : stereo -> ndarray R;
  getILD : stereo -> ndarray R;
  getIPD : stereo -> ndarray R
}.

Class feature_parameters : Type := {
  SGRAM_NUM_CHANNELS : nat
}.

(** [numpy.column_stack([c1, c2, m])] for two 1-D arrays and a 2-D array:
    the 1-D arrays become the first two columns; [ValueError] unless the
    three have the same number of rows. *)
Definition column_stack3 (c1 c2 : list R) (m : ndarray R) : result (ndarray R) :=
  if (length c1 =? length c2) && (length c2 =? shape0 m) then
    Ok {| shape0 := shape0 m; shape1 := 2 + shape1 m;
          item := fun i j =>
            match j with
            | 0 => nth i c1 0%R
            | 1 => nth i c2 0%R
            | S (S j') => item m i j'
            end |}
  else Raise ValueError.

Section Features.
Context {FE : feature_extractors} {FP : feature_parameters}.

(** The body of the loop of lines 149-156. *)
Definition channel_features_step (mfcc ild ipd : ndarray R)
    (self_features : list (ndarray R)) (ind : nat) : result (list (ndarray R)) :=
  ild_col <- getcol ild ind ;;
  ipd_col <- getcol ipd ind ;;
  channel_features <- column_stack3 ild_col ipd_col mfcc ;;
  Ok (self_features ++ [channel_features]).

Definition updateFeaturesFromResSignal (self_res_signal : stereo)
  : result (list (ndarray R)) :=
  let mfcc := getMFCC self_res_signal in
  let ild := getILD self_res_signal in
  let ipd := getIPD self_res_signal in
  foldM (channel_features_step mfcc ild ipd) (seq 0 SGRAM_NUM_CHANNELS) [].

End Features.

(** ** Concatenation that skips empty arrays (lines 294-308) *)

(** [numpy.concatenate((a, b), axis=axis)] for 2-D arrays and an axis
    [>= 0]: [ValueError] when the other dimension differs; an axis that is
    not 0 or 1 is a [numpy.AxisError], which is an [IndexError]. *)
Definition concatenate2 {A : Type} (a b : ndarray A) (axis : nat)
  : result (ndarray A) :=
  match axis with
  | 0 =>
      if shape1 a =? shape1 b then
        Ok {| shape0 := shape0 a + shape0 b; shape1 := shape1 a;
              item := fun i j =>
                if i <? shape0 a then item a i j else item b (i - shape0 a) j |}
      else Raise ValueError
  | 1 =>
      if shape0 a =? shape0 b then
        Ok {| shape0 := shape0 a; shape1 := shape1 a + shape1 b;
              item := fun i j =>
                if j <? shape1 a then item a i j else item b i (j - shape1 a) |}
      else Raise ValueError
  | _ => Raise IndexError
  end.

(** The body of the loop, on 2-D arrays. [out_stacked] is [None] while it
    is the empty list [[]] it starts as; [len] of an array is its number
    of rows. *)
Definition generalizedConcat_step {A : Type} (dim : nat)
    (out_stacked : option (ndarray A)) (data : ndarray A)
  : result (option (ndarray A)) :=
  if shape0 data =? 0 then Ok out_stacked
  else
    match out_stacked with
    | None => Ok (Some data)
    | Some out =>
        if shape0 out =? 0 then Ok (Some data)
        else stacked <- concatenate2 out data dim ;; Ok (Some stacked)
    end.

Definition generalizedConcat {A : Type} (in_data : list (ndarray A)) (dim : nat)
  : result (option (ndarray A)) :=
  foldM (generalizedConcat_step dim) in_data None.

(** ** Vocabulary of the statements *)

(** The number of bins of a class map that hold the class [c]. *)
Definition pixel_count (mixed_ibm : ndarray Z) (c : Z) : nat :=
  count_occ Z.eq_dec (flatten mixed_ibm) c.

(** The count that a list of (value, count) pairs gives to [v]. *)
Fixpoint total_count (v : Z) (uc : list (Z * nat)) : nat :=
  match uc with
  | [] => 0
  | (y, n) :: uc' => (if (v =? y)%Z then n else 0) + total_count v uc'
  end.

(** The values that pass the two tests of the loop of [mixedIbmToIbms]. *)
Definition kept_classes {P : parameters} (uc : list (Z * nat)) : list Z :=
  map fst
    (filter (fun p => negb (Z.of_nat (snd p) <? MIXED_IBM_IDENTIFICATION_TH)%Z
                      && negb (fst p >=? Z.of_nat NUM_OF_DIRECTIONS)%Z) uc).

(** [ibm] is the binary mask of the class [c] in [mixed_ibm]. *)
Definition mask_of_class (mixed_ibm : ndarray Z) (c : Z) (ibm : ndarray R) : Prop :=
  shape0 ibm = shape0 mixed_ibm /\ shape1 ibm = shape1 mixed_ibm /\
  forall t f, t < shape0 mixed_ibm -> f < shape1 mixed_ibm ->
    (item mixed_ibm t f = c /\ item ibm t f = 1%R) \/
    (item mixed_ibm t f <> c /\ item ibm t f = 0%R).

(** No bin is set in both masks. *)
Definition disjoint_masks (a b : ndarray R) : Prop :=
  forall t f, ~ (item a t f = 1%R /\ item b t f = 1%R).

(** [i] is the first index of a largest entry of [l]. *)
Definition first_max (l : list R) (i : nat) : Prop :=
  i < length l /\
  (forall j, j < length l -> (nth j l 0 <= nth i l 0)%R) /\
  (forall j, j < i -> (nth j l 0 < nth i l 0)%R).

(** [i] is the first index of a smallest entry of [l]. *)
Definition first_min (l : list R) (i : nat) : Prop :=
  i < length l /\
  (forall j, j < length l -> (nth i l 0 <= nth j l 0)%R) /\
  (forall j, j < i -> (nth i l 0 < nth j l 0)%R).

(** Row [t] of [a] is one-hot with its 1 in column [k]. *)
Definition one_hot_at (a : ndarray R) (t k : nat) : Prop :=
  k < shape1 a /\
  forall c, c < shape1 a -> item a t c = if c =? k then 1%R else 0%R.

(** A family of one-hot target arrays with [T] time frames: one array per
    frequency channel, at least one channel, every row one-hot. *)
Definition valid_targets (dnn_target : list (ndarray R)) (T : nat) : Prop :=
  dnn_target <> [] /\
  Forall (fun a => shape0 a = T /\ forall t, t < T -> exists k, one_hot_at a t k)
         dnn_target.

(** [dnn_target[freq_dim][time_dim, :].argmax()]. *)
Definition row_argmax (dnn_target : list (ndarray R)) (time_dim freq_dim : nat)
  : result nat :=
  tgt <- list_getitem dnn_target freq_dim ;;
  row <- getrow tgt time_dim ;;
  argmax row.

Definition class_of_row (dnn_target : list (ndarray R)) (time_dim freq_dim : nat) : Z :=
  match row_argmax dnn_target time_dim freq_dim with
  | Ok k => Z.of_nat k
  | Raise _ => 0%Z
  end.

(** Row [t] of [tgt] is labelled with the class [c]: column [c] exists and
    holds the 1 of the row. *)
Definition labelled_class (tgt : ndarray R) (t c : nat) : bool :=
  (c <? shape1 tgt) && (if Req_dec_T (item tgt t c) 1%R then true else false).

(** The number of (time, frequency) bins, over [T] time frames, whose row in
    the targets [dnn_target] is labelled with the class [c]. *)
Definition label_count (dnn_target : list (ndarray R)) (T c : nat) : nat :=
  list_sum
    (map (fun t => length (filter (fun tgt => labelled_class tgt t c) dnn_target))
         (seq 0 T)).

(** The azimuth grid of the specification: -90, -85, ..., 90. *)
Definition on_grid (a : Z) : Prop :=
  (-90 <= a <= 90)%Z /\ (a mod 5 = 0)%Z.

(** The angle lists that sequences of allocator calls build for one mixture
    (line 42): every call receives the angles allocated before it, and its
    result is appended to them. *)
Inductive allocation : list Z -> Prop :=
| alloc_none : allocation []
| alloc_next (self_angles : list Z) (r : nat) (a : Z) :
    allocation self_angles ->
    getRandomAngle r self_angles = Ok a ->
    allocation (self_angles ++ [a]).

(** The magnitudes of the sources at one bin. *)
Definition bin_vals (sgrams : list (ndarray R)) (t f : nat) : list R :=
  map (fun sgram => item sgram t f) sgrams.

(** [noise_sgram[t, f] * 10**(SGRAM_NOISE_TH_dB/10)]. *)
Definition noise_threshold {P : parameters} (noise_sgram : ndarray R) (t f : nat) : R :=
  (item noise_sgram t f * Rpower 10 (SGRAM_NOISE_TH_dB / 10))%R.

(** The spectrograms of one data entry: at least one source, all of them and
    the noise spectrogram of the shape [(T, F)]. *)
Definition valid_sgrams (sgrams : list (ndarray R)) (noise_sgram : ndarray R)
    (T F : nat) : Prop :=
  sgrams <> [] /\
  Forall (fun sgram => shape0 sgram = T /\ shape1 sgram = F) sgrams /\
  shape0 noise_sgram = T /\ shape1 noise_sgram = F.

(** Every angle has its class index among the direction classes. *)
Definition direction_angles {P : parameters} (self_angles : list Z) : Prop :=
  Forall (fun a => (0 <= getAngleIdx a < Z.of_nat NUM_OF_DIRECTIONS)%Z) self_angles.

(** The column that the loop body sets for the bin [(t, f)]. *)
Definition bin_column {P : parameters} (sgrams : list (ndarray R))
    (noise_sgram : ndarray R) (self_angles : list Z) (t f : nat) : nat :=
  match argmax (bin_vals sgrams t f), amax (bin_vals sgrams t f) with
  | Ok max_ind, Ok max_val =>
      if Rlt_dec max_val (noise_threshold noise_sgram t f) then NUM_OF_DIRECTIONS
      else Z.to_nat (getAngleIdx (nth max_ind self_angles 0%Z))
  | _, _ => 0
  end.

(** The bins processed when the loops are at [(out_ind, time_ind)]. *)
Definition bins_done (out_ind time_ind : nat) (f t : nat) : bool :=
  (f <? out_ind) || ((f =? out_ind) && (t <? time_ind)).

(** The state of [targets] in which exactly the bins of [done] are labelled. *)
Definition labelled {P : parameters} (col : nat -> nat -> nat) (T F : nat)
    (done : nat -> nat -> bool) (targets : list (ndarray R)) : Prop :=
  length targets = F /\
  forall f, f < F ->
    exists target, nth_error targets f = Some target /\
      shape0 target = T /\ shape1 target = NUM_OF_DIRECTIONS + 1 /\
      forall t c, t < T -> c < NUM_OF_DIRECTIONS + 1 ->
        item target t c = if done f t && (c =? col t f) then 1%R else 0%R.

(** [sgrams[0].shape[0]] for the rendered signals of [self]. *)
Definition time_frames {F : features} (self : DataEntry) : nat :=
  shape0 (getSpectrogram (fst (hd ([], []) (signals self)))).

(** ** A small configuration and small inputs *)

(** A configuration with the 37 directions of the grid of [getRandomAngle]
    and signals of four samples. *)
Definition small_parameters : parameters :=
  {| SIGNAL_LENGTH_SEC := 1%Q;
     SAMPLE_RATE_HZ := 4%Q;
     INPUT_SIGNAL_RMS := 1%R;
     NUM_OF_DIRECTIONS := 37;
     SGRAM_NOISE_TH_dB := (-10)%R;
     MIXED_IBM_IDENTIFICATION_TH := 2%Z |}.

(** Two time frames, two frequency channels: class 3 in the first frame, the
    noise class 37 in the second. *)
Definition small_mixed_ibm : ndarray Z :=
  {| shape0 := 2; shape1 := 2;
     item := fun t _ => if t =? 0 then 3%Z else 37%Z |}.

(** Two frequency channels of one-hot targets over the 37 directions and the
    noise class: both label the first frame with class 3 and the second with
    the noise class. *)
Definition small_target : ndarray R :=
  {| shape0 := 2; shape1 := 38;
     item := fun t c => if c =? (if t =? 0 then 3 else 37) then 1%R else 0%R |}.

Definition small_targets : list (ndarray R) := [small_target; small_target].

(** The prediction of one net for one time frame: all weight on the noise
    class. *)
Definition noise_only_output : list (ndarray R) :=
  [ {| shape0 := 1; shape1 := 38;
       item := fun _ c => if c =? 37 then 1%R else 0%R |} ].

(** A source signal of four samples, and three stored azimuths. *)
Definition small_signal : list R := [2; 2; 2; 2]%R.

Definition small_azimuths : list R := [0; 90; 270]%R.

(** Two sources over one time frame and two frequency channels: the first
    source dominates channel 0, the second channel 1; a silent noise
    reference. *)
Definition small_sgrams : list (ndarray R) :=
  [ {| shape0 := 1; shape1 := 2; item := fun _ f => if f =? 0 then 3%R else 1%R |};
    {| shape0 := 1; shape1 := 2; item := fun _ f => if f =? 0 then 1%R else 2%R |} ].

Definition small_noise_sgram : ndarray R := zeros 1 2.

(** A stand-in for the feature extractor: one time frame and one frequency
    channel, holding the energy of the signal. *)
Definition energy_features : features :=
  {| getSpectrogram := fun s =>
       {| shape0 := 1; shape1 := 1;
          item := fun _ _ => fold_right (fun x acc => (x * x + acc)%R) 0%R s |} |}.

(** An impulse-response table with one stored direction, at azimuth 0, with
    unit impulses for both ears. *)
Definition small_brir : brir_table := [([1%R], [1%R])].

Definition small_pos_def : ndarray R :=
  {| shape0 := 1; shape1 := 3; item := fun _ _ => 0%R |}.

(** A generator whose every draw is 18: the first allocated angle is
    [angles_list[18]], that is 0. *)
Definition small_rand : nat -> nat := fun _ => 18.

(** The rows and the entries that [out_stacked] holds ([None] is the empty
    list). *)
Definition stacked_rows {A : Type} (out_stacked : option (ndarray A)) : nat :=
  match out_stacked with
  | None => 0
  | Some out => shape0 out
  end.

Definition stacked_entries {A : Type} (out_stacked : option (ndarray A)) : list A :=
  match out_stacked with
  | None => []
  | Some out => flatten out
  end.

(** The test [len(data) == 0] of [generalizedConcat], negated. *)
Definition has_rows {A : Type} (data : ndarray A) : bool := negb (shape0 data =? 0).

(** Stand-ins for the other feature extractors: one time frame; one
    spectral coefficient, two frequency channels of level and phase
    differences. *)
Definition small_extractors : feature_extractors :=
  {| getMFCC := fun s =>
       {| shape0 := 1; shape1 := 1;
          item := fun _ _ => fold_right (fun x acc => (x * x + acc)%R) 0%R (fst s) |};
     getILD := fun s =>
       {| shape0 := 1; shape1 := 2;
          item := fun _ ch => (nth ch (fst s) 0 - nth ch (snd s) 0)%R |};
     getIPD := fun s =>
       {| shape0 := 1; shape1 := 2;
          item := fun _ ch => (nth ch (fst s) 0 * nth ch (snd s) 0)%R |} |}.

Definition small_feature_parameters : feature_parameters :=
  {| SGRAM_NUM_CHANNELS := 2 |}.

(** Two arrays with two columns, of two rows and of one row, and an array
    without rows. *)
Definition small_blocks : list (ndarray Z) :=
  [ {| shape0 := 2; shape1 := 2; item := fun i j => Z.of_nat (2 * i + j) |};
    {| shape0 := 0; shape1 := 5; item := fun _ _ => 0%Z |};
    {| shape0 := 1; shape1 := 2; item := fun _ j => Z.of_nat (4 + j) |} ].

(** An array of one row and three columns. *)
Definition wide_block : ndarray Z :=
  {| shape0 := 1; shape1 := 3; item := fun _ _ => 0%Z |}.

(** A position table with three stored directions, at the azimuths 0, 300
    and 360: the azimuth 330 is as far from the second as from the third.
    The impulse-response table holds a different pair for each of them. *)
Definition tied_azimuths : list R := [0; 300; 360]%R.

Definition tied_pos_def : ndarray R :=
  {| shape0 := 3; shape1 := 3;
     item := fun i j => if j =? 0 then nth i tied_azimuths 0%R else 0%R |}.

Definition tied_brir : brir_table :=
  [([1%R], [1%R]); ([2%R], [3%R]); ([4%R], [5%R])].

(** Two sources over two time frames and two frequency channels: the first
    source dominates both bins of channel 0, the second both bins of
    channel 1; a silent noise reference. *)
Definition dominant_sgrams : list (ndarray R) :=
  [ {| shape0 := 2; shape1 := 2; item := fun _ f => if f =? 0 then 3%R else 1%R |};
    {| shape0 := 2; shape1 := 2; item := fun _ f => if f =? 0 then 1%R else 2%R |} ].

Definition dominant_noise_sgram : ndarray R := zeros 2 2.

(** The class map of the dominant sources at the angles 0 and 45. *)
Definition dominant_mixed_ibm : ndarray Z :=
  {| shape0 := 2; shape1 := 2;
     item := fun _ f => if f =? 0 then 18%Z else 27%Z |}.

(** A noise reference that is silent in channel 0 and loud in channel 1:
    with the floor of -10 dB its threshold there is 10, above both sources
    of [small_sgrams]. *)
Definition loud_noise_sgram : ndarray R :=
  {| shape0 := 1; shape1 := 2; item := fun _ f => if f =? 0 then 0%R else 100%R |}.

Unset Implicit Arguments.

(** * Properties *)

(** ** Loops *)

Lemma foldM_seq_inv (A : Type) (body : A -> nat -> result A)
    (Inv : nat -> A -> Prop) (n : nat) :
  (forall i a, i < n -> Inv i a -> exists a', body a i = Ok a' /\ Inv (S i) a') ->
  forall a0, Inv 0 a0 -> exists a', foldM body (seq 0 n) a0 = Ok a' /\ Inv n a'.
Proof.
  intros Hstep.
  assert (Hgen : forall k s a, s + k = n -> Inv s a ->
                   exists a', foldM body (seq s k) a = Ok a' /\ Inv n a').
  { induction k as [|k IH]; intros s a Hs Ha; simpl.
    - exists a. split; [reflexivity|]. now replace n with s by lia.
    - destruct (Hstep s a) as [a1 [E1 I1]]; [lia|assumption|].
      rewrite E1. simpl. apply IH; [lia|assumption]. }
  intros a0 H0. now apply (Hgen n 0 a0).
Qed.

(** ** [numpy.unique] with counts *)

Lemma total_count_insert (v x : Z) (uc : list (Z * nat)) :
  total_count v (insert_count x uc) = (if (v =? x)%Z then 1 else 0) + total_count v uc.
Proof.
  induction uc as [|[y n] uc IH]; simpl.
  - lia.
  - destruct (x <? y)%Z eqn:Elt; simpl.
    + lia.
    + destruct (x =? y)%Z eqn:Eeq; simpl.
      * apply Z.eqb_eq in Eeq. subst y. destruct (v =? x)%Z; lia.
      * rewrite IH. lia.
Qed.

Lemma total_count_unique (v : Z) (l : list Z) :
  total_count v (unique_counts l) = count_occ Z.eq_dec l v.
Proof.
  induction l as [|x l IH]; simpl; [reflexivity|].
  rewrite total_count_insert, IH.
  destruct (Z.eq_dec x v) as [->|N].
  - now rewrite Z.eqb_refl.
  - destruct (Z.eqb_spec v x); [congruence|reflexivity].
Qed.

Lemma insert_count_keys_Forall (Q : Z -> Prop) (x : Z) (uc : list (Z * nat)) :
  Q x -> Forall Q (map fst uc) -> Forall Q (map fst (insert_count x uc)).
Proof.
  intros Hx. induction uc as [|[y n] uc IH]; simpl; intros H.
  - now constructor.
  - inversion H; subst.
    destruct (x <? y)%Z; [|destruct (x =? y)%Z]; simpl; constructor; auto.
Qed.

Lemma insert_count_sorted (x : Z) (uc : list (Z * nat)) :
  StronglySorted Z.lt (map fst uc) ->
  StronglySorted Z.lt (map fst (insert_count x uc)).
Proof.
  induction uc as [|[y n] uc IH]; simpl; intros H.
  - repeat constructor.
  - inversion H as [|? ? Hs Hall]; subst.
    destruct (Z.ltb_spec x y) as [Hlt|Hge]; simpl.
    + constructor; [assumption|]. constructor; [assumption|].
      eapply Forall_impl; [|exact Hall]. intros; lia.
    + destruct (Z.eqb_spec x y) as [->|Hne]; simpl.
      * now constructor.
      * constructor; [now apply IH|].
        apply insert_count_keys_Forall; [lia|assumption].
Qed.

Lemma unique_counts_sorted (l : list Z) :
  StronglySorted Z.lt (map fst (unique_counts l)).
Proof.
  induction l; simpl; [constructor|now apply insert_count_sorted].
Qed.

Lemma total_count_absent (v : Z) (uc : list (Z * nat)) :
  ~ In v (map fst uc) -> total_count v uc = 0.
Proof.
  induction uc as [|[y n] uc IH]; simpl; intros H; [reflexivity|].
  destruct (Z.eqb_spec v y); [exfalso; auto|]. rewrite IH; auto.
Qed.

Lemma total_count_In (v : Z) (n : nat) (uc : list (Z * nat)) :
  StronglySorted Z.lt (map fst uc) -> In (v, n) uc -> total_count v uc = n.
Proof.
  induction uc as [|[y m] uc IH]; simpl; intros Hs Hin; [contradiction|].
  inversion Hs as [|? ? Hs' Hall]; subst.
  destruct Hin as [E|Hin].
  - inversion E; subst. rewrite Z.eqb_refl, total_count_absent; [lia|].
    intros Hin. rewrite Forall_forall in Hall. specialize (Hall _ Hin). lia.
  - assert (Hv : In v (map fst uc)) by (apply (in_map fst) in Hin; exact Hin).
    rewrite Forall_forall in Hall. specialize (Hall _ Hv).
    destruct (Z.eqb_spec v y); [lia|]. now apply IH.
Qed.

Lemma total_count_pos_In (v : Z) (uc : list (Z * nat)) :
  0 < total_count v uc -> exists n, In (v, n) uc.
Proof.
  induction uc as [|[y m] uc IH]; simpl; intros H; [lia|].
  destruct (Z.eqb_spec v y) as [->|Hne].
  - exists m. now left.
  - destruct IH as [n Hn]; [lia|]. exists n. now right.
Qed.

Lemma insert_count_pos (x : Z) (uc : list (Z * nat)) :
  Forall (fun p => 0 < snd p) uc -> Forall (fun p => 0 < snd p) (insert_count x uc).
Proof.
  induction uc as [|[y m] uc IH]; simpl; intros H.
  - constructor; [simpl; lia|constructor].
  - inversion H; subst. simpl in *.
    destruct (x <? y)%Z; [|destruct (x =? y)%Z]; constructor; simpl; auto; lia.
Qed.

Lemma unique_counts_pos (l : list Z) :
  Forall (fun p => 0 < snd p) (unique_counts l).
Proof.
  induction l; simpl; [constructor|now apply insert_count_pos].
Qed.

(** The entries of [unique_counts l] are the values of [l], each with its
    number of occurrences. *)
Lemma unique_counts_In (l : list Z) (v : Z) (n : nat) :
  In (v, n) (unique_counts l) <-> n = count_occ Z.eq_dec l v /\ 0 < n.
Proof.
  split.
  - intros Hin.
    pose proof (total_count_In _ _ _ (unique_counts_sorted l) Hin) as Ht.
    rewrite total_count_unique in Ht. split; [congruence|].
    pose proof (unique_counts_pos l) as Hp. rewrite Forall_forall in Hp.
    apply (Hp _ Hin).
  - intros [-> Hpos]. rewrite <- total_count_unique in Hpos |- *.
    destruct (total_count_pos_In _ _ Hpos) as [n Hn].
    now rewrite (total_count_In _ _ _ (unique_counts_sorted l) Hn).
Qed.

(** ** [argmax] and [argmin] *)

Lemma nth_map_seq (A : Type) (g : nat -> A) (n j : nat) (d : A) :
  j < n -> nth j (map g (seq 0 n)) d = g j.
Proof.
  intros Hj. rewrite (nth_indep _ d (g 0)) by (rewrite length_map, length_seq; lia).
  rewrite (map_nth g (seq 0 n) 0 j), seq_nth by lia. reflexivity.
Qed.

Lemma first_max_snoc (pre : list R) (bi : nat) (x : R) :
  first_max pre bi ->
  first_max (pre ++ [x]) (if Rlt_dec (nth bi pre 0%R) x then length pre else bi).
Proof.
  intros [Hlt [Hle Hfirst]].
  assert (Hpre : forall j, j < length pre -> nth j (pre ++ [x]) 0%R = nth j pre 0%R)
    by (intros; now apply app_nth1).
  assert (Hx : nth (length pre) (pre ++ [x]) 0%R = x)
    by (rewrite app_nth2, Nat.sub_diag by lia; reflexivity).
  unfold first_max. rewrite length_app. simpl.
  destruct (Rlt_dec (nth bi pre 0%R) x) as [Hb|Hb].
  - rewrite Hx. repeat split; [lia| |].
    + intros j Hj. destruct (Nat.eq_dec j (length pre)) as [->|Hne].
      * rewrite Hx. lra.
      * rewrite Hpre by lia. specialize (Hle j). lapply Hle; [lra|lia].
    + intros j Hj. rewrite Hpre by lia. specialize (Hle j Hj). lra.
  - rewrite (Hpre bi Hlt). repeat split; [lia| |].
    + intros j Hj. destruct (Nat.eq_dec j (length pre)) as [->|Hne].
      * rewrite Hx. lra.
      * rewrite Hpre by lia. apply Hle. lia.
    + intros j Hj. rewrite Hpre by lia. now apply Hfirst.
Qed.

Lemma argmax_from_first_max (l : list R) :
  forall pre bi, first_max pre bi ->
    first_max (pre ++ l) (fst (argmax_from bi (nth bi pre 0%R) (length pre) l)) /\
    snd (argmax_from bi (nth bi pre 0%R) (length pre) l)
      = nth (fst (argmax_from bi (nth bi pre 0%R) (length pre) l)) (pre ++ l) 0%R.
Proof.
  induction l as [|x l IH]; intros pre bi H; simpl.
  - rewrite app_nil_r. auto.
  - pose proof (first_max_snoc pre bi x H) as Hs.
    assert (Hlen : S (length pre) = length (pre ++ [x]))
      by (rewrite length_app; simpl; lia).
    replace (pre ++ x :: l) with ((pre ++ [x]) ++ l) by (now rewrite <- app_assoc).
    destruct (Rlt_dec (nth bi pre 0%R) x) as [Hb|Hb].
    + specialize (IH _ _ Hs).
      rewrite app_nth2, Nat.sub_diag in IH by lia. simpl in IH.
      rewrite Hlen. exact IH.
    + specialize (IH _ _ Hs).
      rewrite app_nth1 in IH by apply H.
      rewrite Hlen. exact IH.
Qed.

Lemma first_max_unique (l : list R) (i j : nat) :
  first_max l i -> first_max l j -> i = j.
Proof.
  intros [Hi [Hile Hif]] [Hj [Hjle Hjf]].
  destruct (Nat.lt_trichotomy i j) as [Hlt|[E|Hlt]]; [|assumption|].
  - specialize (Hjf i Hlt). specialize (Hile j Hj). lra.
  - specialize (Hif j Hlt). specialize (Hjle i Hi). lra.
Qed.

Lemma first_max_singleton (x : R) : first_max [x] 0.
Proof.
  unfold first_max. simpl. repeat split; [lia| |intros; lia].
  intros j Hj. replace j with 0 by lia. simpl. lra.
Qed.

(** [argmax] and [max] of a non-empty array: the first index of a largest
    entry, and that entry. *)
Lemma argmax_spec (l : list R) :
  l <> [] ->
  exists i, argmax l = Ok i /\ amax l = Ok (nth i l 0%R) /\ first_max l i.
Proof.
  destruct l as [|x l]; [congruence|]. intros _.
  destruct (argmax_from_first_max l [x] 0 (first_max_singleton x)) as [H1 H2].
  simpl in H1, H2.
  exists (fst (argmax_from 0 x 1 l)). simpl. rewrite H2. auto.
Qed.

Lemma argmax_first_max (l : list R) (i : nat) :
  first_max l i -> argmax l = Ok i.
Proof.
  intros H. assert (Hne : l <> []) by (destruct H as [H _]; destruct l; simpl in *; [lia|congruence]).
  destruct (argmax_spec l Hne) as [k [E [_ Hk]]].
  now rewrite (first_max_unique l i k H Hk).
Qed.

Lemma argmin_from_argmax (l : list R) :
  forall bi b i,
    argmin_from bi b i l = fst (argmax_from bi (- b)%R i (map Ropp l)).
Proof.
  induction l as [|x l IH]; intros bi b i; simpl; [reflexivity|].
  destruct (Rlt_dec x b), (Rlt_dec (- b) (- x)); try lra; apply IH.
Qed.

Lemma first_max_opp (l : list R) (i : nat) :
  first_max (map Ropp l) i -> first_min l i.
Proof.
  unfold first_max, first_min. rewrite length_map.
  assert (Hn : forall j, nth j (map Ropp l) 0%R = (- nth j l 0)%R).
  { intros j. rewrite <- (map_nth Ropp). now rewrite Ropp_0. }
  intros [Hi [Hle Hf]]. repeat split; [assumption| |].
  - intros j Hj. specialize (Hle j Hj). rewrite !Hn in Hle. lra.
  - intros j Hj. specialize (Hf j Hj). rewrite !Hn in Hf. lra.
Qed.

(** [argmin] of a non-empty array: the first index of a smallest entry. *)
Lemma argmin_spec (l : list R) :
  l <> [] -> exists i, argmin l = Ok i /\ first_min l i.
Proof.
  destruct l as [|x l]; [congruence|]. intros _.
  assert (Hne : map Ropp (x :: l) <> []) by (simpl; congruence).
  destruct (argmax_spec _ Hne) as [i [E [_ Hi]]].
  exists i. split; [|now apply first_max_opp].
  simpl in E. simpl. rewrite argmin_from_argmax. exact E.
Qed.

(** ** Array assignment *)

Lemma setitem2_in_range (A : Type) (a : ndarray A) (i j : nat) (v : A) :
  i < shape0 a -> j < shape1 a ->
  setitem2 a i (Z.of_nat j) v =
  Ok {| shape0 := shape0 a; shape1 := shape1 a;
        item := fun i' j' => if (i' =? i) && (j' =? j) then v else item a i' j' |}.
Proof.
  intros Hi Hj. unfold setitem2, norm_index.
  apply Nat.ltb_lt in Hi. rewrite Hi.
  replace ((0 <=? Z.of_nat j) && (Z.of_nat j <? Z.of_nat (shape1 a)))%Z with true.
  - simpl. now rewrite Nat2Z.id.
  - symmetry. apply andb_true_iff. split; [apply Z.leb_le|apply Z.ltb_lt]; lia.
Qed.

(** ** Decoding a mixed class map *)

Section CodecFacts.
Context {P : parameters}.

Lemma ibms_loop_kept (mixed_ibm : ndarray Z) (uc : list (Z * nat)) :
  forall ibms angles,
    ibms_loop mixed_ibm uc ibms angles =
    (ibms ++ map (ibm_of mixed_ibm) (kept_classes uc),
     angles ++ map getAngleFromIdx (kept_classes uc)).
Proof.
  unfold kept_classes.
  induction uc as [|[v n] uc IH]; intros ibms angles; simpl.
  - now rewrite !app_nil_r.
  - destruct (Z.of_nat n <? MIXED_IBM_IDENTIFICATION_TH)%Z; simpl; [apply IH|].
    destruct (v >=? Z.of_nat NUM_OF_DIRECTIONS)%Z; simpl; [apply IH|].
    rewrite IH, <- !app_assoc. reflexivity.
Qed.

Lemma mixedIbmToIbms_kept (mixed_ibm : ndarray Z) :
  mixedIbmToIbms mixed_ibm =
  (map (ibm_of mixed_ibm) (kept_classes (unique_counts (flatten mixed_ibm))),
   map getAngleFromIdx (kept_classes (unique_counts (flatten mixed_ibm)))).
Proof.
  unfold mixedIbmToIbms. now rewrite ibms_loop_kept.
Qed.

Lemma kept_classes_sorted (uc : list (Z * nat)) :
  StronglySorted Z.lt (map fst uc) -> StronglySorted Z.lt (kept_classes uc).
Proof.
  unfold kept_classes.
  induction uc as [|p uc IH]; simpl; intros H; [constructor|].
  inversion H as [|? ? Hs Hall]; subst.
  destruct (_ && _); simpl; [|now apply IH].
  constructor; [now apply IH|].
  rewrite Forall_forall in *. intros x Hx. apply Hall.
  rewrite in_map_iff in *. destruct Hx as [q [Hq Hin]].
  exists q. split; [assumption|]. now apply filter_In in Hin.
Qed.

Lemma kept_classes_In (mixed_ibm : ndarray Z) (c : Z) :
  In c (kept_classes (unique_counts (flatten mixed_ibm))) <->
  0 < pixel_count mixed_ibm c /\
  (MIXED_IBM_IDENTIFICATION_TH <= Z.of_nat (pixel_count mixed_ibm c))%Z /\
  (c < Z.of_nat NUM_OF_DIRECTIONS)%Z.
Proof.
  unfold kept_classes, pixel_count. rewrite in_map_iff. split.
  - intros [[v n] [Hv Hin]]. simpl in Hv. subst v.
    apply filter_In in Hin. destruct Hin as [Hin Hk]. simpl in Hk.
    apply unique_counts_In in Hin. destruct Hin as [-> Hpos].
    apply andb_true_iff in Hk. destruct Hk as [H1 H2].
    apply negb_true_iff in H1, H2.
    apply Z.ltb_ge in H1. rewrite Z.geb_leb in H2. apply Z.leb_gt in H2.
    auto.
  - intros [Hpos [Hth Hnum]].
    exists (c, count_occ Z.eq_dec (flatten mixed_ibm) c). split; [reflexivity|].
    apply filter_In. split.
    + apply unique_counts_In. auto.
    + simpl. apply andb_true_iff. split; apply negb_true_iff.
      * now apply Z.ltb_ge.
      * rewrite Z.geb_leb. now apply Z.leb_gt.
Qed.

Lemma ibm_of_mask (mixed_ibm : ndarray Z) (c : Z) :
  mask_of_class mixed_ibm c (ibm_of mixed_ibm c).
Proof.
  unfold mask_of_class, ibm_of; simpl. repeat split.
  intros t f _ _. destruct (Z.eqb_spec (item mixed_ibm t f) c); auto.
Qed.

Lemma pixel_count_pos_item (mixed_ibm : ndarray Z) (c : Z) :
  0 < pixel_count mixed_ibm c <->
  exists t f, t < shape0 mixed_ibm /\ f < shape1 mixed_ibm /\ item mixed_ibm t f = c.
Proof.
  unfold pixel_count, flatten.
  change (0 < ?n) with (n > 0).
  rewrite <- (count_occ_In Z.eq_dec), in_flat_map. split.
  - intros [t [Ht Hin]]. apply in_map_iff in Hin. destruct Hin as [f [Hf Hin]].
    apply in_seq in Ht, Hin. exists t, f. repeat split; [lia|lia|assumption].
  - intros [t [f [Ht [Hf E]]]]. exists t. split; [apply in_seq; lia|].
    apply in_map_iff. exists f. split; [assumption|apply in_seq; lia].
Qed.

End CodecFacts.

Section MaskCodec.
Context {P : parameters}.

(** C8. Decoding a mixed class map whose entries do not exceed the noise
    class index emits, in ascending class order, one (mask, angle) pair for
    each class value that is present, has at least
    [MIXED_IBM_IDENTIFICATION_TH] bins and is not the noise class: the mask
    is 1 exactly where the map holds the class and 0 elsewhere, the angle is
    [class * 5 - 90]. Nothing else is emitted. *)
Theorem mixedIbmToIbms_spec (mixed_ibm : ndarray Z) :
  (forall t f, t < shape0 mixed_ibm -> f < shape1 mixed_ibm ->
     (item mixed_ibm t f <= Z.of_nat NUM_OF_DIRECTIONS)%Z) ->
  exists classes : list Z,
    StronglySorted Z.lt classes /\
    (forall c, In c classes <->
       0 < pixel_count mixed_ibm c /\
       (MIXED_IBM_IDENTIFICATION_TH <= Z.of_nat (pixel_count mixed_ibm c))%Z /\
       c <> Z.of_nat NUM_OF_DIRECTIONS) /\
    Forall2 (mask_of_class mixed_ibm) classes (fst (mixedIbmToIbms mixed_ibm)) /\
    snd (mixedIbmToIbms mixed_ibm) = map (fun c => (c * 5 - 90)%Z) classes.
Proof.
  intros Hvalid.
  exists (kept_classes (unique_counts (flatten mixed_ibm))).
  rewrite mixedIbmToIbms_kept. simpl. repeat split.
  - apply kept_classes_sorted, unique_counts_sorted.
  - apply kept_classes_In in H. tauto.
  - apply kept_classes_In in H. tauto.
  - apply kept_classes_In in H. lia.
  - intros [Hpos [Hth Hne]]. apply kept_classes_In. repeat split; try assumption.
    apply pixel_count_pos_item in Hpos. destruct Hpos as [t [f [Ht [Hf E]]]].
    specialize (Hvalid t f Ht Hf). lia.
  - induction (kept_classes _); simpl; constructor; [apply ibm_of_mask|assumption].
Qed.

(** C10. The masks that [mixedIbmToIbms] returns are pairwise disjoint: no
    bin is 1 in two of them. *)
Theorem mixedIbmToIbms_disjoint (mixed_ibm : ndarray Z) :
  ForallOrdPairs disjoint_masks (fst (mixedIbmToIbms mixed_ibm)).
Proof.
  rewrite mixedIbmToIbms_kept. simpl.
  pose proof (kept_classes_sorted _ (unique_counts_sorted (flatten mixed_ibm))) as Hs.
  induction Hs as [|c cs Hs IH Hall]; simpl; constructor; [|exact IH].
  rewrite Forall_forall in *. intros b Hb.
  apply in_map_iff in Hb. destruct Hb as [c' [<- Hc']].
  specialize (Hall _ Hc'). intros t f [H1 H2]. simpl in H1, H2.
  destruct (Z.eqb_spec (item mixed_ibm t f) c); [|lra].
  destruct (Z.eqb_spec (item mixed_ibm t f) c'); [|lra]. lia.
Qed.

End MaskCodec.

Lemma mixedIbmToIbms_spec_witness :
  (forall t f, t < shape0 small_mixed_ibm -> f < shape1 small_mixed_ibm ->
     (item small_mixed_ibm t f <= Z.of_nat (@NUM_OF_DIRECTIONS small_parameters))%Z) /\
  exists classes : list Z,
    StronglySorted Z.lt classes /\
    (forall c, In c classes <->
       0 < pixel_count small_mixed_ibm c /\
       (@MIXED_IBM_IDENTIFICATION_TH small_parameters
          <= Z.of_nat (pixel_count small_mixed_ibm c))%Z /\
       c <> Z.of_nat (@NUM_OF_DIRECTIONS small_parameters)) /\
    Forall2 (mask_of_class small_mixed_ibm) classes
            (fst (@mixedIbmToIbms small_parameters small_mixed_ibm)) /\
    snd (@mixedIbmToIbms small_parameters small_mixed_ibm)
      = map (fun c => (c * 5 - 90)%Z) classes.
Proof.
  assert (Hvalid : forall t f, t < shape0 small_mixed_ibm -> f < shape1 small_mixed_ibm ->
     (item small_mixed_ibm t f <= Z.of_nat (@NUM_OF_DIRECTIONS small_parameters))%Z).
  { intros t f _ _. simpl. destruct (t =? 0); lia. }
  split; [exact Hvalid|].
  exact (@mixedIbmToIbms_spec small_parameters small_mixed_ibm Hvalid).
Defined.

(** ** Encoding per-channel arrays into a mixed class map *)

Lemma mixed_ibm_assign_row_argmax (dnn_target : list (ndarray R))
    (time_dim : nat) (mixed_ibm : ndarray Z) (freq_dim : nat) :
  mixed_ibm_assign dnn_target time_dim mixed_ibm freq_dim =
  (cls <- row_argmax dnn_target time_dim freq_dim ;;
   setitem2 mixed_ibm time_dim (Z.of_nat freq_dim) (Z.of_nat cls)).
Proof.
  unfold mixed_ibm_assign, row_argmax.
  destruct (list_getitem dnn_target freq_dim) as [tgt|]; simpl; [|reflexivity].
  destruct (getrow tgt time_dim) as [row|]; simpl; reflexivity.
Qed.

(** When every row has an [argmax], the encoder returns the map of these
    row classes. *)
Lemma dnnTargetToMixedIbm_ok (dnn_target : list (ndarray R)) (first : ndarray R) :
  nth_error dnn_target 0 = Some first ->
  (forall t f, t < shape0 first -> f < length dnn_target ->
     exists k, row_argmax dnn_target t f = Ok k) ->
  exists mixed_ibm,
    dnnTargetToMixedIbm dnn_target = Ok mixed_ibm /\
    shape0 mixed_ibm = shape0 first /\
    shape1 mixed_ibm = length dnn_target /\
    forall t f, t < shape0 first -> f < length dnn_target ->
      item mixed_ibm t f = class_of_row dnn_target t f.
Proof.
  intros Hfirst Hrows.
  unfold dnnTargetToMixedIbm, list_getitem. rewrite Hfirst. simpl.
  set (T := shape0 first). set (F := length dnn_target).
  set (Outer := fun (t : nat) (m : ndarray Z) =>
    shape0 m = T /\ shape1 m = F /\
    forall t' f', t' < t -> f' < F -> item m t' f' = class_of_row dnn_target t' f').
  destruct (foldM_seq_inv _
              (fun m time_dim =>
                 foldM (mixed_ibm_assign dnn_target time_dim) (seq 0 (shape1 m)) m)
              Outer T) with (a0 := {| shape0 := T; shape1 := F; item := fun _ _ => 0%Z |})
    as [m [Em [Hs0 [Hs1 Hitem]]]].
  - intros t m Ht [Hm0 [Hm1 Hm]]. rewrite Hm1.
    set (Inner := fun (f : nat) (m' : ndarray Z) =>
      shape0 m' = T /\ shape1 m' = F /\
      (forall t' f', t' < t -> f' < F ->
         item m' t' f' = class_of_row dnn_target t' f') /\
      (forall f', f' < f -> item m' t f' = class_of_row dnn_target t f')).
    destruct (foldM_seq_inv _ (mixed_ibm_assign dnn_target t) Inner F)
      with (a0 := m) as [m' [Em' [H0 [H1 [Hold Hrow]]]]].
    + intros f m' Hf [H0 [H1 [Hold Hrow]]].
      rewrite mixed_ibm_assign_row_argmax.
      destruct (Hrows t f Ht Hf) as [k Ek]. rewrite Ek. simpl.
      rewrite setitem2_in_range by lia.
      eexists. split; [reflexivity|]. unfold Inner. simpl.
      repeat split; try assumption.
      * intros t' f' Ht' Hf'. destruct (Nat.eqb_spec t' t); [lia|]. simpl.
        now apply Hold.
      * intros f' Hf'. rewrite Nat.eqb_refl. simpl.
        destruct (Nat.eqb_spec f' f) as [->|Hne].
        -- unfold class_of_row. now rewrite Ek.
        -- apply Hrow. lia.
    + unfold Inner. repeat split; try assumption. intros; lia.
    + exists m'. split; [assumption|]. unfold Outer. repeat split; try assumption.
      intros t' f' Ht' Hf'. destruct (Nat.eq_dec t' t) as [->|Hne].
      * now apply Hrow.
      * apply Hold; [lia|assumption].
  - unfold Outer. simpl. repeat split. intros; lia.
  - exists m. simpl. auto.
Qed.

Lemma one_hot_first_max (a : ndarray R) (t k : nat) :
  one_hot_at a t k -> first_max (map (item a t) (seq 0 (shape1 a))) k.
Proof.
  intros [Hk Hrow]. unfold first_max. rewrite length_map, length_seq.
  repeat split; [assumption| |].
  - intros j Hj. rewrite !nth_map_seq by assumption.
    rewrite (Hrow j Hj), (Hrow k Hk), Nat.eqb_refl. destruct (j =? k); lra.
  - intros j Hj. rewrite !nth_map_seq by lia.
    rewrite (Hrow j) by lia. rewrite (Hrow k Hk), Nat.eqb_refl.
    destruct (Nat.eqb_spec j k); [lia|lra].
Qed.

Lemma one_hot_unique (a : ndarray R) (t k c : nat) :
  one_hot_at a t k -> one_hot_at a t c -> k = c.
Proof.
  intros [Hk Hrow] [Hc Hrow'].
  pose proof (Hrow c Hc) as E. rewrite (Hrow' c Hc), Nat.eqb_refl in E.
  destruct (Nat.eqb_spec c k); [auto|lra].
Qed.

Lemma row_argmax_one_hot (dnn_target : list (ndarray R)) (tgt : ndarray R)
    (t f k : nat) :
  nth_error dnn_target f = Some tgt -> t < shape0 tgt -> one_hot_at tgt t k ->
  row_argmax dnn_target t f = Ok k.
Proof.
  intros Hf Ht Hk. unfold row_argmax, list_getitem, getrow. rewrite Hf. simpl.
  apply Nat.ltb_lt in Ht. rewrite Ht. simpl.
  now apply argmax_first_max, one_hot_first_max.
Qed.

Lemma count_occ_flat_map (A : Type) (g : A -> list Z) (l : list A) (v : Z) :
  count_occ Z.eq_dec (flat_map g l) v =
  list_sum (map (fun a => count_occ Z.eq_dec (g a) v) l).
Proof.
  induction l as [|a l IH]; simpl; [reflexivity|].
  now rewrite count_occ_app, IH.
Qed.

(** Counting a value among the entries read by index is counting the
    elements of the list that the entries are read from. *)
Lemma count_occ_seq_filter (A : Type) (l : list A) (h : nat -> Z) (p : A -> bool)
    (v : Z) :
  (forall f a, nth_error l f = Some a -> (h f = v <-> p a = true)) ->
  count_occ Z.eq_dec (map h (seq 0 (length l))) v = length (filter p l).
Proof.
  revert h. induction l as [|a l IH]; intros h Hh; [reflexivity|].
  cbn [length seq]. rewrite <- seq_shift. cbn [map]. rewrite map_map.
  cbn [filter count_occ].
  specialize (IH (fun f => h (S f)) (fun f b Hf => Hh (S f) b Hf)).
  pose proof (Hh 0 a eq_refl) as H0.
  destruct (Z.eq_dec (h 0) v) as [E|N]; destruct (p a) eqn:Ep.
  - cbn [length]. now rewrite IH.
  - apply H0 in E. congruence.
  - exfalso. apply N. now apply H0.
  - exact IH.
Qed.

Lemma labelled_class_one_hot (tgt : ndarray R) (t k c : nat) :
  one_hot_at tgt t k -> (labelled_class tgt t c = true <-> c = k).
Proof.
  intros [Hk Hrow]. unfold labelled_class. split.
  - intros H. apply andb_true_iff in H. destruct H as [Hc H].
    apply Nat.ltb_lt in Hc. rewrite (Hrow c Hc) in H.
    destruct (Nat.eqb_spec c k); [assumption|].
    destruct (Req_dec_T 0 1); [lra|discriminate].
  - intros ->. apply andb_true_iff. split; [now apply Nat.ltb_lt|].
    rewrite (Hrow k Hk), Nat.eqb_refl.
    destruct (Req_dec_T 1 1); [reflexivity|congruence].
Qed.

(** The encoded map of one-hot targets holds every class in as many bins as
    the targets label with it. *)
Lemma pixel_count_label_count (dnn_target : list (ndarray R)) (T : nat)
    (mixed_ibm : ndarray Z) (c : nat) :
  Forall (fun a => shape0 a = T /\ forall t, t < T -> exists k, one_hot_at a t k)
         dnn_target ->
  shape0 mixed_ibm = T -> shape1 mixed_ibm = length dnn_target ->
  (forall t f, t < T -> f < length dnn_target ->
     item mixed_ibm t f = class_of_row dnn_target t f) ->
  pixel_count mixed_ibm (Z.of_nat c) = label_count dnn_target T c.
Proof.
  intros Hall H0 H1 Hitem. rewrite Forall_forall in Hall.
  unfold pixel_count, flatten, label_count.
  rewrite count_occ_flat_map, H0, H1. f_equal.
  apply map_ext_in. intros t Ht. apply in_seq in Ht.
  rewrite (map_ext_in (item mixed_ibm t) (class_of_row dnn_target t))
    by (intros f Hf; apply in_seq in Hf; apply Hitem; lia).
  apply count_occ_seq_filter. intros f tgt Hf.
  destruct (Hall tgt (nth_error_In _ _ Hf)) as [Hs Hrow].
  destruct (Hrow t) as [k Hk]; [lia|].
  unfold class_of_row.
  rewrite (row_argmax_one_hot dnn_target tgt t f k Hf) by (auto; lia).
  rewrite (labelled_class_one_hot tgt t k c Hk). split.
  - intros E. apply Nat2Z.inj in E. congruence.
  - intros ->. reflexivity.
Qed.

Section RoundTrip.
Context {P : parameters}.

(** C1. For a valid family of one-hot target arrays, the encoder returns a
    mixed class map in which every class has as many bins as the targets
    label with it, and for every class that survives decoding (some bin is
    labelled with it, the number of bins labelled with it is at least the
    minimum support, and its index is below the noise class) the decoder
    returns a mask whose 1-bins are exactly the (time, frequency) bins
    whose one-hot row has its 1 at that class. *)
Theorem decode_encode_roundtrip (dnn_target : list (ndarray R)) (T : nat) :
  valid_targets dnn_target T ->
  exists mixed_ibm,
    dnnTargetToMixedIbm dnn_target = Ok mixed_ibm /\
    (forall c : nat,
       pixel_count mixed_ibm (Z.of_nat c) = label_count dnn_target T c) /\
    forall c : nat,
      0 < label_count dnn_target T c ->
      (MIXED_IBM_IDENTIFICATION_TH <= Z.of_nat (label_count dnn_target T c))%Z ->
      c < NUM_OF_DIRECTIONS ->
      exists ibm,
        In ibm (fst (mixedIbmToIbms mixed_ibm)) /\
        shape0 ibm = T /\ shape1 ibm = length dnn_target /\
        forall t f tgt, t < T -> nth_error dnn_target f = Some tgt ->
          (item ibm t f = 1%R <-> one_hot_at tgt t c).
Proof.
  intros [Hne Hall].
  destruct dnn_target as [|first rest] eqn:Edt; [congruence|]. rewrite <- Edt in *.
  assert (Hfirst : nth_error dnn_target 0 = Some first) by (now rewrite Edt).
  pose proof Hall as Hall'. rewrite Forall_forall in Hall.
  assert (Hget : forall f tgt, nth_error dnn_target f = Some tgt ->
            shape0 tgt = T /\ forall t, t < T -> exists k, one_hot_at tgt t k).
  { intros f tgt Hf. apply Hall. eapply nth_error_In; eauto. }
  destruct (Hget 0 first Hfirst) as [HT _].
  destruct (dnnTargetToMixedIbm_ok dnn_target first Hfirst) as [m [Em [H0 [H1 Hitem]]]].
  { intros t f Ht Hf.
    destruct (nth_error dnn_target f) as [tgt|] eqn:Ef;
      [|apply nth_error_None in Ef; lia].
    destruct (Hget f tgt Ef) as [Hs Hrow].
    destruct (Hrow t) as [k Hk]; [lia|].
    exists k. apply (row_argmax_one_hot dnn_target tgt); auto. lia. }
  assert (Hcount : forall c : nat,
            pixel_count m (Z.of_nat c) = label_count dnn_target T c).
  { intros c. apply pixel_count_label_count; [exact Hall'|lia|exact H1|].
    intros t f Ht Hf. apply Hitem; lia. }
  exists m. split; [assumption|]. split; [exact Hcount|].
  intros c Hpos Hth Hc. rewrite <- Hcount in Hpos, Hth.
  exists (ibm_of m (Z.of_nat c)). rewrite mixedIbmToIbms_kept. simpl.
  split; [|split; [|split]].
  - apply in_map, kept_classes_In. repeat split; [assumption|assumption|lia].
  - lia.
  - assumption.
  - intros t f tgt Ht Hf.
    assert (Hlt : f < length dnn_target) by (apply nth_error_Some; congruence).
    rewrite Hitem by lia.
    destruct (Hget f tgt Hf) as [Hs Hrow]. destruct (Hrow t Ht) as [k Hk].
    unfold class_of_row.
    rewrite (row_argmax_one_hot dnn_target tgt t f k Hf) by (auto; lia).
    destruct (Z.eqb_spec (Z.of_nat k) (Z.of_nat c)) as [E|N].
    + apply Nat2Z.inj in E. subst k. tauto.
    + split; [lra|]. intros Hc'.
      exfalso. apply N. f_equal. eapply one_hot_unique; eauto.
Qed.

(** C2 (the code fails where the claim asks for a result). Whenever the
    decoded list of recovered angles is empty, [estimateNetsPerformance]
    raises [ZeroDivisionError]: the division by [len(angles)] of the
    false-alarm metric (or, for an entry without sources, the earlier one by
    [len(self.angles)]) has no guard. *)
Theorem estimateNetsPerformance_no_angles (self_angles : list Z)
    (net_output : list (ndarray R)) (mixed_ibm : ndarray Z) :
  dnnTargetToMixedIbm net_output = Ok mixed_ibm ->
  snd (mixedIbmToIbms mixed_ibm) = [] ->
  estimateNetsPerformance self_angles net_output = Raise ZeroDivisionError.
Proof.
  intros Em Hangles. unfold estimateNetsPerformance. rewrite Em. simpl.
  destruct (mixedIbmToIbms mixed_ibm) as [ibms angles]. simpl in Hangles. subst angles.
  unfold len_div. destruct (length self_angles =? 0); reflexivity.
Qed.

End RoundTrip.

Lemma small_targets_valid : valid_targets small_targets 2.
Proof.
  split; [discriminate|].
  assert (H : shape0 small_target = 2 /\
              forall t, t < 2 -> exists k, one_hot_at small_target t k).
  { split; [reflexivity|]. intros t _.
    exists (if t =? 0 then 3 else 37). split.
    - simpl. destruct (t =? 0); lia.
    - intros c _. reflexivity. }
  repeat constructor; apply H.
Qed.

(** Both channels of the small targets label the first frame with class 3:
    two bins, as many as the minimum support of the small configuration. *)
Lemma small_targets_label_count : label_count small_targets 2 3 = 2.
Proof.
  unfold label_count, labelled_class. simpl.
  destruct (Req_dec_T 1 1) as [_|N]; [|congruence].
  destruct (Req_dec_T 0 1) as [E|_]; [lra|]. reflexivity.
Qed.

Lemma decode_encode_roundtrip_witness :
  valid_targets small_targets 2 /\
  label_count small_targets 2 3 = 2 /\
  exists mixed_ibm,
    dnnTargetToMixedIbm small_targets = Ok mixed_ibm /\
    (forall c : nat,
       pixel_count mixed_ibm (Z.of_nat c) = label_count small_targets 2 c) /\
    forall c : nat,
      0 < label_count small_targets 2 c ->
      (2 <= Z.of_nat (label_count small_targets 2 c))%Z ->
      c < 37 ->
      exists ibm,
        In ibm (fst (@mixedIbmToIbms small_parameters mixed_ibm)) /\
        shape0 ibm = 2 /\ shape1 ibm = 2 /\
        forall t f tgt, t < 2 -> nth_error small_targets f = Some tgt ->
          (item ibm t f = 1%R <-> one_hot_at tgt t c).
Proof.
  split; [exact small_targets_valid|]. split; [exact small_targets_label_count|].
  exact (@decode_encode_roundtrip small_parameters small_targets 2 small_targets_valid).
Defined.

Lemma noise_only_output_encoded :
  exists mixed_ibm,
    dnnTargetToMixedIbm noise_only_output = Ok mixed_ibm /\
    snd (@mixedIbmToIbms small_parameters mixed_ibm) = [].
Proof.
  destruct (dnnTargetToMixedIbm_ok noise_only_output
              (hd small_target noise_only_output) eq_refl)
    as [m [Em [H0 [H1 Hitem]]]].
  { intros t f Ht Hf. exists 37. simpl in Ht, Hf.
    destruct f as [|f]; [|lia].
    eapply row_argmax_one_hot; [reflexivity|exact Ht|].
    split; [simpl; lia|]. intros c _. reflexivity. }
  exists m. split; [assumption|].
  rewrite mixedIbmToIbms_kept. simpl.
  destruct (kept_classes _) as [|c cs] eqn:Ek; [reflexivity|exfalso].
  assert (Hin : In c (@kept_classes small_parameters (unique_counts (flatten m))))
    by (rewrite Ek; now left).
  apply kept_classes_In in Hin. destruct Hin as [Hpos [_ Hc]].
  apply pixel_count_pos_item in Hpos. destruct Hpos as [t [f [Ht [Hf E]]]].
  simpl in H0, H1.
  assert (Ht1 : t < 1) by lia. assert (Hf1 : f < 1) by lia.
  rewrite (Hitem t f Ht1 Hf1) in E.
  unfold class_of_row in E.
  rewrite (row_argmax_one_hot noise_only_output (hd small_target noise_only_output) t f 37)
    in E.
  - simpl in Hc. lia.
  - destruct f as [|f]; [reflexivity|lia].
  - simpl. lia.
  - split; [simpl; lia|]. intros c' _. reflexivity.
Qed.

Lemma estimateNetsPerformance_no_angles_witness :
  exists mixed_ibm,
    dnnTargetToMixedIbm noise_only_output = Ok mixed_ibm /\
    snd (@mixedIbmToIbms small_parameters mixed_ibm) = [] /\
    @estimateNetsPerformance small_parameters [0%Z] noise_only_output
      = Raise ZeroDivisionError.
Proof.
  destruct noise_only_output_encoded as [m [Em Hangles]].
  exists m. split; [exact Em|]. split; [exact Hangles|].
  exact (@estimateNetsPerformance_no_angles small_parameters [0%Z]
           noise_only_output m Em Hangles).
Defined.

(** ** Signal power *)

Lemma sqrt_16 : sqrt 16 = 4%R.
Proof.
  replace 16%R with (4 * 4)%R by lra. apply sqrt_square. lra.
Qed.

(** C3 (the code misses the reference level). On the signal [2, 2, 2, 2],
    whose root-mean-square value is 2, [getArrayRms] returns 1, and the
    normalised signal has the root-mean-square value
    [2 * |INPUT_SIGNAL_RMS|], not [INPUT_SIGNAL_RMS]. *)
Theorem getArrayRms_not_rms {P : parameters} :
  getArrayRms small_signal = 1%R /\
  rms_spec small_signal = 2%R /\
  rms_spec (normalize_signal small_signal) = (2 * Rabs INPUT_SIGNAL_RMS)%R.
Proof.
  assert (Hrms : getArrayRms small_signal = 1%R).
  { unfold getArrayRms, linalg_norm, small_signal. simpl.
    replace (2 * 2 + (2 * 2 + (2 * 2 + (2 * 2 + 0))))%R with 16%R by lra.
    rewrite sqrt_16.
    replace (4 / (1 + 1 + 1 + 1))%R with 1%R by lra. apply sqrt_1. }
  split; [exact Hrms|]. split.
  - unfold rms_spec, small_signal. simpl.
    replace ((2 * 2 + (2 * 2 + (2 * 2 + (2 * 2 + 0)))) / (1 + 1 + 1 + 1))%R
      with (2 * 2)%R by lra.
    apply sqrt_square. lra.
  - unfold normalize_signal. rewrite Hrms. unfold rms_spec, small_signal. simpl.
    set (r := INPUT_SIGNAL_RMS).
    replace ((2 / 1 * r * (2 / 1 * r) + (2 / 1 * r * (2 / 1 * r) +
              (2 / 1 * r * (2 / 1 * r) + (2 / 1 * r * (2 / 1 * r) + 0))))
             / (1 + 1 + 1 + 1))%R
      with (Rsqr (2 * r)) by (unfold Rsqr; lra).
    rewrite sqrt_Rsqr_abs, Rabs_mult. f_equal. apply Rabs_right. lra.
Qed.

(** ** Nearest stored azimuth *)

Lemma nth_map_abs_diff (array : list R) (val : R) (j : nat) :
  j < length array ->
  nth j (map (fun a => Rabs (a - val)) array) 0%R = Rabs (nth j array 0%R - val).
Proof.
  intros Hj.
  rewrite (nth_indep _ 0%R (Rabs (0 - val))) by (now rewrite length_map).
  apply (map_nth (fun a => Rabs (a - val))).
Qed.

(** C6. On a non-empty array, [find_closest_idx_in_array] returns an index
    whose entry has minimal absolute difference to the query, the first such
    index in storage order; when the query equals a stored entry, it returns
    the first occurrence of that entry. *)
Theorem find_closest_idx_in_array_spec (array : list R) (val : R) :
  array <> [] ->
  exists i,
    find_closest_idx_in_array array val = Ok i /\
    i < length array /\
    (forall j, j < length array ->
       (Rabs (nth i array 0 - val) <= Rabs (nth j array 0 - val))%R) /\
    (forall j, j < i ->
       (Rabs (nth i array 0 - val) < Rabs (nth j array 0 - val))%R) /\
    (In val array ->
       nth i array 0%R = val /\ forall j, j < i -> nth j array 0%R <> val).
Proof.
  intros Hne. unfold find_closest_idx_in_array.
  destruct (argmin_spec (map (fun a => Rabs (a - val)) array)) as [i [E [Hi [Hle Hf]]]].
  { destruct array; [congruence|discriminate]. }
  rewrite length_map in Hi, Hle.
  assert (Hmin : forall j, j < length array ->
            (Rabs (nth i array 0 - val) <= Rabs (nth j array 0 - val))%R).
  { intros j Hj. specialize (Hle j Hj). now rewrite !nth_map_abs_diff in Hle. }
  assert (Hfirst : forall j, j < i ->
            (Rabs (nth i array 0 - val) < Rabs (nth j array 0 - val))%R).
  { intros j Hj. specialize (Hf j Hj). rewrite !nth_map_abs_diff in Hf by lia. exact Hf. }
  exists i. repeat split; try assumption.
  - destruct (In_nth _ _ 0%R H) as [j [Hj Ej]].
    specialize (Hmin j Hj). rewrite Ej in Hmin.
    replace (val - val)%R with 0%R in Hmin by lra. rewrite Rabs_R0 in Hmin.
    pose proof (Rabs_pos (nth i array 0%R - val)) as Hpos.
    assert (Hz : Rabs (nth i array 0%R - val) = 0%R) by lra.
    destruct (Req_dec (nth i array 0%R - val) 0%R) as [E0|N0]; [lra|].
    apply Rabs_no_R0 in N0. contradiction.
  - intros j Hj Ej. specialize (Hfirst j Hj).
    destruct (In_nth _ _ 0%R H) as [k [Hk Ek]].
    specialize (Hmin k Hk). rewrite Ek in Hmin. rewrite Ej in Hfirst.
    replace (val - val)%R with 0%R in Hmin, Hfirst by lra.
    rewrite Rabs_R0 in Hmin, Hfirst.
    pose proof (Rabs_pos (nth i array 0%R - val)) as Hpos. lra.
Qed.

Lemma find_closest_idx_in_array_spec_witness :
  small_azimuths <> [] /\
  exists i,
    find_closest_idx_in_array small_azimuths 270 = Ok i /\
    i < length small_azimuths /\
    (forall j, j < length small_azimuths ->
       (Rabs (nth i small_azimuths 0 - 270) <= Rabs (nth j small_azimuths 0 - 270))%R) /\
    (forall j, j < i ->
       (Rabs (nth i small_azimuths 0 - 270) < Rabs (nth j small_azimuths 0 - 270))%R) /\
    (In 270%R small_azimuths ->
       nth i small_azimuths 0%R = 270%R /\
       forall j, j < i -> nth j small_azimuths 0%R <> 270%R).
Proof.
  assert (Hne : small_azimuths <> []) by discriminate.
  split; [exact Hne|].
  exact (find_closest_idx_in_array_spec small_azimuths 270 Hne).
Defined.

(** ** The angle allocator *)

Lemma angles_list_on_grid (a : Z) : In a angles_list -> on_grid a.
Proof.
  unfold angles_list, py_range, MIN_ANGLE, MAX_ANGLE, STEP.
  change (Z.to_nat ((90 + 5 - -90 + 5 - 1) / 5)) with 37.
  intros Hin. apply in_map_iff in Hin. destruct Hin as [k [<- Hk]].
  apply in_seq in Hk. split; [lia|].
  replace (-90 + Z.of_nat k * 5)%Z with ((Z.of_nat k - 18) * 5)%Z by lia.
  apply Z_mod_mult.
Qed.

Lemma Z_in_spec (a : Z) (l : list Z) : Z_in a l = true <-> In a l.
Proof.
  unfold Z_in. rewrite existsb_exists. split.
  - intros [x [Hx E]]. apply Z.eqb_eq in E. now subst.
  - intros H. exists a. split; [assumption|apply Z.eqb_refl].
Qed.

Lemma random_choice_In (A : Type) (r : nat) (l : list A) (a : A) :
  random_choice r l = Ok a -> In a l.
Proof.
  unfold random_choice, list_getitem. destruct l as [|x l]; [discriminate|].
  destruct (nth_error (x :: l) (r mod length (x :: l))) eqn:E; [|discriminate].
  intros H. inversion H; subst. eapply nth_error_In; eauto.
Qed.

Lemma random_choice_returns (A : Type) (r : nat) (l : list A) :
  l <> [] -> exists a, random_choice r l = Ok a.
Proof.
  destruct l as [|x l]; [congruence|]. intros _.
  unfold random_choice, list_getitem.
  destruct (nth_error (x :: l) (r mod length (x :: l))) eqn:E; [eauto|].
  apply nth_error_None in E.
  pose proof (Nat.mod_upper_bound r (length (x :: l))) as Hb.
  simpl in *. lia.
Qed.

(** An angle that the allocator returns is on the grid and not forbidden. *)
Lemma getRandomAngle_sound (r : nat) (forbidden_angles : list Z) (a : Z) :
  getRandomAngle r forbidden_angles = Ok a ->
  on_grid a /\ ~ In a forbidden_angles.
Proof.
  unfold getRandomAngle. intros H. apply random_choice_In in H.
  apply filter_In in H. destruct H as [Hin Hf]. split.
  - now apply angles_list_on_grid.
  - apply negb_true_iff in Hf. intros Hc. apply Z_in_spec in Hc. congruence.
Qed.

Lemma angles_list_NoDup : NoDup angles_list.
Proof.
  unfold angles_list, py_range, MIN_ANGLE, MAX_ANGLE, STEP.
  apply Injective_map_NoDup; [|apply seq_NoDup].
  intros x y H. lia.
Qed.

(** The allocator returns an angle as long as fewer than 37 are forbidden. *)
Lemma getRandomAngle_returns (r : nat) (forbidden_angles : list Z) :
  length forbidden_angles < 37 ->
  exists a, getRandomAngle r forbidden_angles = Ok a.
Proof.
  intros Hlen. unfold getRandomAngle. apply random_choice_returns.
  intros Hnil.
  assert (Hincl : incl angles_list forbidden_angles).
  { intros a Ha. destruct (Z_in a forbidden_angles) eqn:E; [now apply Z_in_spec|].
    assert (Hin : In a (filter (fun angle => negb (Z_in angle forbidden_angles))
                               angles_list))
      by (apply filter_In; split; [assumption|now rewrite E]).
    rewrite Hnil in Hin. contradiction. }
  pose proof (NoDup_incl_length angles_list_NoDup Hincl) as Hle.
  change (length angles_list) with 37 in Hle. lia.
Qed.

Lemma NoDup_snoc (A : Type) (l : list A) (a : A) :
  NoDup l -> ~ In a l -> NoDup (l ++ [a]).
Proof.
  intros Hl Ha. apply NoDup_rev in Hl. rewrite <- (rev_involutive (l ++ [a])).
  apply NoDup_rev. rewrite rev_app_distr. simpl. constructor; [|assumption].
  now rewrite <- in_rev.
Qed.

(** C9. In every sequence of allocator calls for one mixture, each call
    receiving the previously allocated angles, all returned angles lie on
    the grid -90, -85, ..., 90 and are pairwise different. *)
Theorem allocation_distinct_on_grid (self_angles : list Z) :
  allocation self_angles -> Forall on_grid self_angles /\ NoDup self_angles.
Proof.
  induction 1 as [|angles r a Halloc [IHgrid IHnodup] Hcall].
  - split; constructor.
  - apply getRandomAngle_sound in Hcall. destruct Hcall as [Hgrid Hfresh]. split.
    + apply Forall_app. split; [assumption|]. now constructor.
    + now apply NoDup_snoc.
Qed.

Lemma allocation_distinct_on_grid_witness :
  allocation [(-90)%Z; (-85)%Z] /\
  Forall on_grid [(-90)%Z; (-85)%Z] /\ NoDup [(-90)%Z; (-85)%Z].
Proof.
  assert (H : allocation [(-90)%Z; (-85)%Z]).
  { apply (@alloc_next [(-90)%Z] 0 (-85)%Z); [|reflexivity].
    apply (@alloc_next [] 0 (-90)%Z); [constructor|reflexivity]. }
  split; [exact H|].
  exact (allocation_distinct_on_grid [(-90)%Z; (-85)%Z] H).
Defined.

(** ** The label synthesizer *)

Lemma nth_error_list_setitem (A : Type) (l : list A) (i j : nat) (v : A) :
  i < length l ->
  nth_error (list_setitem l i v) j = if j =? i then Some v else nth_error l j.
Proof.
  revert i j. induction l as [|x l IH]; intros i j Hi; simpl in *; [lia|].
  destruct i as [|i]; destruct j as [|j]; simpl; try reflexivity.
  apply IH. lia.
Qed.

Lemma length_list_setitem (A : Type) (l : list A) (i : nat) (v : A) :
  length (list_setitem l i v) = length l.
Proof.
  revert i. induction l as [|x l IH]; intros [|i]; simpl; auto.
Qed.

Lemma mapM_getitem2 (sgrams : list (ndarray R)) (T F t f : nat) :
  Forall (fun sgram => shape0 sgram = T /\ shape1 sgram = F) sgrams ->
  t < T -> f < F ->
  mapM (fun sgram => getitem2 sgram t f) sgrams = Ok (bin_vals sgrams t f).
Proof.
  intros Hall Ht Hf. induction Hall as [|s l [H0 H1] Hall IH]; simpl; [reflexivity|].
  rewrite IH. unfold getitem2. rewrite H0, H1.
  apply Nat.ltb_lt in Ht, Hf. now rewrite Ht, Hf.
Qed.

Lemma norm_index_last (n : nat) : norm_index (n + 1) (-1) = Ok n.
Proof.
  unfold norm_index.
  destruct (Z.leb_spec 0 (-1)) as [Hc|_]; [lia|]. cbn [andb].
  destruct (Z.leb_spec (- Z.of_nat (n + 1)) (-1)) as [_|Hc]; [|lia].
  destruct (Z.ltb_spec (-1) 0) as [_|Hc]; [|lia]. cbn [andb].
  f_equal. lia.
Qed.

Lemma setitem2_last (a : ndarray R) (n i : nat) (v : R) :
  i < shape0 a -> shape1 a = n + 1 ->
  setitem2 a i (-1) v =
  Ok {| shape0 := shape0 a; shape1 := shape1 a;
        item := fun i' j' => if (i' =? i) && (j' =? n) then v else item a i' j' |}.
Proof.
  intros Hi Hn. unfold setitem2. apply Nat.ltb_lt in Hi. rewrite Hi, Hn.
  now rewrite norm_index_last.
Qed.

Section LabelFacts.
Context {P : parameters}.
Variables (sgrams : list (ndarray R)) (noise_sgram : ndarray R) (self_angles : list Z).
Variables (T F : nat).
Hypothesis Hvalid : valid_sgrams sgrams noise_sgram T F.
Hypothesis Hlen : length self_angles = length sgrams.
Hypothesis Hdir : direction_angles self_angles.

Lemma bin_vals_nonempty (t f : nat) : bin_vals sgrams t f <> [].
Proof.
  pose proof Hvalid as [Hne _]. unfold bin_vals. clear Hvalid Hlen.
  destruct sgrams; [congruence|discriminate].
Qed.

Lemma bin_column_bound (t f : nat) :
  bin_column sgrams noise_sgram self_angles t f < NUM_OF_DIRECTIONS + 1.
Proof.
  unfold bin_column.
  destruct (argmax_spec _ (bin_vals_nonempty t f)) as [i [Ei [Ev [Hi _]]]].
  rewrite Ei, Ev. destruct (Rlt_dec _ _); [lia|].
  unfold bin_vals in Hi. rewrite length_map, <- Hlen in Hi.
  unfold direction_angles in Hdir. rewrite Forall_forall in Hdir.
  specialize (Hdir _ (nth_In self_angles 0%Z Hi)). lia.
Qed.

(** One execution of the loop body labels the bin [(t, f)]. *)
Lemma label_bin_step (f t : nat) (targets : list (ndarray R)) (target : ndarray R) :
  t < T -> f < F ->
  nth_error targets f = Some target ->
  shape0 target = T -> shape1 target = NUM_OF_DIRECTIONS + 1 ->
  label_bin sgrams noise_sgram self_angles f targets t =
  Ok (list_setitem targets f
        {| shape0 := shape0 target; shape1 := shape1 target;
           item := fun i' j' =>
             if (i' =? t) && (j' =? bin_column sgrams noise_sgram self_angles t f)
             then 1%R else item target i' j' |}).
Proof.
  intros Ht Hf Htgt Hs0 Hs1.
  destruct Hvalid as [Hne [Hshapes [Hn0 Hn1]]].
  unfold label_bin. rewrite (mapM_getitem2 sgrams T F t f Hshapes Ht Hf). simpl.
  unfold bin_column.
  destruct (argmax_spec _ (bin_vals_nonempty t f)) as [i [Ei [Ev [Hi _]]]].
  rewrite Ei, Ev. simpl.
  unfold bin_vals in Hi. rewrite length_map, <- Hlen in Hi.
  unfold list_getitem at 1.
  destruct (nth_error self_angles i) as [a|] eqn:Ea;
    [|apply nth_error_None in Ea; lia].
  simpl. rewrite (nth_error_nth _ _ 0%Z Ea).
  unfold getitem2. rewrite Hn0, Hn1.
  pose proof Ht as Ht'. pose proof Hf as Hf'.
  apply Nat.ltb_lt in Ht', Hf'. rewrite Ht', Hf'. simpl.
  unfold list_getitem. rewrite Htgt. simpl.
  unfold noise_threshold.
  destruct (Rlt_dec _ _).
  - rewrite (setitem2_last target NUM_OF_DIRECTIONS) by (auto; lia). reflexivity.
  - unfold direction_angles in Hdir. rewrite Forall_forall in Hdir.
    specialize (Hdir _ (nth_error_In _ _ Ea)).
    rewrite <- (Z2Nat.id (getAngleIdx a)) at 1 by lia.
    rewrite setitem2_in_range by lia. reflexivity.
Qed.

Lemma labelled_ext (done1 done2 : nat -> nat -> bool) (targets : list (ndarray R)) :
  (forall f t, f < F -> t < T -> done1 f t = done2 f t) ->
  labelled (bin_column sgrams noise_sgram self_angles) T F done1 targets ->
  labelled (bin_column sgrams noise_sgram self_angles) T F done2 targets.
Proof.
  intros Hext [Hl Hf]. split; [assumption|].
  intros f Hlt. destruct (Hf f Hlt) as [tgt [E [H0 [H1 Hitem]]]].
  exists tgt. repeat split; try assumption.
  intros t c Ht Hc. rewrite <- Hext by assumption. now apply Hitem.
Qed.

Lemma label_bin_labelled (f t : nat) (targets : list (ndarray R)) :
  t < T -> f < F ->
  labelled (bin_column sgrams noise_sgram self_angles) T F (bins_done f t) targets ->
  exists targets',
    label_bin sgrams noise_sgram self_angles f targets t = Ok targets' /\
    labelled (bin_column sgrams noise_sgram self_angles) T F (bins_done f (S t)) targets'.
Proof.
  intros Ht Hf [Hl Hall].
  destruct (Hall f Hf) as [tgt [E [H0 [H1 Hitem]]]].
  rewrite (label_bin_step f t targets tgt Ht Hf E H0 H1).
  eexists. split; [reflexivity|]. split; [now rewrite length_list_setitem|].
  intros f' Hf'. rewrite nth_error_list_setitem by lia.
  destruct (Nat.eqb_spec f' f) as [->|Hne].
  - eexists. split; [reflexivity|]. simpl. repeat split; try assumption.
    intros t' c Ht' Hc. unfold bins_done in *.
    rewrite Nat.ltb_irrefl, Nat.eqb_refl in *. simpl in *.
    destruct (Nat.eqb_spec t' t) as [->|Hnt]; simpl.
    + replace (t <? S t) with true by (symmetry; apply Nat.ltb_lt; lia). simpl.
      destruct (c =? _) eqn:Ec; [reflexivity|].
      rewrite Hitem by assumption. now rewrite Nat.ltb_irrefl.
    + rewrite Hitem by assumption.
      replace (t' <? S t) with (t' <? t); [reflexivity|].
      destruct (Nat.ltb_spec t' t), (Nat.ltb_spec t' (S t)); auto; lia.
  - destruct (Hall f' Hf') as [tgt' [E' [H0' [H1' Hitem']]]].
    exists tgt'. repeat split; try assumption.
    intros t' c Ht' Hc. rewrite Hitem' by assumption. unfold bins_done.
    destruct (Nat.eqb_spec f' f); [congruence|]. reflexivity.
Qed.

(** The two loops return, with every bin labelled by its column. *)
Lemma targets_of_sgrams_labelled :
  exists targets,
    targets_of_sgrams sgrams noise_sgram self_angles = Ok targets /\
    labelled (bin_column sgrams noise_sgram self_angles) T F (fun _ _ => true) targets.
Proof.
  assert (Hex : exists sgram0, list_getitem sgrams 0 = Ok sgram0 /\
                  shape0 sgram0 = T /\ shape1 sgram0 = F).
  { pose proof Hvalid as [Hne [Hshapes _]]. clear Hlen Hdir.
    destruct sgrams as [|sgram0 rest]; [congruence|].
    exists sgram0. inversion Hshapes; subst. tauto. }
  destruct Hex as [sgram0 [Hg [HT HF]]].
  unfold targets_of_sgrams. rewrite Hg. cbn [bind]. rewrite HT, HF.
  set (col := bin_column sgrams noise_sgram self_angles).
  destruct (foldM_seq_inv _
              (fun targets out_ind =>
                 foldM (label_bin sgrams noise_sgram self_angles out_ind)
                       (seq 0 T) targets)
              (fun f tg => labelled col T F (bins_done f 0) tg) F)
    with (a0 := map (fun _ : nat => zeros T (NUM_OF_DIRECTIONS + 1)) (seq 0 F))
    as [tg [E Hlab]].
  - intros f tg Hf Hinv.
    destruct (foldM_seq_inv _ (label_bin sgrams noise_sgram self_angles f)
                (fun t tg' => labelled col T F (bins_done f t) tg') T)
      with (a0 := tg) as [tg' [E' Hlab']].
    + intros t tg' Ht Hinv'. now apply label_bin_labelled.
    + assumption.
    + exists tg'. split; [assumption|].
      apply (labelled_ext (bins_done f T)); [|assumption].
      intros f' t' Hf' Ht'. unfold bins_done.
      replace (t' <? T) with true by (symmetry; apply Nat.ltb_lt; lia).
      replace (t' <? 0) with false by (symmetry; apply Nat.ltb_ge; lia).
      rewrite !andb_false_r, andb_true_r, orb_false_r.
      destruct (Nat.ltb_spec f' f), (Nat.eqb_spec f' f), (Nat.ltb_spec f' (S f));
        simpl; auto; lia.
  - split; [now rewrite length_map, length_seq|].
    intros f Hf. exists (zeros T (NUM_OF_DIRECTIONS + 1)). repeat split.
    + rewrite nth_error_map, nth_error_seq.
      apply Nat.ltb_lt in Hf. now rewrite Hf.
    + intros t c _ _. unfold bins_done. simpl.
      replace (f <? 0) with false by (symmetry; apply Nat.ltb_ge; lia).
      now rewrite andb_false_r.
  - exists tg. split; [assumption|].
    apply (labelled_ext (bins_done F 0)); [|assumption].
    intros f t Hf Ht. unfold bins_done.
    apply Nat.ltb_lt in Hf. now rewrite Hf.
Qed.

End LabelFacts.

Section LabelSynthesizerSpec.
Context {P : parameters}.

(** C7. For spectrograms of one shape and source angles whose class index
    [(angle + 90) / 5] is a direction class (at least 0 and below
    [NUM_OF_DIRECTIONS]), the label synthesizer returns one target array
    per frequency channel, and at every bin [(t, f)], with [max_ind] the
    first source attaining the maximum magnitude: the row is the one-hot
    row of the noise class exactly when that maximum is strictly below
    [noise_sgram[t, f] * 10**(SGRAM_NOISE_TH_dB/10)]; otherwise it is the
    one-hot row of the class index [(angle + 90) / 5], with the step 5 of
    the grid, of the angle of source [max_ind]. *)
Theorem targets_of_sgrams_labels (sgrams : list (ndarray R)) (noise_sgram : ndarray R)
    (self_angles : list Z) (T F : nat) :
  valid_sgrams sgrams noise_sgram T F ->
  length self_angles = length sgrams ->
  Forall (fun angle => (0 <= (angle + 90) / 5 < Z.of_nat NUM_OF_DIRECTIONS)%Z)
         self_angles ->
  exists targets,
    targets_of_sgrams sgrams noise_sgram self_angles = Ok targets /\
    length targets = F /\
    forall t f, t < T -> f < F ->
      exists target max_ind max_angle,
        nth_error targets f = Some target /\
        first_max (bin_vals sgrams t f) max_ind /\
        nth_error self_angles max_ind = Some max_angle /\
        (one_hot_at target t NUM_OF_DIRECTIONS <->
         (nth max_ind (bin_vals sgrams t f) 0 < noise_threshold noise_sgram t f)%R) /\
        (~ (nth max_ind (bin_vals sgrams t f) 0 < noise_threshold noise_sgram t f)%R ->
         one_hot_at target t (Z.to_nat ((max_angle + 90) / 5))).
Proof.
  intros Hvalid Hlen Hidx5.
  assert (Hquot : forall a, In a self_angles ->
            getAngleIdx a = ((a + 90) / 5)%Z /\
            (0 <= (a + 90) / 5 < Z.of_nat NUM_OF_DIRECTIONS)%Z).
  { intros a Ha. rewrite Forall_forall in Hidx5. specialize (Hidx5 a Ha).
    split; [|exact Hidx5]. unfold getAngleIdx. apply Z.quot_div_nonneg; [|lia].
    destruct (Z_lt_le_dec (a + 90) 0) as [Hneg|Hpos]; [|exact Hpos].
    assert (((a + 90) / 5 < 0)%Z) by (apply Z.div_lt_upper_bound; lia). lia. }
  assert (Hdir : direction_angles self_angles).
  { unfold direction_angles. apply Forall_forall. intros a Ha.
    destruct (Hquot a Ha) as [-> Hr]. exact Hr. }
  destruct (targets_of_sgrams_labelled sgrams noise_sgram self_angles T F
              Hvalid Hlen Hdir) as [targets [E [Hl Hall]]].
  exists targets. split; [assumption|]. split; [assumption|].
  intros t f Ht Hf.
  destruct (Hall f Hf) as [target [Etgt [H0 [H1 Hitem]]]].
  destruct (argmax_spec _ (bin_vals_nonempty sgrams noise_sgram T F Hvalid t f))
    as [i [Ei [Ev Hmax]]].
  assert (Hi : i < length self_angles).
  { destruct Hmax as [Hi _]. unfold bin_vals in Hi. now rewrite length_map, <- Hlen in Hi. }
  destruct (nth_error self_angles i) as [a|] eqn:Ea;
    [|apply nth_error_None in Ea; lia].
  destruct (Hquot a (nth_error_In _ _ Ea)) as [Hq Hidx].
  assert (Hrow : one_hot_at target t (bin_column sgrams noise_sgram self_angles t f)).
  { split.
    - rewrite H1. now apply (bin_column_bound sgrams noise_sgram self_angles T F).
    - intros c Hc. rewrite H1 in Hc. now rewrite (Hitem t c Ht Hc). }
  assert (Hcol : bin_column sgrams noise_sgram self_angles t f =
                 if Rlt_dec (nth i (bin_vals sgrams t f) 0%R)
                            (noise_threshold noise_sgram t f)
                 then NUM_OF_DIRECTIONS else Z.to_nat ((a + 90) / 5)).
  { unfold bin_column. rewrite Ei, Ev. rewrite (nth_error_nth _ _ 0%Z Ea).
    now rewrite Hq. }
  rewrite Hcol in Hrow.
  exists target, i, a.
  split; [exact Etgt|]. split; [exact Hmax|]. split; [exact Ea|].
  revert Hrow.
  destruct (Rlt_dec (nth i (bin_vals sgrams t f) 0%R) (noise_threshold noise_sgram t f))
    as [Hlt|Hge]; intros Hrow.
  - split; [tauto|]. intros Hc. contradiction.
  - split; [|intros _; exact Hrow].
    split; [|intros Hc; contradiction].
    intros Hnoise. pose proof (one_hot_unique _ _ _ _ Hnoise Hrow). lia.
Qed.

End LabelSynthesizerSpec.

Lemma small_sgrams_valid : valid_sgrams small_sgrams small_noise_sgram 1 2.
Proof.
  unfold valid_sgrams, small_sgrams. split; [discriminate|].
  split; [|split; reflexivity].
  repeat constructor.
Qed.

Lemma small_angles_direction :
  @direction_angles small_parameters [0%Z; 45%Z].
Proof.
  unfold direction_angles, getAngleIdx.
  repeat (apply Forall_cons; [cbv; split; [discriminate|reflexivity]|]). constructor.
Qed.

Lemma small_angles_classes :
  Forall (fun angle =>
            (0 <= (angle + 90) / 5 < Z.of_nat (@NUM_OF_DIRECTIONS small_parameters))%Z)
         [0%Z; 45%Z].
Proof.
  repeat (apply Forall_cons; [cbv; split; [discriminate|reflexivity]|]). constructor.
Qed.

Lemma loud_sgrams_valid : valid_sgrams small_sgrams loud_noise_sgram 1 2.
Proof.
  unfold valid_sgrams, small_sgrams. split; [discriminate|].
  split; [|split; reflexivity].
  repeat constructor.
Qed.

(** In channel 0 the first source is above the silent noise reference; in
    channel 1 both sources are below the threshold 100 * 10**(-1). *)
Lemma loud_bin_column (t f : nat) :
  f < 2 ->
  @bin_column small_parameters small_sgrams loud_noise_sgram [0%Z; 45%Z] t f
  = if f =? 0 then 18 else 37.
Proof.
  intros Hf. unfold bin_column, bin_vals, noise_threshold, small_sgrams.
  assert (Hdb : Rpower 10 (@SGRAM_NOISE_TH_dB small_parameters / 10) = (/ 10)%R).
  { cbn [SGRAM_NOISE_TH_dB small_parameters].
    replace (-10 / 10)%R with (- (1))%R by lra.
    rewrite Rpower_Ropp, Rpower_1 by lra. reflexivity. }
  rewrite Hdb.
  destruct f as [|[|f]]; [| |lia];
    cbn [map item Nat.eqb argmax amax argmax_from loud_noise_sgram].
  - destruct (Rlt_dec 3 1) as [H|_]; [lra|]. cbn [fst snd].
    destruct (Rlt_dec 3 (0 * / 10)) as [H|_]; [lra|]. reflexivity.
  - destruct (Rlt_dec 1 2) as [_|N]; [|lra]. cbn [fst snd].
    destruct (Rlt_dec 2 (100 * / 10)) as [_|N]; [|lra]. reflexivity.
Qed.

(** The inputs of the example: channel 0 gets the class 18 of the angle 0 of
    its loudest source, channel 1 the noise class 37. *)
Lemma loud_targets_rows :
  exists targets target0 target1,
    @targets_of_sgrams small_parameters small_sgrams loud_noise_sgram [0%Z; 45%Z]
      = Ok targets /\
    nth_error targets 0 = Some target0 /\ one_hot_at target0 0 18 /\
    nth_error targets 1 = Some target1 /\ one_hot_at target1 0 37.
Proof.
  destruct (@targets_of_sgrams_labelled small_parameters small_sgrams loud_noise_sgram
              [0%Z; 45%Z] 1 2 loud_sgrams_valid eq_refl small_angles_direction)
    as [targets [E [Hl Hall]]].
  destruct (Hall 0) as [target0 [E0 [_ [Hs0 Hitem0]]]]; [lia|].
  destruct (Hall 1) as [target1 [E1 [_ [Hs1 Hitem1]]]]; [lia|].
  exists targets, target0, target1.
  split; [exact E|]. split; [exact E0|]. split; [|split; [exact E1|]].
  - split; [rewrite Hs0; simpl; lia|].
    intros c Hc. rewrite Hs0 in Hc. rewrite (Hitem0 0 c) by (lia || exact Hc).
    now rewrite loud_bin_column by lia.
  - split; [rewrite Hs1; simpl; lia|].
    intros c Hc. rewrite Hs1 in Hc. rewrite (Hitem1 0 c) by (lia || exact Hc).
    now rewrite loud_bin_column by lia.
Qed.

Lemma targets_of_sgrams_labels_witness :
  valid_sgrams small_sgrams loud_noise_sgram 1 2 /\
  length [0%Z; 45%Z] = length small_sgrams /\
  Forall (fun angle => (0 <= (angle + 90) / 5 < 37)%Z) [0%Z; 45%Z] /\
  (exists targets,
    @targets_of_sgrams small_parameters small_sgrams loud_noise_sgram [0%Z; 45%Z]
      = Ok targets /\
    length targets = 2 /\
    forall t f, t < 1 -> f < 2 ->
      exists target max_ind max_angle,
        nth_error targets f = Some target /\
        first_max (bin_vals small_sgrams t f) max_ind /\
        nth_error [0%Z; 45%Z] max_ind = Some max_angle /\
        (one_hot_at target t 37 <->
         (nth max_ind (bin_vals small_sgrams t f) 0
          < @noise_threshold small_parameters loud_noise_sgram t f)%R) /\
        (~ (nth max_ind (bin_vals small_sgrams t f) 0
            < @noise_threshold small_parameters loud_noise_sgram t f)%R ->
         one_hot_at target t (Z.to_nat ((max_angle + 90) / 5)))) /\
  (exists targets target0 target1,
    @targets_of_sgrams small_parameters small_sgrams loud_noise_sgram [0%Z; 45%Z]
      = Ok targets /\
    nth_error targets 0 = Some target0 /\ one_hot_at target0 0 18 /\
    nth_error targets 1 = Some target1 /\ one_hot_at target1 0 37).
Proof.
  split; [exact loud_sgrams_valid|]. split; [reflexivity|].
  split; [exact small_angles_classes|]. split; [|exact loud_targets_rows].
  exact (@targets_of_sgrams_labels small_parameters small_sgrams loud_noise_sgram
           [0%Z; 45%Z] 1 2 loud_sgrams_valid eq_refl small_angles_classes).
Defined.

(** ** Shapes of the target arrays *)

Lemma foldM_inv (A B : Type) (body : A -> B -> result A) (Inv : A -> Prop) :
  (forall a x a', Inv a -> body a x = Ok a' -> Inv a') ->
  forall l a a', Inv a -> foldM body l a = Ok a' -> Inv a'.
Proof.
  intros Hstep. induction l as [|x l IH]; intros a a' Ha E; simpl in E.
  - inversion E; now subst.
  - destruct (body a x) as [a1|e] eqn:E1; simpl in E; [|discriminate].
    eapply IH; [|exact E]. eapply Hstep; eauto.
Qed.

Lemma setitem2_shape (A : Type) (a a' : ndarray A) (i : nat) (j : Z) (v : A) :
  setitem2 a i j v = Ok a' -> shape0 a' = shape0 a /\ shape1 a' = shape1 a.
Proof.
  unfold setitem2. destruct (i <? shape0 a); [|discriminate].
  destruct (norm_index (shape1 a) j); simpl; [|discriminate].
  intros E. inversion E; subst. auto.
Qed.

Lemma Forall_list_setitem (A : Type) (Q : A -> Prop) (l : list A) (i : nat) (v : A) :
  Forall Q l -> Q v -> Forall Q (list_setitem l i v).
Proof.
  intros Hl Hv. revert i. induction Hl as [|x l Hx Hl IH]; intros [|i]; simpl;
    constructor; auto.
Qed.

Section ShapeFacts.
Context {P : parameters}.

Lemma label_bin_shapes (sgrams : list (ndarray R)) (noise_sgram : ndarray R)
    (self_angles : list Z) (T out_ind time_ind : nat) (tg tg' : list (ndarray R)) :
  Forall (fun target => shape0 target = T /\ shape1 target = NUM_OF_DIRECTIONS + 1) tg ->
  label_bin sgrams noise_sgram self_angles out_ind tg time_ind = Ok tg' ->
  Forall (fun target => shape0 target = T /\ shape1 target = NUM_OF_DIRECTIONS + 1) tg'.
Proof.
  intros Hall. unfold label_bin.
  destruct (mapM _ sgrams) as [vals|]; simpl; [|discriminate].
  destruct (argmax vals) as [max_ind|]; simpl; [|discriminate].
  destruct (amax vals) as [max_val|]; simpl; [|discriminate].
  destruct (list_getitem self_angles max_ind) as [max_angle|]; simpl; [|discriminate].
  destruct (getitem2 noise_sgram time_ind out_ind) as [noise_val|]; simpl; [|discriminate].
  unfold list_getitem.
  destruct (nth_error tg out_ind) as [target|] eqn:Et; simpl; [|discriminate].
  assert (Ht : shape0 target = T /\ shape1 target = NUM_OF_DIRECTIONS + 1).
  { rewrite Forall_forall in Hall. apply Hall. eapply nth_error_In; eauto. }
  destruct (if Rlt_dec _ _ then _ else _) as [target'|] eqn:Es; simpl; [|discriminate].
  intros E. inversion E; subst. apply Forall_list_setitem; [assumption|].
  assert (Hs : shape0 target' = shape0 target /\ shape1 target' = shape1 target).
  { destruct (Rlt_dec _ _); eapply setitem2_shape; eauto. }
  destruct Hs as [-> ->]. exact Ht.
Qed.

(** Whenever the label synthesizer returns, every target array has as many
    rows as the first spectrogram and [NUM_OF_DIRECTIONS + 1] columns. *)
Lemma targets_of_sgrams_shapes (sgrams : list (ndarray R)) (noise_sgram : ndarray R)
    (self_angles : list Z) (tg : list (ndarray R)) :
  targets_of_sgrams sgrams noise_sgram self_angles = Ok tg ->
  Forall (fun target => shape0 target = shape0 (hd (zeros 0 0) sgrams) /\
                        shape1 target = NUM_OF_DIRECTIONS + 1) tg.
Proof.
  unfold targets_of_sgrams, list_getitem.
  destruct sgrams as [|sgram0 rest]; simpl; [discriminate|].
  apply foldM_inv.
  - intros a f a' Ha. apply foldM_inv; [|assumption].
    intros b t b' Hb. now apply label_bin_shapes.
  - apply Forall_forall. intros x Hx. apply in_map_iff in Hx.
    destruct Hx as [k [<- _]]. split; reflexivity.
Qed.

End ShapeFacts.

(** ** The constructor *)

Section ConstructorFacts.
Context {P : parameters}.
Variables (brir : brir_table) (pos_def : ndarray R) (rand : nat -> nat).

Lemma init_loop_signals (in_signals : list (list R)) :
  forall self r self',
    init_loop brir pos_def rand in_signals self = (r, self') ->
    length (signals self') <= length (signals self) + length in_signals /\
    (r = Ok tt -> length (signals self') = length (signals self) + length in_signals).
Proof.
  induction in_signals as [|signal l IH]; intros self r self' E; simpl in E;
    cbn [length].
  - inversion E; subst. split; [lia|intros; lia].
  - destruct (negb _).
    { inversion E; subst. split; [lia|discriminate]. }
    destruct (getRandomAngle _ _) as [angle|e].
    2:{ inversion E; subst. split; [lia|discriminate]. }
    destruct (getBinauralSound _ _ _ _) as [b|e].
    2:{ inversion E; subst. cbn [signals]. split; [lia|discriminate]. }
    apply IH in E. cbn [signals] in E. rewrite length_app in E. cbn [length] in E.
    destruct E as [E1 E2]. split; [lia|]. intros Hr. specialize (E2 Hr). lia.
Qed.

Lemma init_loop_app (l1 l2 : list (list R)) :
  forall self,
    init_loop brir pos_def rand (l1 ++ l2) self =
    match init_loop brir pos_def rand l1 self with
    | (Ok _, self') => init_loop brir pos_def rand l2 self'
    | (Raise e, self') => (Raise e, self')
    end.
Proof.
  induction l1 as [|signal l1 IH]; intros self; simpl; [reflexivity|].
  destruct (negb _); [reflexivity|].
  destruct (getRandomAngle _ _) as [angle|e]; [|reflexivity].
  destruct (getBinauralSound _ _ _ _) as [b|e]; [|reflexivity].
  apply IH.
Qed.

(** The loop stops at a signal of the wrong length, with [self] as the
    signals before it left it. *)
Lemma init_loop_mismatch (pre : list (list R)) (bad : list R) (post : list (list R))
    (self : DataEntry) :
  length bad <> signal_length_samples ->
  init_loop brir pos_def rand (pre ++ bad :: post) self =
  match init_loop brir pos_def rand pre self with
  | (Ok _, self') => (Raise AssertionError, self')
  | (Raise e, self') => (Raise e, self')
  end.
Proof.
  intros Hbad. rewrite init_loop_app.
  destruct (init_loop brir pos_def rand pre self) as [[u|e] self']; [|reflexivity].
  simpl. apply Nat.eqb_neq in Hbad. now rewrite Hbad.
Qed.

Context {F : features}.

Lemma init_mismatch (pre : list (list R)) (bad : list R) (post : list (list R)) :
  length bad <> signal_length_samples ->
  init (pre ++ bad :: post) brir pos_def rand =
  match init_loop brir pos_def rand pre (init_self (hd bad pre)) with
  | (Ok _, self') => (Raise AssertionError, self')
  | (Raise e, self') => (Raise e, self')
  end.
Proof.
  intros Hbad. unfold init.
  assert (E : exists rest, pre ++ bad :: post = hd bad pre :: rest)
    by (destruct pre; simpl; eauto).
  destruct E as [rest E]. rewrite E at 1. rewrite init_loop_mismatch by assumption.
  destruct (init_loop brir pos_def rand pre (init_self (hd bad pre))) as [[u|e] self'];
    reflexivity.
Qed.

(** C5 (amended). When a signal [bad] of the wrong length follows the
    signals [pre], construction fails and neither [bad] nor a later signal
    is rendered; but the length of [bad] is checked only when the loop
    reaches it: if the signals of [pre] pass the loop, they have all been
    rendered when the [AssertionError] is raised. *)
Theorem init_length_mismatch (pre : list (list R)) (bad : list R)
    (post : list (list R)) :
  length bad <> signal_length_samples ->
  (exists e self,
     init (pre ++ bad :: post) brir pos_def rand = (Raise e, self) /\
     length (signals self) <= length pre) /\
  (forall self',
     init_loop brir pos_def rand pre (init_self (hd bad pre)) = (Ok tt, self') ->
     init (pre ++ bad :: post) brir pos_def rand = (Raise AssertionError, self') /\
     length (signals self') = length pre).
Proof.
  intros Hbad. rewrite (init_mismatch pre bad post Hbad). split.
  - destruct (init_loop brir pos_def rand pre (init_self (hd bad pre)))
      as [[u|e] self'] eqn:E; apply init_loop_signals in E; simpl in E; eauto.
    + exists AssertionError, self'. split; [reflexivity|tauto].
    + exists e, self'. split; [reflexivity|tauto].
  - intros self' E. rewrite E. split; [reflexivity|].
    apply init_loop_signals in E. simpl in E. now apply E.
Qed.

(** C4 (amended). In a data entry built from K input signals, K signals
    have been rendered, and every target array has [time_frames] rows and
    [NUM_OF_DIRECTIONS + 1] columns: one column per direction class and one
    for the noise class, whatever K is. *)
Theorem init_targets_shape (in_signals : list (list R)) (self : DataEntry) :
  init in_signals brir pos_def rand = (Ok tt, self) ->
  length (signals self) = length in_signals /\
  Forall (fun target => shape0 target = time_frames self /\
                        shape1 target = NUM_OF_DIRECTIONS + 1) (targets self).
Proof.
  unfold init. destruct in_signals as [|first rest]; [discriminate|].
  destruct (init_loop brir pos_def rand (first :: rest) (init_self first))
    as [[u|e] self1] eqn:Eloop; [|discriminate].
  destruct (updateTargetsFromSignals _ _ _) as [tg|e] eqn:Etg; [|discriminate].
  intros E. inversion E; subst. clear E. simpl.
  apply init_loop_signals in Eloop. simpl in Eloop. destruct Eloop as [_ Hlen].
  destruct u. split; [apply Hlen; reflexivity|].
  unfold updateTargetsFromSignals in Etg. apply targets_of_sgrams_shapes in Etg.
  unfold time_frames. simpl.
  destruct (signals self1) as [|s ss]; [|exact Etg].
  specialize (Hlen eq_refl). simpl in Hlen. lia.
Qed.

End ConstructorFacts.

(** ** A data entry with one source, and one with a signal too short *)

Lemma small_loop_ok :
  exists self,
    @init_loop small_parameters small_brir small_pos_def small_rand [small_signal]
      (@init_self small_parameters small_signal) = (Ok tt, self) /\
    angles self = [0%Z] /\ length (signals self) = 1.
Proof.
  eexists. split.
  - unfold init_loop.
    change (length small_signal =? @signal_length_samples small_parameters) with true.
    cbn [negb].
    set (sig := @normalize_signal small_parameters small_signal).
    change (getRandomAngle
              (small_rand (length (angles (@init_self small_parameters small_signal))))
              (angles (@init_self small_parameters small_signal))) with (Ok 0%Z).
    cbv beta iota.
    change (getBinauralSound sig small_brir small_pos_def 0)
      with (Ok (convolve_same sig [1%R], convolve_same sig [1%R])).
    cbv beta iota. reflexivity.
  - split; reflexivity.
Qed.

Lemma small_entry_built :
  exists self,
    @init small_parameters energy_features [small_signal] small_brir small_pos_def
      small_rand = (Ok tt, self) /\
    length (targets self) = 1 /\
    Forall (fun target => shape1 target = 38) (targets self).
Proof.
  destruct small_loop_ok as [self1 [Eloop [Hangles Hsignals]]].
  destruct (signals self1) as [|b [|b' bs]] eqn:Es; try discriminate.
  destruct (@targets_of_sgrams_labelled small_parameters
              [@getSpectrogram energy_features (fst b)]
              (@getSpectrogram energy_features (noise self1)) [0%Z] 1 1)
    as [tg [Etg [Hl _]]].
  { split; [discriminate|]. repeat split. repeat constructor. }
  { reflexivity. }
  { unfold direction_angles, getAngleIdx.
    repeat (apply Forall_cons; [cbv; split; [discriminate|reflexivity]|]). constructor. }
  pose proof (@targets_of_sgrams_shapes small_parameters _ _ _ _ Etg) as Hshapes.
  eexists. unfold init. rewrite Eloop.
  unfold updateTargetsFromSignals. rewrite Es, Hangles. cbn [map].
  rewrite Etg. split; [reflexivity|]. split; [exact Hl|].
  cbn [targets]. eapply Forall_impl; [|exact Hshapes].
  intros target [_ H1]. exact H1.
Qed.

Lemma init_targets_shape_witness :
  exists self,
    @init small_parameters energy_features [small_signal] small_brir small_pos_def
      small_rand = (Ok tt, self) /\
    length (signals self) = length [small_signal] /\
    Forall (fun target => shape0 target = @time_frames energy_features self /\
                          shape1 target = 37 + 1) (targets self).
Proof.
  destruct small_entry_built as [self [E _]].
  exists self. split; [exact E|].
  exact (@init_targets_shape small_parameters small_brir small_pos_def small_rand
           energy_features [small_signal] self E).
Defined.

(** C4, as stated, fails: a data entry built from one signal has a target
    array with 38 columns, not with 1 + 1. *)
Lemma init_targets_shape_counterexample :
  exists self,
    @init small_parameters energy_features [small_signal] small_brir small_pos_def
      small_rand = (Ok tt, self) /\
    ~ Forall (fun target => shape1 target = length [small_signal] + 1) (targets self).
Proof.
  destruct small_entry_built as [self [E [Hl Hshape]]].
  exists self. split; [exact E|]. intros Hall.
  destruct (targets self) as [|target tl]; [discriminate|].
  inversion Hall; subst. inversion Hshape; subst. simpl in *. lia.
Qed.

Lemma init_length_mismatch_witness :
  length [1%R] <> @signal_length_samples small_parameters /\
  (exists e self,
     @init small_parameters energy_features ([small_signal] ++ [1%R] :: [])
       small_brir small_pos_def small_rand = (Raise e, self) /\
     length (signals self) <= length [small_signal]) /\
  (forall self',
     @init_loop small_parameters small_brir small_pos_def small_rand [small_signal]
       (@init_self small_parameters (hd [1%R] [small_signal])) = (Ok tt, self') ->
     @init small_parameters energy_features ([small_signal] ++ [1%R] :: [])
       small_brir small_pos_def small_rand = (Raise AssertionError, self') /\
     length (signals self') = length [small_signal]).
Proof.
  assert (Hbad : length [1%R] <> @signal_length_samples small_parameters)
    by (vm_compute; discriminate).
  split; [exact Hbad|].
  exact (@init_length_mismatch small_parameters small_brir small_pos_def small_rand
           energy_features [small_signal] [1%R] [] Hbad).
Defined.

(** C5, as stated, fails: with a first signal of the right length and a
    second one too short, construction raises [AssertionError] after the
    first signal has been rendered. *)
Lemma init_length_mismatch_counterexample :
  exists self,
    @init small_parameters energy_features [small_signal; [1%R]]
      small_brir small_pos_def small_rand = (Raise AssertionError, self) /\
    length (signals self) = 1.
Proof.
  destruct small_loop_ok as [self1 [Eloop [_ Hsignals]]].
  exists self1. split; [|exact Hsignals].
  change [small_signal; [1%R]] with ([small_signal] ++ [1%R] :: []).
  rewrite init_mismatch by (vm_compute; discriminate).
  simpl hd. now rewrite Eloop.
Qed.

(** ** The functions on the small inputs *)

Example getAngleIdx_grid :
  map getAngleIdx [(-90)%Z; 0%Z; 45%Z; 90%Z] = [0%Z; 18%Z; 27%Z; 36%Z].
Proof. reflexivity. Qed.

Example getAngleFromIdx_grid :
  map getAngleFromIdx [0%Z; 18%Z; 27%Z; 36%Z] = [(-90)%Z; 0%Z; 45%Z; 90%Z].
Proof. reflexivity. Qed.

Example angles_list_length : length angles_list = 37.
Proof. reflexivity. Qed.

Example getRandomAngle_excludes :
  getRandomAngle 18 [0%Z] = Ok 5%Z /\ getRandomAngle 0 angles_list = Raise IndexError.
Proof. split; reflexivity. Qed.

Example unique_counts_small :
  unique_counts (flatten small_mixed_ibm) = [(3%Z, 2); (37%Z, 2)].
Proof. reflexivity. Qed.

Example mixedIbmToIbms_small :
  snd (@mixedIbmToIbms small_parameters small_mixed_ibm) = [(-75)%Z] /\
  length (fst (@mixedIbmToIbms small_parameters small_mixed_ibm)) = 1.
Proof. split; reflexivity. Qed.

Example convolve_same_impulse :
  length (convolve_same [1; 2; 3]%R [0; 1; 0]%R) = 3.
Proof. reflexivity. Qed.

(** ** The allocator inside the constructor *)

(** The angles of [self] stay an allocation sequence along the loop of the
    constructor, whether it returns or raises: line 42 is the only place
    that extends [self.angles]. *)
Lemma init_loop_allocation {P : parameters} (brir : brir_table) (pos_def : ndarray R)
    (rand : nat -> nat) (in_signals : list (list R)) :
  forall self r self',
    allocation (angles self) ->
    init_loop brir pos_def rand in_signals self = (r, self') ->
    allocation (angles self').
Proof.
  induction in_signals as [|signal l IH]; intros self r self' Ha E; simpl in E.
  - inversion E; now subst.
  - destruct (negb _); [inversion E; now subst|].
    destruct (getRandomAngle _ _) as [angle|e] eqn:Ecall; [|inversion E; now subst].
    assert (Ha' : allocation (angles self ++ [angle]))
      by (eapply alloc_next; eauto).
    destruct (getBinauralSound _ _ _ _) as [b|e]; [|inversion E; now subst].
    eapply IH; [|exact E]. exact Ha'.
Qed.

(** Whatever the constructor does, the angles it leaves in [self] form an
    allocation sequence. *)
Corollary init_angles_distinct {P : parameters} {F : features}
    (in_signals : list (list R)) (brir : brir_table) (pos_def : ndarray R)
    (rand : nat -> nat) (r : result unit) (self : DataEntry) :
  init in_signals brir pos_def rand = (r, self) ->
  allocation (angles self).
Proof.
  unfold init. destruct in_signals as [|first rest].
  - intros E. inversion E; subst. constructor.
  - destruct (init_loop brir pos_def rand (first :: rest) (init_self first))
      as [[u|e] self1] eqn:Eloop;
      apply init_loop_allocation in Eloop; try constructor.
    + destruct (updateTargetsFromSignals _ _ _); intros E; inversion E; now subst.
    + intros E. inversion E; now subst.
Qed.

(** * Further properties of the code *)

(** ** Angle index conversions *)

(** X1. Converting a class index to its angle and back returns the index. *)
Theorem getAngleIdx_getAngleFromIdx (angle_idx : Z) :
  getAngleIdx (getAngleFromIdx angle_idx) = angle_idx.
Proof.
  unfold getAngleIdx, getAngleFromIdx.
  replace (angle_idx * 5 - 90 + 90)%Z with (angle_idx * 5)%Z by lia.
  apply Z.quot_mul. lia.
Qed.

(** X2. An angle of the grid has its class index between 0 and 36, and
    converting that index back returns the angle. *)
Theorem getAngleFromIdx_getAngleIdx_on_grid (angle : Z) :
  on_grid angle ->
  (0 <= getAngleIdx angle <= 36)%Z /\ getAngleFromIdx (getAngleIdx angle) = angle.
Proof.
  intros [Hrange Hmod]. unfold getAngleIdx, getAngleFromIdx.
  pose proof (Z_div_mod_eq_full angle 5) as Hdiv. rewrite Hmod in Hdiv.
  replace (angle + 90)%Z with ((angle / 5 + 18) * 5)%Z by lia.
  rewrite Z.quot_mul by lia. lia.
Qed.

Lemma getAngleFromIdx_getAngleIdx_on_grid_witness :
  on_grid 45 /\
  (0 <= getAngleIdx 45 <= 36)%Z /\ getAngleFromIdx (getAngleIdx 45) = 45%Z.
Proof.
  assert (H : on_grid 45) by (split; [lia|reflexivity]).
  split; [exact H|]. exact (getAngleFromIdx_getAngleIdx_on_grid 45 H).
Defined.

(** X3. For an angle of at least -90, the class index is that of the grid
    angle just below it: converting back rounds the angle down to the grid. *)
Theorem getAngleIdx_rounds_down (angle : Z) :
  (-90 <= angle)%Z ->
  (getAngleFromIdx (getAngleIdx angle) <= angle
   < getAngleFromIdx (getAngleIdx angle) + 5)%Z /\
  (getAngleFromIdx (getAngleIdx angle) mod 5 = 0)%Z.
Proof.
  intros Hlow. unfold getAngleIdx, getAngleFromIdx.
  rewrite Z.quot_div_nonneg by lia.
  pose proof (Z_div_mod_eq_full (angle + 90) 5) as Hdiv.
  pose proof (Z.mod_pos_bound (angle + 90) 5) as Hb.
  split; [lia|].
  replace ((angle + 90) / 5 * 5 - 90)%Z with (((angle + 90) / 5 - 18) * 5)%Z by lia.
  apply Z_mod_mult.
Qed.

Lemma getAngleIdx_rounds_down_witness :
  (-90 <= 47)%Z /\
  (getAngleFromIdx (getAngleIdx 47) <= 47 < getAngleFromIdx (getAngleIdx 47) + 5)%Z /\
  (getAngleFromIdx (getAngleIdx 47) mod 5 = 0)%Z.
Proof.
  assert (H : (-90 <= 47)%Z) by lia.
  split; [exact H|]. exact (getAngleIdx_rounds_down 47 H).
Defined.

(** ** The candidates of the angle allocator *)

Lemma on_grid_angles_list (a : Z) : on_grid a -> In a angles_list.
Proof.
  intros [Hrange Hmod].
  unfold angles_list, py_range, MIN_ANGLE, MAX_ANGLE, STEP.
  change (Z.to_nat ((90 + 5 - -90 + 5 - 1) / 5)) with 37.
  pose proof (Z_div_mod_eq_full a 5) as Hdiv. rewrite Hmod in Hdiv.
  apply in_map_iff. exists (Z.to_nat (a / 5 + 18)). split.
  - rewrite Z2Nat.id by lia. lia.
  - apply in_seq. lia.
Qed.

Lemma possible_angles_In (forbidden_angles : list Z) (a : Z) :
  In a (filter (fun angle => negb (Z_in angle forbidden_angles)) angles_list) <->
  on_grid a /\ ~ In a forbidden_angles.
Proof.
  rewrite filter_In, negb_true_iff. split.
  - intros [Hin Hf]. split; [now apply angles_list_on_grid|].
    intros Hc. apply Z_in_spec in Hc. congruence.
  - intros [Hgrid Hf]. split; [now apply on_grid_angles_list|].
    destruct (Z_in a forbidden_angles) eqn:E; [|reflexivity].
    apply Z_in_spec in E. contradiction.
Qed.

(** X4. The allocator raises [IndexError] exactly when every angle of the
    grid is forbidden, whatever the generator draws. *)
Theorem getRandomAngle_exhausted (r : nat) (forbidden_angles : list Z) :
  getRandomAngle r forbidden_angles = Raise IndexError <->
  (forall a, on_grid a -> In a forbidden_angles).
Proof.
  unfold getRandomAngle.
  set (possible := filter (fun angle => negb (Z_in angle forbidden_angles)) angles_list).
  split.
  - intros E a Hgrid.
    destruct (in_dec Z.eq_dec a forbidden_angles) as [Hin|Hout]; [assumption|].
    assert (Hp : In a possible) by (apply possible_angles_In; auto).
    destruct (random_choice_returns Z r possible) as [b Eb].
    + intros Hnil. rewrite Hnil in Hp. contradiction.
    + congruence.
  - intros Hall. destruct possible as [|a l] eqn:Ep; [reflexivity|].
    assert (Hp : In a possible) by (rewrite Ep; now left).
    apply possible_angles_In in Hp. destruct Hp as [Hgrid Hout].
    exfalso. apply Hout, Hall, Hgrid.
Qed.

(** X5. Every angle of the grid that is not forbidden is returned for some
    draw of the generator. *)
Theorem getRandomAngle_complete (forbidden_angles : list Z) (a : Z) :
  on_grid a -> ~ In a forbidden_angles ->
  exists r, getRandomAngle r forbidden_angles = Ok a.
Proof.
  intros Hgrid Hout. unfold getRandomAngle.
  set (possible := filter (fun angle => negb (Z_in angle forbidden_angles)) angles_list).
  assert (Hp : In a possible) by (apply possible_angles_In; auto).
  destruct (In_nth_error _ _ Hp) as [n Hn].
  assert (Hlt : n < length possible) by (apply nth_error_Some; congruence).
  exists n. unfold random_choice, list_getitem.
  destruct possible as [|x l] eqn:Ep; [simpl in Hlt; lia|].
  rewrite Nat.mod_small by assumption. now rewrite Hn.
Qed.

Lemma getRandomAngle_complete_witness :
  on_grid 45 /\ ~ In 45%Z [0%Z] /\
  exists r, getRandomAngle r [0%Z] = Ok 45%Z.
Proof.
  assert (Hgrid : on_grid 45) by (split; [lia|reflexivity]).
  assert (Hout : ~ In 45%Z [0%Z]) by (intros [H|[]]; discriminate).
  split; [exact Hgrid|]. split; [exact Hout|].
  exact (getRandomAngle_complete [0%Z] 45 Hgrid Hout).
Defined.

(** ** Binaural rendering *)

Lemma length_add_padded (u v : list R) :
  length (add_padded u v) = Nat.max (length u) (length v).
Proof.
  revert v. induction u as [|x u IH]; intros [|y v]; simpl; auto.
Qed.

Lemma length_convolve_full (a h : list R) :
  a <> [] -> h <> [] -> length (convolve_full a h) = length a + length h - 1.
Proof.
  intros Ha Hh. induction a as [|x a IH]; [congruence|].
  simpl. rewrite length_add_padded, length_map. simpl.
  assert (Hm : 0 < length h) by (destruct h; simpl; [congruence|lia]).
  destruct a as [|y a]; [simpl; lia|].
  rewrite IH by discriminate. simpl. lia.
Qed.

Lemma length_convolve_same (a h : list R) :
  h <> [] -> length (convolve_same a h) = length a.
Proof.
  intros Hh. unfold convolve_same. rewrite length_firstn, length_skipn.
  destruct a as [|x a]; [reflexivity|].
  rewrite length_convolve_full by (assumption || discriminate).
  assert (Hm : 0 < length h) by (destruct h; simpl; [congruence|lia]).
  pose proof (Nat.div_mod_eq (length h - 1) 2) as Hd.
  simpl length. lia.
Qed.


(** The azimuth that [getBinauralSound] looks up: negative angles are
    shifted by 360 degrees. *)
Lemma getBinauralSound_in_range (audio_in : list R) (brir : brir_table)
    (pos_def : ndarray R) (angle : Z) :
  (-90 <= angle <= 90)%Z ->
  getBinauralSound audio_in brir pos_def angle =
  (angles <- getcol pos_def 0 ;;
   angle_idx <- find_closest_idx_in_array angles
                  (IZR (if (angle <? 0)%Z then angle + 360 else angle)%Z) ;;
   brir_direction <- list_getitem brir angle_idx ;;
   Ok (convolve_same audio_in (fst brir_direction),
       convolve_same audio_in (snd brir_direction))).
Proof.
  intros Hr. unfold getBinauralSound.
  destruct (Z.gtb_spec angle 90); [lia|].
  destruct (Z.ltb_spec angle (-90)); [lia|]. reflexivity.
Qed.


(** X7. For an angle in [-90, 90], a non-empty input, a position table with
    at least one row and one column and an impulse-response table with a
    pair of non-empty responses for every row, [getBinauralSound] returns:
    each channel is the same-length convolution of the input with the
    response of a stored direction whose azimuth is nearest to the angle
    (to angle + 360 for a negative angle), the first such direction in
    storage order; both channels have as many samples as the input. *)
Theorem getBinauralSound_nearest (audio_in : list R) (brir : brir_table)
    (pos_def : ndarray R) (angle : Z) :
  (-90 <= angle <= 90)%Z ->
  audio_in <> [] ->
  0 < shape0 pos_def -> 0 < shape1 pos_def -> shape0 pos_def <= length brir ->
  Forall (fun d => fst d <> [] /\ snd d <> []) brir ->
  exists k brir_direction,
    k < shape0 pos_def /\
    nth_error brir k = Some brir_direction /\
    getBinauralSound audio_in brir pos_def angle =
      Ok (convolve_same audio_in (fst brir_direction),
          convolve_same audio_in (snd brir_direction)) /\
    length (convolve_same audio_in (fst brir_direction)) = length audio_in /\
    length (convolve_same audio_in (snd brir_direction)) = length audio_in /\
    (forall j, j < shape0 pos_def ->
       (Rabs (item pos_def k 0 - IZR (if (angle <? 0)%Z then angle + 360 else angle)%Z)
        <= Rabs (item pos_def j 0
                 - IZR (if (angle <? 0)%Z then angle + 360 else angle)%Z))%R) /\
    (forall j, j < k ->
       (Rabs (item pos_def k 0 - IZR (if (angle <? 0)%Z then angle + 360 else angle)%Z)
        < Rabs (item pos_def j 0
                - IZR (if (angle <? 0)%Z then angle + 360 else angle)%Z))%R).
Proof.
  intros Hr Haudio Hrows Hcols Hbrir Hresp.
  rewrite getBinauralSound_in_range by assumption.
  set (val := IZR (if (angle <? 0)%Z then angle + 360 else angle)%Z).
  unfold getcol. apply Nat.ltb_lt in Hcols. rewrite Hcols. simpl.
  set (angles := map (fun i => item pos_def i 0) (seq 0 (shape0 pos_def))).
  assert (Hlen : length angles = shape0 pos_def)
    by (unfold angles; now rewrite length_map, length_seq).
  assert (Hnth : forall j, j < shape0 pos_def -> nth j angles 0%R = item pos_def j 0)
    by (intros j Hj; unfold angles;
        exact (nth_map_seq R (fun i => item pos_def i 0) _ j 0%R Hj)).
  destruct (argmin_spec (map (fun a => Rabs (a - val)) angles)) as [k [E [Hk [Hle Hf]]]].
  { destruct angles; [simpl in Hlen; lia|discriminate]. }
  rewrite length_map, Hlen in Hk, Hle.
  unfold find_closest_idx_in_array. rewrite E. simpl.
  destruct (nth_error brir k) as [d|] eqn:Ed; [|apply nth_error_None in Ed; lia].
  unfold list_getitem. rewrite Ed. simpl.
  rewrite Forall_forall in Hresp.
  destruct (Hresp d (nth_error_In _ _ Ed)) as [Hd1 Hd2].
  exists k, d.
  split; [assumption|]. split; [exact Ed|]. split; [reflexivity|].
  split; [now apply length_convolve_same|].
  split; [now apply length_convolve_same|]. split.
  - intros j Hj. specialize (Hle j Hj).
    rewrite !nth_map_abs_diff, !Hnth in Hle by lia. exact Hle.
  - intros j Hj. specialize (Hf j Hj).
    rewrite !nth_map_abs_diff, !Hnth in Hf by lia. exact Hf.
Qed.

(** In the table with the azimuths 0, 300 and 360, the azimuth 330 is at
    the distance 30 from the second and from the third stored direction:
    the lookup returns the second. *)
Lemma tied_azimuths_closest :
  find_closest_idx_in_array tied_azimuths 330 = Ok 1.
Proof.
  unfold find_closest_idx_in_array, tied_azimuths. cbn [map].
  replace (Rabs (0 - 330)) with 330%R
    by (rewrite Rabs_left by lra; lra).
  replace (Rabs (300 - 330)) with 30%R
    by (rewrite Rabs_left by lra; lra).
  replace (Rabs (360 - 330)) with 30%R
    by (rewrite Rabs_right by lra; lra).
  unfold argmin. cbn [argmin_from].
  destruct (Rlt_dec 30 330) as [_|N]; [|lra].
  destruct (Rlt_dec 30 30) as [H|_]; [lra|]. reflexivity.
Qed.

Lemma tied_brir_responses :
  Forall (fun d : list R * list R => fst d <> [] /\ snd d <> []) tied_brir.
Proof.
  unfold tied_brir. repeat (apply Forall_cons; [split; discriminate|]). constructor.
Qed.

(** At the angle -30, looked up as the azimuth 330, the tie between the
    stored azimuths 300 and 360 goes to the one stored first. *)
Lemma getBinauralSound_nearest_witness :
  (-90 <= -30 <= 90)%Z /\
  small_signal <> [] /\
  0 < shape0 tied_pos_def /\ 0 < shape1 tied_pos_def /\
  shape0 tied_pos_def <= length tied_brir /\
  Forall (fun d : list R * list R => fst d <> [] /\ snd d <> []) tied_brir /\
  (exists k brir_direction,
    k < shape0 tied_pos_def /\
    nth_error tied_brir k = Some brir_direction /\
    getBinauralSound small_signal tied_brir tied_pos_def (-30) =
      Ok (convolve_same small_signal (fst brir_direction),
          convolve_same small_signal (snd brir_direction)) /\
    length (convolve_same small_signal (fst brir_direction)) = length small_signal /\
    length (convolve_same small_signal (snd brir_direction)) = length small_signal /\
    (forall j, j < shape0 tied_pos_def ->
       (Rabs (item tied_pos_def k 0 - IZR (if (-30 <? 0)%Z then -30 + 360 else -30)%Z)
        <= Rabs (item tied_pos_def j 0
                 - IZR (if (-30 <? 0)%Z then -30 + 360 else -30)%Z))%R) /\
    (forall j, j < k ->
       (Rabs (item tied_pos_def k 0 - IZR (if (-30 <? 0)%Z then -30 + 360 else -30)%Z)
        < Rabs (item tied_pos_def j 0
                - IZR (if (-30 <? 0)%Z then -30 + 360 else -30)%Z))%R)) /\
  getBinauralSound small_signal tied_brir tied_pos_def (-30) =
    Ok (convolve_same small_signal [2%R], convolve_same small_signal [3%R]).
Proof.
  assert (H1 : (-90 <= -30 <= 90)%Z) by lia.
  assert (H2 : small_signal <> []) by discriminate.
  assert (H3 : 0 < shape0 tied_pos_def) by (simpl; lia).
  assert (H4 : 0 < shape1 tied_pos_def) by (simpl; lia).
  assert (H5 : shape0 tied_pos_def <= length tied_brir) by (simpl; lia).
  repeat (split; [assumption|]).
  split; [exact tied_brir_responses|]. split.
  - exact (getBinauralSound_nearest small_signal tied_brir tied_pos_def (-30)
             H1 H2 H3 H4 H5 tied_brir_responses).
  - rewrite getBinauralSound_in_range by exact H1.
    change (getcol tied_pos_def 0) with (Ok tied_azimuths).
    cbn [bind]. change (IZR (if (-30 <? 0)%Z then -30 + 360 else -30)%Z) with 330%R.
    rewrite tied_azimuths_closest. reflexivity.
Defined.

(** When [getBinauralSound] returns, with an impulse-response table
    without empty responses, both output channels have as many samples as
    the input. *)
Lemma getBinauralSound_length (audio_in : list R) (brir : brir_table)
    (pos_def : ndarray R) (angle : Z) (audio_out : stereo) :
  Forall (fun d => fst d <> [] /\ snd d <> []) brir ->
  getBinauralSound audio_in brir pos_def angle = Ok audio_out ->
  length (fst audio_out) = length audio_in /\
  length (snd audio_out) = length audio_in.
Proof.
  intros Hbrir. unfold getBinauralSound.
  destruct (_ || _)%bool; [discriminate|].
  destruct (getcol pos_def 0) as [angles|]; simpl; [|discriminate].
  destruct (find_closest_idx_in_array _ _) as [k|]; simpl; [|discriminate].
  unfold list_getitem. destruct (nth_error brir k) as [d|] eqn:Ed; simpl; [|discriminate].
  intros E. inversion E; subst. simpl.
  rewrite Forall_forall in Hbrir. destruct (Hbrir d (nth_error_In _ _ Ed)) as [H1 H2].
  split; now apply length_convolve_same.
Qed.



(** ** The encoder on arbitrary score arrays *)

Lemma foldM_ok_each (A B : Type) (body : A -> B -> result A) (Inv : A -> Prop) :
  (forall a x a', Inv a -> body a x = Ok a' -> Inv a') ->
  forall l a a', Inv a -> foldM body l a = Ok a' ->
    forall x, In x l -> exists a1 a2, Inv a1 /\ body a1 x = Ok a2.
Proof.
  intros Hstep. induction l as [|y l IH]; intros a a' Ha E x Hx; [contradiction|].
  simpl in E. destruct (body a y) as [a1|e] eqn:E1; simpl in E; [|discriminate].
  destruct Hx as [->|Hx]; [eauto|].
  eapply IH; [|exact E|exact Hx]. eapply Hstep; eauto.
Qed.

Lemma row_argmax_first_max (dnn_target : list (ndarray R)) (tgt : ndarray R)
    (t f : nat) :
  nth_error dnn_target f = Some tgt -> t < shape0 tgt -> 0 < shape1 tgt ->
  exists k, row_argmax dnn_target t f = Ok k /\
            first_max (map (item tgt t) (seq 0 (shape1 tgt))) k.
Proof.
  intros Hf Ht Hc. unfold row_argmax, list_getitem, getrow. rewrite Hf. simpl.
  apply Nat.ltb_lt in Ht. rewrite Ht. simpl.
  destruct (argmax_spec (map (item tgt t) (seq 0 (shape1 tgt)))) as [k [E [_ Hk]]];
    [|eauto].
  destruct (shape1 tgt); [lia|discriminate].
Qed.

Lemma row_argmax_ok_inv (dnn_target : list (ndarray R)) (t f k : nat) :
  row_argmax dnn_target t f = Ok k ->
  exists tgt, nth_error dnn_target f = Some tgt /\ t < shape0 tgt /\ 0 < shape1 tgt.
Proof.
  unfold row_argmax, list_getitem, getrow.
  destruct (nth_error dnn_target f) as [tgt|]; simpl; [|discriminate].
  destruct (Nat.ltb_spec t (shape0 tgt)); simpl; [|discriminate].
  intros E. exists tgt. repeat split; [assumption|].
  destruct (shape1 tgt); [discriminate|lia].
Qed.

Lemma mixed_ibm_assign_shape (dnn_target : list (ndarray R)) (t f : nat)
    (m m' : ndarray Z) :
  mixed_ibm_assign dnn_target t m f = Ok m' ->
  shape0 m' = shape0 m /\ shape1 m' = shape1 m.
Proof.
  rewrite mixed_ibm_assign_row_argmax.
  destruct (row_argmax dnn_target t f); simpl; [|discriminate].
  apply setitem2_shape.
Qed.

(** When the encoder returns, every cell it visited had a row to take the
    [argmax] of. *)
Lemma dnnTargetToMixedIbm_ok_inv (dnn_target : list (ndarray R)) (first : ndarray R)
    (m : ndarray Z) :
  nth_error dnn_target 0 = Some first ->
  dnnTargetToMixedIbm dnn_target = Ok m ->
  forall t f, t < shape0 first -> f < length dnn_target ->
    exists k, row_argmax dnn_target t f = Ok k.
Proof.
  intros Hfirst. unfold dnnTargetToMixedIbm, list_getitem. rewrite Hfirst. simpl.
  set (F := length dnn_target). intros E t f Ht Hf.
  assert (Hstep : forall (a : ndarray Z) (x : nat) (a' : ndarray Z),
            shape1 a = F ->
            foldM (mixed_ibm_assign dnn_target x) (seq 0 (shape1 a)) a = Ok a' ->
            shape1 a' = F).
  { intros a x a' Ha Efold.
    apply (foldM_inv _ _ (mixed_ibm_assign dnn_target x) (fun m => shape1 m = F))
      with (l := seq 0 (shape1 a)) (a := a); [|assumption|assumption].
    intros b y b' Hb Eb. apply mixed_ibm_assign_shape in Eb. destruct Eb as [_ Eb].
    congruence. }
  assert (Hint : In t (seq 0 (shape0 first))) by (apply in_seq; lia).
  destruct (foldM_ok_each _ _
              (fun m time_dim =>
                 foldM (mixed_ibm_assign dnn_target time_dim) (seq 0 (shape1 m)) m)
              (fun m => shape1 m = F) Hstep (seq 0 (shape0 first))
              {| shape0 := shape0 first; shape1 := F; item := fun _ _ => 0%Z |} m
              eq_refl E t Hint)
    as [m1 [m2 [H1 E1]]].
  simpl in E1. rewrite H1 in E1.
  assert (Hinf : In f (seq 0 F)) by (apply in_seq; lia).
  destruct (foldM_ok_each _ _ (mixed_ibm_assign dnn_target t) (fun _ => True)
              (fun _ _ _ _ _ => I) _ _ _ I E1 f Hinf) as [m3 [m4 [_ E3]]].
  rewrite mixed_ibm_assign_row_argmax in E3.
  destruct (row_argmax dnn_target t f) as [k|]; [eauto|discriminate].
Qed.

(** X9. On score arrays of any content (one per channel, at least one, each
    with at least as many rows as the first and at least one column), the
    encoder returns a map with one row per time frame of the first array
    and one column per channel, and every entry is the first index of a
    largest score of its row. *)
Theorem dnnTargetToMixedIbm_first_max (dnn_target : list (ndarray R))
    (first : ndarray R) :
  nth_error dnn_target 0 = Some first ->
  Forall (fun a => shape0 first <= shape0 a /\ 0 < shape1 a) dnn_target ->
  exists mixed_ibm,
    dnnTargetToMixedIbm dnn_target = Ok mixed_ibm /\
    shape0 mixed_ibm = shape0 first /\
    shape1 mixed_ibm = length dnn_target /\
    forall t f tgt, t < shape0 first -> nth_error dnn_target f = Some tgt ->
      exists k, item mixed_ibm t f = Z.of_nat k /\
                first_max (map (item tgt t) (seq 0 (shape1 tgt))) k.
Proof.
  intros Hfirst Hall. rewrite Forall_forall in Hall.
  assert (Hrow : forall t f tgt, t < shape0 first -> nth_error dnn_target f = Some tgt ->
            exists k, row_argmax dnn_target t f = Ok k /\
                      first_max (map (item tgt t) (seq 0 (shape1 tgt))) k).
  { intros t f tgt Ht Hf. destruct (Hall tgt (nth_error_In _ _ Hf)) as [H0 H1].
    apply row_argmax_first_max; [assumption|lia|assumption]. }
  destruct (dnnTargetToMixedIbm_ok dnn_target first Hfirst) as [m [Em [H0 [H1 Hitem]]]].
  { intros t f Ht Hf.
    destruct (nth_error dnn_target f) as [tgt|] eqn:Ef;
      [|apply nth_error_None in Ef; lia].
    destruct (Hrow t f tgt Ht Ef) as [k [Ek _]]. eauto. }
  exists m. repeat split; try assumption.
  intros t f tgt Ht Hf.
  assert (Hlt : f < length dnn_target) by (apply nth_error_Some; congruence).
  destruct (Hrow t f tgt Ht Hf) as [k [Ek Hk]].
  exists k. split; [|assumption].
  rewrite Hitem by assumption. unfold class_of_row. now rewrite Ek.
Qed.

Lemma dnnTargetToMixedIbm_first_max_witness :
  nth_error small_targets 0 = Some small_target /\
  Forall (fun a => shape0 small_target <= shape0 a /\ 0 < shape1 a) small_targets /\
  exists mixed_ibm,
    dnnTargetToMixedIbm small_targets = Ok mixed_ibm /\
    shape0 mixed_ibm = shape0 small_target /\
    shape1 mixed_ibm = length small_targets /\
    forall t f tgt, t < shape0 small_target -> nth_error small_targets f = Some tgt ->
      exists k, item mixed_ibm t f = Z.of_nat k /\
                first_max (map (item tgt t) (seq 0 (shape1 tgt))) k.
Proof.
  assert (H1 : nth_error small_targets 0 = Some small_target) by reflexivity.
  assert (H2 : Forall (fun a => shape0 small_target <= shape0 a /\ 0 < shape1 a)
                      small_targets)
    by (repeat constructor; simpl; lia).
  split; [exact H1|]. split; [exact H2|].
  exact (dnnTargetToMixedIbm_first_max small_targets small_target H1 H2).
Defined.

(** X10. The encoder returns exactly when there is at least one channel and
    every channel's array has at least as many rows as the first and, unless
    the first has no row, at least one column; otherwise it raises. *)
Theorem dnnTargetToMixedIbm_returns_iff (dnn_target : list (ndarray R)) :
  (exists mixed_ibm, dnnTargetToMixedIbm dnn_target = Ok mixed_ibm) <->
  (exists first,
     nth_error dnn_target 0 = Some first /\
     Forall (fun a => shape0 first <= shape0 a /\ (shape0 first = 0 \/ 0 < shape1 a))
            dnn_target).
Proof.
  split.
  - intros [m E].
    destruct (nth_error dnn_target 0) as [first|] eqn:Hfirst.
    2:{ unfold dnnTargetToMixedIbm, list_getitem in E. rewrite Hfirst in E.
        discriminate. }
    exists first. split; [reflexivity|].
    pose proof (dnnTargetToMixedIbm_ok_inv dnn_target first m Hfirst E) as Hcells.
    apply Forall_forall. intros a Ha.
    destruct (In_nth_error _ _ Ha) as [f Hf].
    assert (Hlt : f < length dnn_target) by (apply nth_error_Some; congruence).
    destruct (shape0 first) as [|T'] eqn:ET; [split; [lia|now left]|].
    destruct (Hcells T' f) as [k Ek]; [lia|assumption|].
    apply row_argmax_ok_inv in Ek. destruct Ek as [tgt [Hf' [Ht Hc]]].
    assert (tgt = a) by congruence. subst tgt. split; [lia|now right].
  - intros [first [Hfirst Hall]]. rewrite Forall_forall in Hall.
    destruct (dnnTargetToMixedIbm_ok dnn_target first Hfirst) as [m [Em _]]; [|eauto].
    intros t f Ht Hf.
    destruct (nth_error dnn_target f) as [tgt|] eqn:Ef;
      [|apply nth_error_None in Ef; lia].
    destruct (Hall tgt (nth_error_In _ _ Ef)) as [H0 [H1|H1]]; [lia|].
    destruct (row_argmax_first_max dnn_target tgt t f Ef) as [k [Ek _]];
      [lia|assumption|eauto].
Qed.

(** ** The decoder: what it returns besides the masks of the classes *)

Lemma StronglySorted_map_getAngleFromIdx (cs : list Z) :
  StronglySorted Z.lt cs -> StronglySorted Z.lt (map getAngleFromIdx cs).
Proof.
  induction 1 as [|c cs Hs IH Hall]; simpl; constructor; [assumption|].
  rewrite Forall_forall in *. intros a Ha. apply in_map_iff in Ha.
  destruct Ha as [c' [<- Hc']]. specialize (Hall _ Hc').
  unfold getAngleFromIdx. lia.
Qed.

Section DecoderFacts.
Context {P : parameters}.

(** X11. The decoder returns as many angles as masks; the angles are
    strictly ascending (hence pairwise different), multiples of 5 and below
    [5 * NUM_OF_DIRECTIONS - 90]. *)
Theorem mixedIbmToIbms_angles (mixed_ibm : ndarray Z) :
  length (fst (mixedIbmToIbms mixed_ibm)) = length (snd (mixedIbmToIbms mixed_ibm)) /\
  StronglySorted Z.lt (snd (mixedIbmToIbms mixed_ibm)) /\
  Forall (fun a => (a < 5 * Z.of_nat NUM_OF_DIRECTIONS - 90)%Z /\ (a mod 5 = 0)%Z)
         (snd (mixedIbmToIbms mixed_ibm)).
Proof.
  rewrite mixedIbmToIbms_kept. cbn [fst snd]. split; [now rewrite !length_map|]. split.
  - apply StronglySorted_map_getAngleFromIdx, kept_classes_sorted, unique_counts_sorted.
  - apply Forall_forall. intros a Ha. apply in_map_iff in Ha.
    destruct Ha as [c [<- Hc]]. apply kept_classes_In in Hc.
    destruct Hc as [_ [_ Hc]]. unfold getAngleFromIdx. split; [lia|].
    replace (c * 5 - 90)%Z with ((c - 18) * 5)%Z by lia. apply Z_mod_mult.
Qed.

(** X12. The decoder returns no mask and no angle exactly when no class
    value below the noise class reaches the minimum support; in particular
    for a map that holds the noise class only. *)
Theorem mixedIbmToIbms_empty_iff (mixed_ibm : ndarray Z) :
  mixedIbmToIbms mixed_ibm = ([], []) <->
  (forall c, 0 < pixel_count mixed_ibm c -> (c < Z.of_nat NUM_OF_DIRECTIONS)%Z ->
     (Z.of_nat (pixel_count mixed_ibm c) < MIXED_IBM_IDENTIFICATION_TH)%Z).
Proof.
  rewrite mixedIbmToIbms_kept. split.
  - intros E c Hpos Hc.
    destruct (Z_lt_le_dec (Z.of_nat (pixel_count mixed_ibm c))
                          MIXED_IBM_IDENTIFICATION_TH) as [Hlt|Hge]; [assumption|].
    assert (Hin : In c (kept_classes (unique_counts (flatten mixed_ibm))))
      by (apply kept_classes_In; auto).
    destruct (kept_classes _); [contradiction|discriminate].
  - intros Hall. destruct (kept_classes _) as [|c cs] eqn:Ek; [reflexivity|].
    assert (Hin : In c (kept_classes (unique_counts (flatten mixed_ibm))))
      by (rewrite Ek; now left).
    apply kept_classes_In in Hin. destruct Hin as [Hpos [Hth Hc]].
    specialize (Hall c Hpos Hc). lia.
Qed.

(** X13. Every returned mask has the shape of the map, and a bin of the map
    is 1 in some returned mask exactly when its class is below the noise
    class and has at least the minimum support. *)
Theorem mixedIbmToIbms_cover (mixed_ibm : ndarray Z) (t f : nat) :
  t < shape0 mixed_ibm -> f < shape1 mixed_ibm ->
  Forall (fun ibm => shape0 ibm = shape0 mixed_ibm /\ shape1 ibm = shape1 mixed_ibm)
         (fst (mixedIbmToIbms mixed_ibm)) /\
  ((exists ibm, In ibm (fst (mixedIbmToIbms mixed_ibm)) /\ item ibm t f = 1%R) <->
   (item mixed_ibm t f < Z.of_nat NUM_OF_DIRECTIONS)%Z /\
   (MIXED_IBM_IDENTIFICATION_TH
      <= Z.of_nat (pixel_count mixed_ibm (item mixed_ibm t f)))%Z).
Proof.
  intros Ht Hf. rewrite mixedIbmToIbms_kept. simpl. split; [|split].
  - apply Forall_forall. intros ibm Hin. apply in_map_iff in Hin.
    destruct Hin as [c [<- _]]. split; reflexivity.
  - intros [ibm [Hin H1]]. apply in_map_iff in Hin. destruct Hin as [c [<- Hc]].
    simpl in H1. destruct (Z.eqb_spec (item mixed_ibm t f) c) as [->|N]; [|lra].
    apply kept_classes_In in Hc. tauto.
  - intros [Hc Hth]. exists (ibm_of mixed_ibm (item mixed_ibm t f)). split.
    + apply in_map, kept_classes_In. repeat split; try assumption.
      apply pixel_count_pos_item. eauto.
    + simpl. now rewrite Z.eqb_refl.
Qed.

End DecoderFacts.

Lemma mixedIbmToIbms_cover_witness :
  0 < shape0 small_mixed_ibm /\ 0 < shape1 small_mixed_ibm /\
  Forall (fun ibm => shape0 ibm = shape0 small_mixed_ibm /\
                     shape1 ibm = shape1 small_mixed_ibm)
         (fst (@mixedIbmToIbms small_parameters small_mixed_ibm)) /\
  ((exists ibm, In ibm (fst (@mixedIbmToIbms small_parameters small_mixed_ibm)) /\
                item ibm 0 0 = 1%R) <->
   (item small_mixed_ibm 0 0 < Z.of_nat (@NUM_OF_DIRECTIONS small_parameters))%Z /\
   (@MIXED_IBM_IDENTIFICATION_TH small_parameters
      <= Z.of_nat (pixel_count small_mixed_ibm (item small_mixed_ibm 0 0)))%Z).
Proof.
  assert (H1 : 0 < shape0 small_mixed_ibm) by (simpl; lia).
  assert (H2 : 0 < shape1 small_mixed_ibm) by (simpl; lia).
  split; [exact H1|]. split; [exact H2|].
  exact (@mixedIbmToIbms_cover small_parameters small_mixed_ibm 0 0 H1 H2).
Defined.

(** ** The performance metrics *)

Lemma len_div_bounds (a b : nat) (q : R) :
  a <= b -> len_div a b = Ok q -> (0 <= q <= 1)%R.
Proof.
  unfold len_div. intros Hle. destruct (Nat.eqb_spec b 0) as [|Hb]; [discriminate|].
  intros E. inversion E; subst. clear E.
  assert (Hpos : (0 < INR b)%R) by (apply lt_0_INR; lia).
  assert (Ha : (0 <= INR a)%R) by apply pos_INR.
  assert (Hab : (INR a <= INR b)%R) by (now apply le_INR).
  pose proof (Rinv_0_lt_compat _ Hpos) as Hinv.
  assert (Hone : (INR b * / INR b = 1)%R) by (apply Rinv_r; lra).
  unfold Rdiv. split; nra.
Qed.

Lemma len_div_zero (a b : nat) (q : R) :
  len_div a b = Ok q -> (q = 0%R <-> a = 0).
Proof.
  unfold len_div. destruct (Nat.eqb_spec b 0) as [|Hb]; [discriminate|].
  intros E. inversion E; subst. clear E.
  assert (Hpos : (0 < INR b)%R) by (apply lt_0_INR; lia).
  pose proof (Rinv_0_lt_compat _ Hpos) as Hinv.
  split.
  - intros Hq. unfold Rdiv in Hq.
    destruct (Nat.eq_dec a 0) as [|Ha]; [assumption|exfalso].
    assert (Hapos : (0 < INR a)%R) by (apply lt_0_INR; lia).
    nra.
  - intros ->. simpl. unfold Rdiv. lra.
Qed.

Lemma filter_not_in_nil (l1 l2 : list Z) :
  length (filter (fun a => negb (Z_in a l2)) l1) = 0 <-> incl l1 l2.
Proof.
  rewrite length_zero_iff_nil. split.
  - intros E a Ha. destruct (Z_in a l2) eqn:Ein; [now apply Z_in_spec|].
    assert (Hin : In a (filter (fun a => negb (Z_in a l2)) l1))
      by (apply filter_In; split; [assumption|now rewrite Ein]).
    rewrite E in Hin. contradiction.
  - intros Hincl. destruct (filter _ l1) as [|a l] eqn:E; [reflexivity|].
    assert (Hin : In a (filter (fun a => negb (Z_in a l2)) l1))
      by (rewrite E; now left).
    apply filter_In in Hin. destruct Hin as [Ha Hf].
    apply negb_true_iff in Hf. apply Hincl, Z_in_spec in Ha. congruence.
Qed.

Lemma flatten_ext (A : Type) (a b : ndarray A) :
  shape0 a = shape0 b -> shape1 a = shape1 b ->
  (forall t f, t < shape0 a -> f < shape1 a -> item a t f = item b t f) ->
  flatten a = flatten b.
Proof.
  intros H0 H1 Hitem. unfold flatten. rewrite <- H0, <- H1.
  assert (Hgen : forall l, (forall t, In t l -> t < shape0 a) ->
            flat_map (fun i => map (item a i) (seq 0 (shape1 a))) l =
            flat_map (fun i => map (item b i) (seq 0 (shape1 a))) l).
  { induction l as [|t l IH]; intros Hl; simpl; [reflexivity|].
    rewrite IH by (intros; apply Hl; now right). f_equal.
    apply map_ext_in. intros f Hf. apply in_seq in Hf.
    apply Hitem; [apply Hl; now left|lia]. }
  apply Hgen. intros t Ht. apply in_seq in Ht. lia.
Qed.

(** The encoded small targets hold the classes of [small_mixed_ibm]. *)
Lemma small_targets_encoded :
  exists mixed_ibm,
    dnnTargetToMixedIbm small_targets = Ok mixed_ibm /\
    flatten mixed_ibm = flatten small_mixed_ibm.
Proof.
  assert (Hrow : forall t f, t < 2 -> f < 2 ->
            row_argmax small_targets t f = Ok (if t =? 0 then 3 else 37)).
  { intros t f Ht Hf.
    apply (row_argmax_one_hot small_targets small_target).
    - destruct f as [|[|f]]; [reflexivity|reflexivity|lia].
    - exact Ht.
    - split; [simpl; destruct (t =? 0); lia|]. intros c _. reflexivity. }
  destruct (dnnTargetToMixedIbm_ok small_targets small_target eq_refl)
    as [m [Em [H0 [H1 Hitem]]]].
  { intros t f Ht Hf. eexists. apply Hrow; assumption. }
  exists m. split; [assumption|].
  apply flatten_ext; [exact H0|exact H1|].
  intros t f Ht Hf. rewrite H0 in Ht. rewrite H1 in Hf.
  rewrite (Hitem t f Ht Hf). unfold class_of_row. rewrite (Hrow t f Ht Hf).
  simpl. now destruct (t =? 0).
Qed.

Lemma small_targets_performance :
  exists p,
    @estimateNetsPerformance small_parameters [(-75)%Z] small_targets = Ok p.
Proof.
  destruct small_targets_encoded as [m [Em Hflat]].
  unfold estimateNetsPerformance. rewrite Em. simpl.
  rewrite mixedIbmToIbms_kept, Hflat.
  eexists. reflexivity.
Qed.

Section MetricFacts.
Context {P : parameters}.

(** X14. When [estimateNetsPerformance] returns, both rates lie between 0
    and 1. *)
Theorem estimateNetsPerformance_bounds (self_angles : list Z)
    (net_output : list (ndarray R)) (p : performance) :
  estimateNetsPerformance self_angles net_output = Ok p ->
  (0 <= source_md p <= 1)%R /\ (0 <= source_fa p <= 1)%R.
Proof.
  unfold estimateNetsPerformance.
  destruct (dnnTargetToMixedIbm net_output) as [m|]; simpl; [|discriminate].
  destruct (mixedIbmToIbms m) as [ibms angles].
  destruct (len_div _ (length self_angles)) as [md|] eqn:Emd; simpl; [|discriminate].
  destruct (len_div _ (length angles)) as [fa|] eqn:Efa; simpl; [|discriminate].
  intros E. inversion E; subst. simpl. split.
  - eapply len_div_bounds; [|exact Emd]. apply filter_length_le.
  - eapply len_div_bounds; [|exact Efa]. apply filter_length_le.
Qed.

(** X15. When [estimateNetsPerformance] returns, the miss rate is 0 exactly
    when every angle of the entry is among the decoded angles, and the
    false-alarm rate is 0 exactly when every decoded angle is an angle of
    the entry. *)
Theorem estimateNetsPerformance_zero_iff (self_angles : list Z)
    (net_output : list (ndarray R)) (p : performance) :
  estimateNetsPerformance self_angles net_output = Ok p ->
  exists mixed_ibm,
    dnnTargetToMixedIbm net_output = Ok mixed_ibm /\
    (source_md p = 0%R <-> incl self_angles (snd (mixedIbmToIbms mixed_ibm))) /\
    (source_fa p = 0%R <-> incl (snd (mixedIbmToIbms mixed_ibm)) self_angles).
Proof.
  unfold estimateNetsPerformance.
  destruct (dnnTargetToMixedIbm net_output) as [m|]; simpl; [|discriminate].
  destruct (mixedIbmToIbms m) as [ibms angles] eqn:Ed.
  destruct (len_div _ (length self_angles)) as [md|] eqn:Emd; simpl; [|discriminate].
  destruct (len_div _ (length angles)) as [fa|] eqn:Efa; simpl; [|discriminate].
  intros E. inversion E; subst. simpl. exists m. rewrite Ed. simpl.
  split; [reflexivity|]. split.
  - rewrite (len_div_zero _ _ _ Emd). apply filter_not_in_nil.
  - rewrite (len_div_zero _ _ _ Efa). apply filter_not_in_nil.
Qed.

End MetricFacts.

Lemma estimateNetsPerformance_bounds_witness :
  exists p,
    @estimateNetsPerformance small_parameters [(-75)%Z] small_targets = Ok p /\
    (0 <= source_md p <= 1)%R /\ (0 <= source_fa p <= 1)%R.
Proof.
  destruct small_targets_performance as [p E].
  exists p. split; [exact E|].
  exact (@estimateNetsPerformance_bounds small_parameters _ _ p E).
Defined.

Lemma estimateNetsPerformance_zero_iff_witness :
  exists p,
    @estimateNetsPerformance small_parameters [(-75)%Z] small_targets = Ok p /\
    exists mixed_ibm,
      dnnTargetToMixedIbm small_targets = Ok mixed_ibm /\
      (source_md p = 0%R <->
       incl [(-75)%Z] (snd (@mixedIbmToIbms small_parameters mixed_ibm))) /\
      (source_fa p = 0%R <->
       incl (snd (@mixedIbmToIbms small_parameters mixed_ibm)) [(-75)%Z]).
Proof.
  destruct small_targets_performance as [p E].
  exists p. split; [exact E|].
  exact (@estimateNetsPerformance_zero_iff small_parameters _ _ p E).
Defined.

(** ** The label synthesizer composed with the codec *)

Lemma on_grid_index (a : Z) :
  on_grid a -> (0 <= getAngleIdx a <= 36)%Z /\ getAngleFromIdx (getAngleIdx a) = a.
Proof.
  intros [Hrange Hmod]. unfold getAngleIdx, getAngleFromIdx.
  pose proof (Z_div_mod_eq_full a 5) as Hdiv. rewrite Hmod in Hdiv.
  replace (a + 90)%Z with ((a / 5 + 18) * 5)%Z by lia.
  rewrite Z.quot_mul by lia. lia.
Qed.

Lemma on_grid_direction_angles {P : parameters} (self_angles : list Z) :
  37 <= NUM_OF_DIRECTIONS -> Forall on_grid self_angles ->
  direction_angles self_angles.
Proof.
  intros Hnum Hall. unfold direction_angles.
  eapply Forall_impl; [|exact Hall].
  intros a Ha. apply on_grid_index in Ha. lia.
Qed.

Section LabelCodec.
Context {P : parameters}.
Variables (sgrams : list (ndarray R)) (noise_sgram : ndarray R) (self_angles : list Z).
Variables (T F : nat).
Hypothesis Hvalid : valid_sgrams sgrams noise_sgram T F.
Hypothesis Hlen : length self_angles = length sgrams.
Hypothesis Hdir : direction_angles self_angles.

(** The column of a bin, by the source that attains the maximum. *)
Lemma bin_column_spec (t f : nat) :
  exists max_ind max_angle,
    first_max (bin_vals sgrams t f) max_ind /\
    nth_error self_angles max_ind = Some max_angle /\
    (0 <= getAngleIdx max_angle < Z.of_nat NUM_OF_DIRECTIONS)%Z /\
    bin_column sgrams noise_sgram self_angles t f =
      if Rlt_dec (nth max_ind (bin_vals sgrams t f) 0%R)
                 (noise_threshold noise_sgram t f)
      then NUM_OF_DIRECTIONS else Z.to_nat (getAngleIdx max_angle).
Proof.
  destruct (argmax_spec _ (bin_vals_nonempty sgrams noise_sgram T F Hvalid t f))
    as [i [Ei [Ev Hmax]]].
  assert (Hi : i < length self_angles).
  { destruct Hmax as [Hi _]. unfold bin_vals in Hi. now rewrite length_map, <- Hlen in Hi. }
  destruct (nth_error self_angles i) as [a|] eqn:Ea;
    [|apply nth_error_None in Ea; lia].
  exists i, a. split; [assumption|]. split; [exact Ea|]. split.
  - pose proof Hdir as Hd. unfold direction_angles in Hd. rewrite Forall_forall in Hd.
    apply Hd. eapply nth_error_In; eauto.
  - unfold bin_column. rewrite Ei, Ev. now rewrite (nth_error_nth _ _ 0%Z Ea).
Qed.

(** X16. With a noise spectrogram that is zero everywhere and source
    magnitudes that are never negative, no bin gets the noise label: every
    row of every target is the one-hot row of the class of the first source
    that attains the maximum. *)
Theorem targets_of_sgrams_silent_noise :
  (forall t f, item noise_sgram t f = 0%R) ->
  Forall (fun sgram => forall t f, (0 <= item sgram t f)%R) sgrams ->
  exists targets,
    targets_of_sgrams sgrams noise_sgram self_angles = Ok targets /\
    forall t f, t < T -> f < F ->
      exists target max_ind max_angle,
        nth_error targets f = Some target /\
        first_max (bin_vals sgrams t f) max_ind /\
        nth_error self_angles max_ind = Some max_angle /\
        one_hot_at target t (Z.to_nat (getAngleIdx max_angle)) /\
        Z.to_nat (getAngleIdx max_angle) <> NUM_OF_DIRECTIONS.
Proof.
  intros Hnoise Hpos.
  destruct (targets_of_sgrams_labelled sgrams noise_sgram self_angles T F
              Hvalid Hlen Hdir) as [tg [Etg [Hl Hall]]].
  exists tg. split; [assumption|]. intros t f Ht Hf.
  destruct (Hall f Hf) as [tgt [Ef [H0 [H1 Hitem]]]].
  destruct (bin_column_spec t f) as [i [a [Hmax [Ea [Hidx Hcol]]]]].
  exists tgt, i, a. repeat (split; [assumption|]).
  assert (Hval : (0 <= nth i (bin_vals sgrams t f) 0)%R).
  { destruct Hmax as [Hi _]. unfold bin_vals in *. rewrite length_map in Hi.
    rewrite (nth_indep _ 0%R (item (nth i sgrams (zeros 0 0)) t f))
      by (now rewrite length_map).
    rewrite (map_nth (fun sgram => item sgram t f)).
    rewrite Forall_forall in Hpos. apply Hpos. now apply nth_In. }
  assert (Hth : noise_threshold noise_sgram t f = 0%R)
    by (unfold noise_threshold; rewrite Hnoise; lra).
  rewrite Hth in Hcol.
  destruct (Rlt_dec _ _) as [Hlt|_] in Hcol; [lra|].
  split; [|lia]. rewrite <- Hcol. split.
  - rewrite H1. apply (bin_column_bound sgrams noise_sgram self_angles T F); assumption.
  - intros c Hc. rewrite H1 in Hc. now rewrite (Hitem t c Ht Hc).
Qed.

Hypothesis HF : 0 < F.

(** The targets of the label synthesizer are encoded to the map of the
    columns of the bins. *)
Lemma targets_encoded :
  exists targets mixed_ibm,
    targets_of_sgrams sgrams noise_sgram self_angles = Ok targets /\
    dnnTargetToMixedIbm targets = Ok mixed_ibm /\
    shape0 mixed_ibm = T /\ shape1 mixed_ibm = F /\
    forall t f, t < T -> f < F ->
      item mixed_ibm t f = Z.of_nat (bin_column sgrams noise_sgram self_angles t f).
Proof.
  destruct (targets_of_sgrams_labelled sgrams noise_sgram self_angles T F
              Hvalid Hlen Hdir) as [tg [Etg [Hl Hall]]].
  assert (Hrow : forall t f, t < T -> f < F ->
            row_argmax tg t f = Ok (bin_column sgrams noise_sgram self_angles t f)).
  { intros t f Ht Hf. destruct (Hall f Hf) as [tgt [Ef [H0 [H1 Hitem]]]].
    apply (row_argmax_one_hot tg tgt); [assumption|lia|]. split.
    - rewrite H1. apply (bin_column_bound sgrams noise_sgram self_angles T F); assumption.
    - intros c Hc. rewrite H1 in Hc. now rewrite (Hitem t c Ht Hc). }
  destruct (Hall 0 HF) as [first [Efirst [H0 _]]].
  destruct (dnnTargetToMixedIbm_ok tg first Efirst) as [m [Em [Hm0 [Hm1 Hitem]]]].
  { intros t f Ht Hf. rewrite H0 in Ht. rewrite Hl in Hf. eauto. }
  exists tg, m. repeat split; try assumption; try congruence.
  intros t f Ht Hf. rewrite Hitem by congruence.
  unfold class_of_row. now rewrite (Hrow t f Ht Hf).
Qed.

(** X17. The targets of the label synthesizer, encoded by
    [dnnTargetToMixedIbm] as [saveDataSetRecord] does, give the class map
    of the dominant sources: the entry of a bin is the noise class when the
    largest source magnitude is strictly below the noise threshold, and
    otherwise the class index of the angle of the first source that attains
    it. *)
Theorem targets_mixed_ibm_labels :
  exists targets mixed_ibm,
    targets_of_sgrams sgrams noise_sgram self_angles = Ok targets /\
    dnnTargetToMixedIbm targets = Ok mixed_ibm /\
    shape0 mixed_ibm = T /\ shape1 mixed_ibm = F /\
    forall t f, t < T -> f < F ->
      exists max_ind max_angle,
        first_max (bin_vals sgrams t f) max_ind /\
        nth_error self_angles max_ind = Some max_angle /\
        item mixed_ibm t f =
          if Rlt_dec (nth max_ind (bin_vals sgrams t f) 0%R)
                     (noise_threshold noise_sgram t f)
          then Z.of_nat NUM_OF_DIRECTIONS else getAngleIdx max_angle.
Proof.
  destruct targets_encoded as [tg [m [Etg [Em [H0 [H1 Hitem]]]]]].
  exists tg, m. repeat split; try assumption.
  intros t f Ht Hf. destruct (bin_column_spec t f) as [i [a [Hmax [Ea [Hidx Hcol]]]]].
  exists i, a. split; [assumption|]. split; [assumption|].
  rewrite (Hitem t f Ht Hf), Hcol.
  destruct (Rlt_dec _ _); [reflexivity|]. apply Z2Nat.id. lia.
Qed.

End LabelCodec.

Section GroundTruth.
Context {P : parameters}.

(** X18. Evaluated on its own targets instead of predictions, a data entry
    with angles of the grid has no false alarm: every angle decoded from
    the encoded targets is the angle of a source, the false-alarm rate is
    0 whenever the evaluation returns, and it returns whenever some angle
    is decoded. *)
Theorem targets_no_false_alarm (sgrams : list (ndarray R)) (noise_sgram : ndarray R)
    (self_angles : list Z) (T F : nat) :
  valid_sgrams sgrams noise_sgram T F ->
  length self_angles = length sgrams ->
  Forall on_grid self_angles ->
  37 <= NUM_OF_DIRECTIONS ->
  0 < F ->
  exists targets mixed_ibm,
    targets_of_sgrams sgrams noise_sgram self_angles = Ok targets /\
    dnnTargetToMixedIbm targets = Ok mixed_ibm /\
    incl (snd (mixedIbmToIbms mixed_ibm)) self_angles /\
    (forall p, estimateNetsPerformance self_angles targets = Ok p ->
               source_fa p = 0%R) /\
    (snd (mixedIbmToIbms mixed_ibm) <> [] ->
     exists p, estimateNetsPerformance self_angles targets = Ok p /\
               source_fa p = 0%R).
Proof.
  intros Hvalid Hlen Hgrid Hnum HF.
  pose proof (on_grid_direction_angles self_angles Hnum Hgrid) as Hdir.
  destruct (targets_encoded sgrams noise_sgram self_angles T F Hvalid Hlen Hdir HF)
    as [tg [m [Etg [Em [H0 [H1 Hitem]]]]]].
  assert (Hincl : incl (snd (mixedIbmToIbms m)) self_angles).
  { rewrite mixedIbmToIbms_kept. cbn [snd]. intros a Ha.
    apply in_map_iff in Ha. destruct Ha as [c [<- Hc]].
    apply kept_classes_In in Hc. destruct Hc as [Hpos [_ Hc]].
    apply pixel_count_pos_item in Hpos. destruct Hpos as [t [f [Ht [Hf E]]]].
    rewrite H0 in Ht. rewrite H1 in Hf. rewrite (Hitem t f Ht Hf) in E.
    destruct (bin_column_spec sgrams noise_sgram self_angles T F Hvalid Hlen Hdir t f)
      as [i [b [_ [Eb [Hidx Hcol]]]]].
    rewrite Hcol in E. destruct (Rlt_dec _ _); [lia|].
    rewrite Z2Nat.id in E by lia. subst c.
    rewrite Forall_forall in Hgrid.
    destruct (on_grid_index b (Hgrid _ (nth_error_In _ _ Eb))) as [_ ->].
    eapply nth_error_In; eauto. }
  assert (Hfa : forall p, estimateNetsPerformance self_angles tg = Ok p ->
                  source_fa p = 0%R).
  { intros p. unfold estimateNetsPerformance. rewrite Em. simpl.
    destruct (mixedIbmToIbms m) as [ibms angles]. simpl in Hincl.
    destruct (len_div _ (length self_angles)) as [md|]; simpl; [|discriminate].
    destruct (len_div _ (length angles)) as [fa|] eqn:Efa; simpl; [|discriminate].
    intros E. inversion E; subst. simpl.
    apply (len_div_zero _ _ _ Efa). now apply filter_not_in_nil. }
  exists tg, m. split; [exact Etg|]. split; [exact Em|]. split; [exact Hincl|].
  split; [exact Hfa|].
  intros Hdec.
  assert (Hret : exists p, estimateNetsPerformance self_angles tg = Ok p).
  { unfold estimateNetsPerformance. rewrite Em. cbn [bind].
    destruct (mixedIbmToIbms m) as [ibms angles]. cbn [snd] in Hdec.
    assert (Hs : length self_angles <> 0).
    { rewrite Hlen. destruct Hvalid as [Hne _].
      destruct sgrams; [congruence|discriminate]. }
    assert (Ha : length angles <> 0) by (destruct angles; [congruence|discriminate]).
    unfold len_div.
    apply Nat.eqb_neq in Hs, Ha. rewrite Hs, Ha. cbn [bind].
    eexists. reflexivity. }
  destruct Hret as [p Ep]. exists p. split; [exact Ep|]. now apply Hfa.
Qed.

End GroundTruth.

Lemma small_angles_on_grid : Forall on_grid [0%Z; 45%Z].
Proof.
  repeat (apply Forall_cons; [split; [lia|reflexivity]|]). constructor.
Qed.

Lemma targets_mixed_ibm_labels_witness :
  valid_sgrams small_sgrams small_noise_sgram 1 2 /\
  length [0%Z; 45%Z] = length small_sgrams /\
  @direction_angles small_parameters [0%Z; 45%Z] /\
  0 < 2 /\
  exists targets mixed_ibm,
    @targets_of_sgrams small_parameters small_sgrams small_noise_sgram [0%Z; 45%Z]
      = Ok targets /\
    dnnTargetToMixedIbm targets = Ok mixed_ibm /\
    shape0 mixed_ibm = 1 /\ shape1 mixed_ibm = 2 /\
    forall t f, t < 1 -> f < 2 ->
      exists max_ind max_angle,
        first_max (bin_vals small_sgrams t f) max_ind /\
        nth_error [0%Z; 45%Z] max_ind = Some max_angle /\
        item mixed_ibm t f =
          if Rlt_dec (nth max_ind (bin_vals small_sgrams t f) 0%R)
                     (@noise_threshold small_parameters small_noise_sgram t f)
          then Z.of_nat (@NUM_OF_DIRECTIONS small_parameters)
          else getAngleIdx max_angle.
Proof.
  assert (HF : 0 < 2) by lia.
  split; [exact small_sgrams_valid|]. split; [reflexivity|].
  split; [exact small_angles_direction|]. split; [exact HF|].
  exact (@targets_mixed_ibm_labels small_parameters small_sgrams small_noise_sgram
           [0%Z; 45%Z] 1 2 small_sgrams_valid eq_refl small_angles_direction HF).
Defined.

Lemma small_sgrams_nonnegative :
  Forall (fun sgram : ndarray R => forall t f, (0 <= item sgram t f)%R) small_sgrams.
Proof.
  unfold small_sgrams.
  repeat (apply Forall_cons; [intros t f; simpl; destruct (f =? 0); lra|]).
  constructor.
Qed.

Lemma targets_of_sgrams_silent_noise_witness :
  valid_sgrams small_sgrams small_noise_sgram 1 2 /\
  length [0%Z; 45%Z] = length small_sgrams /\
  @direction_angles small_parameters [0%Z; 45%Z] /\
  (forall t f, item small_noise_sgram t f = 0%R) /\
  Forall (fun sgram : ndarray R => forall t f, (0 <= item sgram t f)%R) small_sgrams /\
  exists targets,
    @targets_of_sgrams small_parameters small_sgrams small_noise_sgram [0%Z; 45%Z]
      = Ok targets /\
    forall t f, t < 1 -> f < 2 ->
      exists target max_ind max_angle,
        nth_error targets f = Some target /\
        first_max (bin_vals small_sgrams t f) max_ind /\
        nth_error [0%Z; 45%Z] max_ind = Some max_angle /\
        one_hot_at target t (Z.to_nat (getAngleIdx max_angle)) /\
        Z.to_nat (getAngleIdx max_angle) <> @NUM_OF_DIRECTIONS small_parameters.
Proof.
  assert (Hnoise : forall t f, item small_noise_sgram t f = 0%R) by reflexivity.
  split; [exact small_sgrams_valid|]. split; [reflexivity|].
  split; [exact small_angles_direction|]. split; [exact Hnoise|].
  split; [exact small_sgrams_nonnegative|].
  exact (@targets_of_sgrams_silent_noise small_parameters small_sgrams
           small_noise_sgram [0%Z; 45%Z] 1 2 small_sgrams_valid eq_refl
           small_angles_direction Hnoise small_sgrams_nonnegative).
Defined.

Lemma dominant_sgrams_valid : valid_sgrams dominant_sgrams dominant_noise_sgram 2 2.
Proof.
  unfold valid_sgrams, dominant_sgrams. split; [discriminate|].
  split; [|split; reflexivity].
  repeat constructor.
Qed.

(** The first source is the loudest in channel 0 and the second in
    channel 1, in both time frames, and the noise reference is silent. *)
Lemma dominant_bin_column (t f : nat) :
  f < 2 ->
  @bin_column small_parameters dominant_sgrams dominant_noise_sgram [0%Z; 45%Z] t f
  = if f =? 0 then 18 else 27.
Proof.
  intros Hf. unfold bin_column, bin_vals, noise_threshold, dominant_sgrams.
  assert (Hth : forall x : R, (item dominant_noise_sgram t f * x = 0)%R)
    by (intros x; unfold dominant_noise_sgram, zeros; cbn [item]; lra).
  rewrite Hth.
  destruct f as [|[|f]]; [| |lia]; cbn [map item Nat.eqb argmax amax argmax_from].
  - destruct (Rlt_dec 3 1) as [H|_]; [lra|]. cbn [fst snd].
    destruct (Rlt_dec 3 0) as [H|_]; [lra|]. reflexivity.
  - destruct (Rlt_dec 1 2) as [_|N]; [|lra]. cbn [fst snd].
    destruct (Rlt_dec 2 0) as [H|_]; [lra|]. reflexivity.
Qed.

(** The targets of the dominant sources are encoded to the class map of
    the two sources, from which both angles are decoded. *)
Lemma dominant_targets_decoded :
  exists targets mixed_ibm,
    @targets_of_sgrams small_parameters dominant_sgrams dominant_noise_sgram
      [0%Z; 45%Z] = Ok targets /\
    dnnTargetToMixedIbm targets = Ok mixed_ibm /\
    snd (@mixedIbmToIbms small_parameters mixed_ibm) = [0%Z; 45%Z].
Proof.
  assert (HF : 0 < 2) by lia.
  destruct (@targets_encoded small_parameters dominant_sgrams dominant_noise_sgram
              [0%Z; 45%Z] 2 2 dominant_sgrams_valid eq_refl small_angles_direction HF)
    as [tg [m [Etg [Em [H0 [H1 Hitem]]]]]].
  exists tg, m. split; [exact Etg|]. split; [exact Em|].
  assert (Hflat : flatten m = flatten dominant_mixed_ibm).
  { apply flatten_ext; [exact H0|exact H1|].
    intros t f Ht Hf. rewrite H0 in Ht. rewrite H1 in Hf.
    rewrite (Hitem t f Ht Hf), (dominant_bin_column t f Hf).
    cbn [dominant_mixed_ibm item]. now destruct (f =? 0). }
  rewrite mixedIbmToIbms_kept, Hflat. reflexivity.
Qed.

(** On its own targets the entry of the dominant sources is evaluated, and
    no decoded angle is a false alarm. *)
Lemma dominant_targets_performance :
  exists targets p,
    @targets_of_sgrams small_parameters dominant_sgrams dominant_noise_sgram
      [0%Z; 45%Z] = Ok targets /\
    @estimateNetsPerformance small_parameters [0%Z; 45%Z] targets = Ok p /\
    source_fa p = 0%R.
Proof.
  destruct dominant_targets_decoded as [tg [m [Etg [Em Hdec]]]].
  exists tg. unfold estimateNetsPerformance. rewrite Em. cbn [bind].
  destruct (@mixedIbmToIbms small_parameters m) as [ibms angles].
  cbn [snd] in Hdec. subst angles.
  eexists. split; [exact Etg|]. split; [reflexivity|].
  cbn [source_fa]. simpl. unfold Rdiv. apply Rmult_0_l.
Qed.

Lemma targets_no_false_alarm_witness :
  valid_sgrams dominant_sgrams dominant_noise_sgram 2 2 /\
  length [0%Z; 45%Z] = length dominant_sgrams /\
  Forall on_grid [0%Z; 45%Z] /\
  37 <= @NUM_OF_DIRECTIONS small_parameters /\
  0 < 2 /\
  (exists targets mixed_ibm,
    @targets_of_sgrams small_parameters dominant_sgrams dominant_noise_sgram
      [0%Z; 45%Z] = Ok targets /\
    dnnTargetToMixedIbm targets = Ok mixed_ibm /\
    incl (snd (@mixedIbmToIbms small_parameters mixed_ibm)) [0%Z; 45%Z] /\
    (forall p, @estimateNetsPerformance small_parameters [0%Z; 45%Z] targets = Ok p ->
               source_fa p = 0%R) /\
    (snd (@mixedIbmToIbms small_parameters mixed_ibm) <> [] ->
     exists p, @estimateNetsPerformance small_parameters [0%Z; 45%Z] targets = Ok p /\
               source_fa p = 0%R)) /\
  (exists targets mixed_ibm,
    @targets_of_sgrams small_parameters dominant_sgrams dominant_noise_sgram
      [0%Z; 45%Z] = Ok targets /\
    dnnTargetToMixedIbm targets = Ok mixed_ibm /\
    snd (@mixedIbmToIbms small_parameters mixed_ibm) = [0%Z; 45%Z]) /\
  (exists targets p,
    @targets_of_sgrams small_parameters dominant_sgrams dominant_noise_sgram
      [0%Z; 45%Z] = Ok targets /\
    @estimateNetsPerformance small_parameters [0%Z; 45%Z] targets = Ok p /\
    source_fa p = 0%R).
Proof.
  assert (Hnum : 37 <= @NUM_OF_DIRECTIONS small_parameters) by (simpl; lia).
  assert (HF : 0 < 2) by lia.
  split; [exact dominant_sgrams_valid|]. split; [reflexivity|].
  split; [exact small_angles_on_grid|]. split; [exact Hnum|]. split; [exact HF|].
  split; [|split; [exact dominant_targets_decoded|exact dominant_targets_performance]].
  exact (@targets_no_false_alarm small_parameters dominant_sgrams dominant_noise_sgram
           [0%Z; 45%Z] 2 2 dominant_sgrams_valid eq_refl small_angles_on_grid Hnum HF).
Defined.

(** ** What a constructed data entry holds *)

Lemma allocation_in_angles_list (self_angles : list Z) :
  allocation self_angles ->
  NoDup self_angles /\ Forall (fun a => In a angles_list) self_angles.
Proof.
  induction 1 as [|angles r a Halloc [IHnd IHin] Hcall].
  - split; constructor.
  - unfold getRandomAngle in Hcall. apply random_choice_In in Hcall.
    apply filter_In in Hcall. destruct Hcall as [Hin Hf].
    apply negb_true_iff in Hf. split.
    + apply NoDup_snoc; [assumption|]. intros Hc. apply Z_in_spec in Hc. congruence.
    + apply Forall_app. split; [assumption|]. now constructor.
Qed.

Lemma allocation_length (self_angles : list Z) :
  allocation self_angles -> length self_angles <= 37.
Proof.
  intros H. apply allocation_in_angles_list in H. destruct H as [Hnd Hin].
  change 37 with (length angles_list). apply NoDup_incl_length; [assumption|].
  intros a Ha. rewrite Forall_forall in Hin. now apply Hin.
Qed.

Section ConstructorState.
Context {P : parameters}.
Variables (brir : brir_table) (pos_def : ndarray R) (rand : nat -> nat).

(** What the loop of the constructor has done when it ends normally. *)
Lemma init_loop_ok (in_signals : list (list R)) :
  forall self self',
    init_loop brir pos_def rand in_signals self = (Ok tt, self') ->
    exists new_angles new_signals,
      angles self' = angles self ++ new_angles /\
      signals self' = signals self ++ new_signals /\
      noise self' = noise self /\
      targets self' = targets self /\
      res_signal self' = fold_left stereo_add new_signals (res_signal self) /\
      Forall (fun signal => length signal = signal_length_samples) in_signals /\
      length new_angles = length in_signals /\
      length new_signals = length in_signals /\
      forall k signal, nth_error in_signals k = Some signal ->
        exists angle binaural_signal,
          nth_error new_angles k = Some angle /\
          nth_error new_signals k = Some binaural_signal /\
          getBinauralSound (normalize_signal signal) brir pos_def angle
            = Ok binaural_signal.
Proof.
  induction in_signals as [|signal l IH]; intros self self' E; simpl in E.
  - inversion E; subst. exists [], []. rewrite !app_nil_r.
    repeat split; try constructor. intros k s Hk. destruct k; discriminate.
  - destruct (Nat.eqb_spec (length signal) signal_length_samples) as [Hlen|];
      simpl in E; [|discriminate].
    destruct (getRandomAngle _ _) as [angle|e] eqn:Ea; [|discriminate].
    destruct (getBinauralSound _ _ _ _) as [b|e] eqn:Eb; [|discriminate].
    apply IH in E. cbn [angles signals noise targets res_signal] in E.
    destruct E as [na [ns [Ha [Hs [Hn [Ht [Hr [Hall [Hla [Hls Hk]]]]]]]]]].
    exists (angle :: na), (b :: ns).
    rewrite Ha, Hs, <- !app_assoc. simpl.
    repeat split; try assumption; try lia.
    + constructor; assumption.
    + intros k s Hs'. destruct k as [|k]; simpl in *.
      * inversion Hs'; subst. eauto.
      * now apply Hk.
Qed.

Context {F : features}.

Lemma init_ok (in_signals : list (list R)) (self : DataEntry) :
  init in_signals brir pos_def rand = (Ok tt, self) ->
  exists first rest self1,
    in_signals = first :: rest /\
    init_loop brir pos_def rand in_signals (init_self first) = (Ok tt, self1) /\
    updateTargetsFromSignals (signals self1) (noise self1) (angles self1)
      = Ok (targets self) /\
    signals self = signals self1 /\ angles self = angles self1 /\
    noise self = noise self1 /\ res_signal self = res_signal self1.
Proof.
  unfold init. destruct in_signals as [|first rest]; [discriminate|].
  destruct (init_loop brir pos_def rand (first :: rest) (init_self first))
    as [[[]|e] self1] eqn:Eloop; [|discriminate].
  destruct (updateTargetsFromSignals _ _ _) as [tg|e] eqn:Etg; [|discriminate].
  intros E. inversion E; subst. simpl.
  exists first, rest, self1. repeat split; assumption.
Qed.

(** X19. In a data entry that was built, there is one angle per input
    signal, the angles are pairwise different angles of the grid, there are
    at most 37 of them, every input signal has the configured number of
    samples, and the noise reference is silence of the length of the first
    signal. *)
Theorem init_entry_invariants (in_signals : list (list R)) (self : DataEntry) :
  init in_signals brir pos_def rand = (Ok tt, self) ->
  length (angles self) = length in_signals /\
  NoDup (angles self) /\
  Forall on_grid (angles self) /\
  length in_signals <= 37 /\
  Forall (fun signal => length signal = signal_length_samples) in_signals /\
  noise self = map (fun _ => 0%R) (hd [] in_signals).
Proof.
  intros E.
  pose proof (init_angles_distinct in_signals brir pos_def rand _ _ E) as Halloc.
  apply init_ok in E.
  destruct E as [first [rest [self1 [-> [Eloop [_ [_ [Ha [Hn _]]]]]]]]].
  apply init_loop_ok in Eloop.
  destruct Eloop as [na [ns [Ha1 [_ [Hn1 [_ [_ [Hall [Hla _]]]]]]]]].
  simpl in Ha1, Hn1.
  assert (Hlen : length (angles self) = length (first :: rest)) by congruence.
  pose proof (allocation_length _ Halloc) as H37.
  pose proof (allocation_in_angles_list _ Halloc) as [Hnd Hin].
  repeat split; try assumption.
  - eapply Forall_impl; [|exact Hin]. apply angles_list_on_grid.
  - lia.
  - simpl. congruence.
Qed.

(** X20. Construction never succeeds for more than 37 input signals: the
    grid has 37 angles, and the allocator fails once they are used up. *)
Theorem init_too_many_sources (in_signals : list (list R)) (self : DataEntry) :
  37 < length in_signals ->
  init in_signals brir pos_def rand <> (Ok tt, self).
Proof.
  intros Hmany E.
  pose proof (init_angles_distinct in_signals brir pos_def rand _ _ E) as Halloc.
  apply allocation_length in Halloc.
  apply init_ok in E.
  destruct E as [first [rest [self1 [-> [Eloop [_ [_ [Ha _]]]]]]]].
  apply init_loop_ok in Eloop.
  destruct Eloop as [na [ns [Ha1 [_ [_ [_ [_ [_ [Hla _]]]]]]]]].
  simpl in Ha1. rewrite Ha, Ha1, Hla in Halloc. lia.
Qed.

(** X21. In a data entry that was built, the k-th rendered signal is the
    binaural rendering of the k-th input signal, normalised, at the k-th
    angle, and the mixture is the sum of the rendered signals, added in
    order to a silent signal of the configured length. *)
Theorem init_mixture (in_signals : list (list R)) (self : DataEntry) :
  init in_signals brir pos_def rand = (Ok tt, self) ->
  (forall k signal, nth_error in_signals k = Some signal ->
     exists angle binaural_signal,
       nth_error (angles self) k = Some angle /\
       nth_error (signals self) k = Some binaural_signal /\
       getBinauralSound (normalize_signal signal) brir pos_def angle
         = Ok binaural_signal) /\
  res_signal self =
    fold_left stereo_add (signals self)
      (repeat 0%R signal_length_samples, repeat 0%R signal_length_samples).
Proof.
  intros E. apply init_ok in E.
  destruct E as [first [rest [self1 [-> [Eloop [_ [Hs [Ha [_ Hr]]]]]]]]].
  apply init_loop_ok in Eloop.
  destruct Eloop as [na [ns [Ha1 [Hs1 [_ [_ [Hr1 [_ [_ [_ Hk]]]]]]]]]].
  simpl in Ha1, Hs1, Hr1. rewrite Ha, Hs, Hr, Ha1, Hs1, Hr1.
  split; [exact Hk|reflexivity].
Qed.

End ConstructorState.

(** ** When construction succeeds *)

Lemma getBinauralSound_ok (audio_in : list R) (brir : brir_table)
    (pos_def : ndarray R) (angle : Z) :
  (-90 <= angle <= 90)%Z ->
  0 < shape0 pos_def -> 0 < shape1 pos_def -> shape0 pos_def <= length brir ->
  exists audio_out, getBinauralSound audio_in brir pos_def angle = Ok audio_out.
Proof.
  intros Hr Hrows Hcols Hbrir. rewrite getBinauralSound_in_range by assumption.
  unfold getcol. apply Nat.ltb_lt in Hcols. rewrite Hcols. simpl.
  set (angles := map (fun i => item pos_def i 0) (seq 0 (shape0 pos_def))).
  assert (Hlen : length angles = shape0 pos_def)
    by (unfold angles; now rewrite length_map, length_seq).
  set (val := IZR (if (angle <? 0)%Z then angle + 360 else angle)%Z).
  destruct (argmin_spec (map (fun a => Rabs (a - val)) angles)) as [k [E [Hk _]]].
  { destruct angles; [simpl in Hlen; lia|discriminate]. }
  rewrite length_map, Hlen in Hk.
  unfold find_closest_idx_in_array. rewrite E. simpl.
  destruct (nth_error brir k) as [d|] eqn:Ed; [|apply nth_error_None in Ed; lia].
  unfold list_getitem. rewrite Ed. simpl. eauto.
Qed.

Lemma length_stereo_add_fold (n : nat) (l : list stereo) :
  forall acc,
    length (fst acc) = n -> length (snd acc) = n ->
    Forall (fun b => length (fst b) = n /\ length (snd b) = n) l ->
    length (fst (fold_left stereo_add l acc)) = n /\
    length (snd (fold_left stereo_add l acc)) = n.
Proof.
  induction l as [|b l IH]; intros acc H1 H2 Hall; simpl; [auto|].
  inversion Hall as [|? ? [Hb1 Hb2] Hl]; subst. apply IH; [| |assumption].
  - unfold stereo_add. simpl. rewrite length_map, length_combine. lia.
  - unfold stereo_add. simpl. rewrite length_map, length_combine. lia.
Qed.

Section ConstructorReturns.
Context {P : parameters}.
Variables (brir : brir_table) (pos_def : ndarray R) (rand : nat -> nat).
Hypothesis Hrows : 0 < shape0 pos_def.
Hypothesis Hcols : 0 < shape1 pos_def.
Hypothesis Hbrir : shape0 pos_def <= length brir.

Lemma init_loop_returns (in_signals : list (list R)) :
  forall self,
    Forall (fun signal => length signal = signal_length_samples) in_signals ->
    length (angles self) + length in_signals <= 37 ->
    exists self', init_loop brir pos_def rand in_signals self = (Ok tt, self').
Proof.
  induction in_signals as [|signal l IH]; intros self Hall Hcount; simpl.
  - eauto.
  - inversion Hall as [|? ? Hlen Hall']; subst.
    apply Nat.eqb_eq in Hlen. rewrite Hlen. simpl.
    destruct (getRandomAngle_returns (rand (length (angles self))) (angles self))
      as [angle Ea]; [simpl in Hcount; lia|].
    rewrite Ea.
    pose proof (getRandomAngle_sound _ _ _ Ea) as [[Hrange _] _].
    destruct (getBinauralSound_ok (normalize_signal signal) brir pos_def angle)
      as [b Eb]; try assumption.
    rewrite Eb. apply IH; [assumption|].
    cbn [angles]. rewrite length_app. simpl in *. lia.
Qed.

Context {F : features}.
Variables (T Fch : nat).
Hypothesis Htaps : Forall (fun d => fst d <> [] /\ snd d <> []) brir.
Hypothesis Hsgram : forall s, length s = signal_length_samples ->
  shape0 (getSpectrogram s) = T /\ shape1 (getSpectrogram s) = Fch.
Hypothesis Hnum : 37 <= NUM_OF_DIRECTIONS.

(** X22. Construction succeeds for 1 to 37 input signals of the configured
    length, a position table with at least one row and one column, an
    impulse-response table with a non-empty pair of responses for every row,
    at least 37 direction classes, and a spectrogram whose shape is the same
    for all signals of the configured length. *)
Theorem init_returns (in_signals : list (list R)) :
  in_signals <> [] ->
  length in_signals <= 37 ->
  Forall (fun signal => length signal = signal_length_samples) in_signals ->
  exists self, init in_signals brir pos_def rand = (Ok tt, self).
Proof.
  intros Hne Hcount Hall.
  destruct in_signals as [|first rest] eqn:Ein; [congruence|]. rewrite <- Ein in *.
  destruct (init_loop_returns in_signals (init_self first) Hall) as [self1 Eloop];
    [simpl; lia|].
  pose proof (init_loop_allocation brir pos_def rand in_signals (init_self first)
                (Ok tt) self1 alloc_none Eloop) as Halloc.
  pose proof (init_loop_ok brir pos_def rand in_signals _ _ Eloop)
    as [na [ns [Ha [Hs [Hn [_ [_ [_ [Hla [Hls Hk]]]]]]]]]].
  simpl in Ha, Hs, Hn.
  assert (Hfirst : length first = signal_length_samples).
  { rewrite Ein in Hall. now inversion Hall. }
  assert (Hrendered : Forall (fun b : stereo => length (fst b) = signal_length_samples)
                             (signals self1)).
  { rewrite Hs. apply Forall_forall. intros b Hb.
    destruct (In_nth_error _ _ Hb) as [k Ek].
    assert (Hklt : k < length in_signals)
      by (rewrite <- Hls; apply nth_error_Some; congruence).
    destruct (nth_error in_signals k) as [signal|] eqn:Esig;
      [|apply nth_error_None in Esig; lia].
    destruct (Hk k signal Esig) as [angle [b' [_ [Eb' Erender]]]].
    assert (b' = b) by congruence. subst b'.
    destruct (getBinauralSound_length _ _ _ _ _ Htaps Erender) as [H1 _].
    rewrite H1. unfold normalize_signal. rewrite length_map.
    rewrite Forall_forall in Hall. apply Hall. eapply nth_error_In; eauto. }
  destruct (@targets_of_sgrams_labelled P
              (map (fun b : list R * list R => getSpectrogram (fst b)) (signals self1))
              (getSpectrogram (noise self1)) (angles self1) T Fch)
    as [tg [Etg _]].
  - split; [|split].
    + rewrite Hs. destruct ns; [rewrite Ein in Hls; discriminate|discriminate].
    + apply Forall_forall. intros sg Hsg. apply in_map_iff in Hsg.
      destruct Hsg as [b [<- Hb]]. apply Hsgram.
      rewrite Forall_forall in Hrendered. now apply Hrendered.
    + apply Hsgram. rewrite Hn. now rewrite length_map.
  - rewrite length_map, Ha, Hs.
    transitivity (length in_signals); [exact Hla|symmetry; exact Hls].
  - apply on_grid_direction_angles; [assumption|].
    apply allocation_in_angles_list in Halloc. destruct Halloc as [_ Hin].
    eapply Forall_impl; [|exact Hin]. apply angles_list_on_grid.
  - unfold init. subst in_signals. cbv beta iota. rewrite Eloop.
    unfold updateTargetsFromSignals. rewrite Etg. eauto.
Qed.

End ConstructorReturns.

Section ConstructorLengths.
Context {P : parameters} {F : features}.
Variables (brir : brir_table) (pos_def : ndarray R) (rand : nat -> nat).
Hypothesis Htaps : Forall (fun d => fst d <> [] /\ snd d <> []) brir.

(** X23. In a data entry that was built from an impulse-response table
    without empty responses, both channels of every rendered signal and of
    the mixture have the configured number of samples. *)
Theorem init_signal_lengths (in_signals : list (list R)) (self : DataEntry) :
  init in_signals brir pos_def rand = (Ok tt, self) ->
  Forall (fun b : stereo => length (fst b) = signal_length_samples /\
                            length (snd b) = signal_length_samples) (signals self) /\
  length (fst (res_signal self)) = signal_length_samples /\
  length (snd (res_signal self)) = signal_length_samples.
Proof.
  intros E. apply init_ok in E.
  destruct E as [first [rest [self1 [-> [Eloop [_ [Hs [_ [_ Hr]]]]]]]]].
  apply init_loop_ok in Eloop.
  destruct Eloop as [na [ns [_ [Hs1 [_ [_ [Hr1 [Hall [_ [Hls Hk]]]]]]]]]].
  simpl in Hs1, Hr1. rewrite Hs, Hr, Hs1, Hr1.
  assert (Hrendered : Forall (fun b : stereo => length (fst b) = signal_length_samples /\
                                length (snd b) = signal_length_samples) ns).
  { apply Forall_forall. intros b Hb.
    destruct (In_nth_error _ _ Hb) as [k Ek].
    assert (Hklt : k < length (first :: rest))
      by (rewrite <- Hls; apply nth_error_Some; congruence).
    destruct (nth_error (first :: rest) k) as [signal|] eqn:Esig;
      [|apply nth_error_None in Esig; lia].
    destruct (Hk k signal Esig) as [angle [b' [_ [Eb' Erender]]]].
    assert (b' = b) by congruence. subst b'.
    destruct (getBinauralSound_length _ _ _ _ _ Htaps Erender) as [H1 H2].
    rewrite H1, H2. unfold normalize_signal. rewrite length_map.
    rewrite Forall_forall in Hall. split; apply Hall; eapply nth_error_In; eauto. }
  split; [assumption|].
  apply length_stereo_add_fold; [apply repeat_length|apply repeat_length|assumption].
Qed.

End ConstructorLengths.

Lemma small_brir_taps :
  Forall (fun d : list R * list R => fst d <> [] /\ snd d <> []) small_brir.
Proof.
  repeat constructor; discriminate.
Qed.

Lemma init_entry_invariants_witness :
  exists self,
    @init small_parameters energy_features [small_signal] small_brir small_pos_def
      small_rand = (Ok tt, self) /\
    length (angles self) = length [small_signal] /\
    NoDup (angles self) /\
    Forall on_grid (angles self) /\
    length [small_signal] <= 37 /\
    Forall (fun signal : list R =>
              length signal = @signal_length_samples small_parameters)
           [small_signal] /\
    noise self = map (fun _ : R => 0%R) (hd [] [small_signal]).
Proof.
  destruct small_entry_built as [self [E _]].
  exists self. split; [exact E|].
  exact (@init_entry_invariants small_parameters small_brir small_pos_def small_rand
           energy_features [small_signal] self E).
Defined.

Lemma init_too_many_sources_witness :
  37 < length (repeat small_signal 38) /\
  @init small_parameters energy_features (repeat small_signal 38) small_brir
    small_pos_def small_rand
  <> (Ok tt, @init_self small_parameters small_signal).
Proof.
  assert (H : 37 < length (repeat small_signal 38)) by (rewrite repeat_length; lia).
  split; [exact H|].
  exact (@init_too_many_sources small_parameters small_brir small_pos_def small_rand
           energy_features (repeat small_signal 38)
           (@init_self small_parameters small_signal) H).
Defined.

Lemma init_mixture_witness :
  exists self,
    @init small_parameters energy_features [small_signal] small_brir small_pos_def
      small_rand = (Ok tt, self) /\
    (forall (k : nat) (signal : list R),
       nth_error [small_signal] k = Some signal ->
       exists (angle : Z) (binaural_signal : stereo),
         nth_error (angles self) k = Some angle /\
         nth_error (signals self) k = Some binaural_signal /\
         getBinauralSound (@normalize_signal small_parameters signal) small_brir
           small_pos_def angle = Ok binaural_signal) /\
    res_signal self =
      fold_left (@stereo_add) (signals self)
        (repeat 0%R (@signal_length_samples small_parameters),
         repeat 0%R (@signal_length_samples small_parameters)).
Proof.
  destruct small_entry_built as [self [E _]].
  exists self. split; [exact E|].
  exact (@init_mixture small_parameters small_brir small_pos_def small_rand
           energy_features [small_signal] self E).
Defined.

Lemma init_returns_witness :
  0 < shape0 small_pos_def /\ 0 < shape1 small_pos_def /\
  shape0 small_pos_def <= length small_brir /\
  Forall (fun d : list R * list R => fst d <> [] /\ snd d <> []) small_brir /\
  (forall s : list R, length s = @signal_length_samples small_parameters ->
     shape0 (@getSpectrogram energy_features s) = 1 /\
     shape1 (@getSpectrogram energy_features s) = 1) /\
  37 <= @NUM_OF_DIRECTIONS small_parameters /\
  [small_signal; small_signal] <> [] /\
  length [small_signal; small_signal] <= 37 /\
  Forall (fun signal : list R => length signal = @signal_length_samples small_parameters)
         [small_signal; small_signal] /\
  exists self,
    @init small_parameters energy_features [small_signal; small_signal] small_brir
      small_pos_def small_rand = (Ok tt, self).
Proof.
  assert (H1 : 0 < shape0 small_pos_def) by (simpl; lia).
  assert (H2 : 0 < shape1 small_pos_def) by (simpl; lia).
  assert (H3 : shape0 small_pos_def <= length small_brir) by (simpl; lia).
  assert (H5 : forall s : list R, length s = @signal_length_samples small_parameters ->
     shape0 (@getSpectrogram energy_features s) = 1 /\
     shape1 (@getSpectrogram energy_features s) = 1) by (intros; split; reflexivity).
  assert (H6 : 37 <= @NUM_OF_DIRECTIONS small_parameters) by (simpl; lia).
  assert (H7 : [small_signal; small_signal] <> []) by discriminate.
  assert (H8 : length [small_signal; small_signal] <= 37) by (simpl; lia).
  assert (H9 : Forall (fun signal : list R =>
                         length signal = @signal_length_samples small_parameters)
                      [small_signal; small_signal])
    by (repeat constructor).
  repeat (split; [assumption|]). split; [exact small_brir_taps|].
  repeat (split; [assumption|]).
  exact (@init_returns small_parameters small_brir small_pos_def small_rand H1 H2 H3
           energy_features 1 1 small_brir_taps H5 H6 [small_signal; small_signal]
           H7 H8 H9).
Defined.

Lemma init_signal_lengths_witness :
  Forall (fun d : list R * list R => fst d <> [] /\ snd d <> []) small_brir /\
  exists self,
    @init small_parameters energy_features [small_signal] small_brir small_pos_def
      small_rand = (Ok tt, self) /\
    Forall (fun b : stereo =>
              length (fst b) = @signal_length_samples small_parameters /\
              length (snd b) = @signal_length_samples small_parameters)
           (signals self) /\
    length (fst (res_signal self)) = @signal_length_samples small_parameters /\
    length (snd (res_signal self)) = @signal_length_samples small_parameters.
Proof.
  split; [exact small_brir_taps|].
  destruct small_entry_built as [self [E _]].
  exists self. split; [exact E|].
  exact (@init_signal_lengths small_parameters energy_features small_brir
           small_pos_def small_rand small_brir_taps [small_signal] self E).
Defined.

(** ** The level of a normalised signal *)

Lemma sumsq_scaled (r c : R) (l : list R) :
  fold_right (fun x acc => (x * x + acc)%R) 0%R (map (fun x => (x / r * c)%R) l) =
  (c / r * (c / r) * fold_right (fun x acc => (x * x + acc)%R) 0%R l)%R.
Proof.
  induction l as [|x l IH]; simpl; [lra|]. rewrite IH. unfold Rdiv. ring.
Qed.

(** X24. For a signal with a non-zero sample, the normalised signal has the
    root-mean-square value [|INPUT_SIGNAL_RMS| * sqrt(norm(signal))]: it
    depends on the level of the input, and is the reference level only for
    an input of Euclidean norm 1. *)
Theorem normalize_signal_rms {P : parameters} (signal : list R) :
  (0 < linalg_norm signal)%R ->
  rms_spec (normalize_signal signal) =
  (Rabs INPUT_SIGNAL_RMS * sqrt (linalg_norm signal))%R.
Proof.
  intros Hnorm. unfold normalize_signal, rms_spec.
  rewrite sumsq_scaled, length_map.
  set (c := INPUT_SIGNAL_RMS). set (r := getArrayRms signal).
  set (S := fold_right (fun x acc => (x * x + acc)%R) 0%R signal).
  assert (HS : (0 < S)%R).
  { destruct (Rle_lt_dec S 0) as [Hle|Hlt]; [|assumption].
    unfold linalg_norm in Hnorm. fold S in Hnorm.
    rewrite (sqrt_neg_0 S Hle) in Hnorm. lra. }
  assert (Hn : (0 < INR (length signal))%R).
  { apply lt_0_INR. destruct signal; [unfold S in HS; simpl in HS; lra|simpl; lia]. }
  assert (HnS : (linalg_norm signal * linalg_norm signal = S)%R)
    by (unfold linalg_norm; fold S; apply sqrt_sqrt; lra).
  assert (Hq : (0 < linalg_norm signal / INR (length signal))%R)
    by (apply Rdiv_lt_0_compat; assumption).
  assert (Hr : (0 < r)%R) by (unfold r, getArrayRms; now apply sqrt_lt_R0).
  assert (Hr2 : (r * r = linalg_norm signal / INR (length signal))%R)
    by (unfold r, getArrayRms; apply sqrt_sqrt; lra).
  replace (c / r * (c / r) * S / INR (length signal))%R
    with (Rsqr c * linalg_norm signal)%R.
  - rewrite sqrt_mult; [|apply Rle_0_sqr|lra]. now rewrite sqrt_Rsqr_abs.
  - rewrite <- HnS. unfold Rsqr.
    replace (c / r * (c / r) * (linalg_norm signal * linalg_norm signal)
             / INR (length signal))%R
      with (c * c * linalg_norm signal
            * ((linalg_norm signal / INR (length signal)) / (r * r)))%R
      by (field; split; lra).
    rewrite <- Hr2. field. lra.
Qed.

Lemma normalize_signal_rms_witness :
  (0 < linalg_norm small_signal)%R /\
  rms_spec (@normalize_signal small_parameters small_signal) =
  (Rabs (@INPUT_SIGNAL_RMS small_parameters) * sqrt (linalg_norm small_signal))%R.
Proof.
  assert (H : (0 < linalg_norm small_signal)%R).
  { unfold linalg_norm, small_signal. simpl.
    apply sqrt_lt_R0. lra. }
  split; [exact H|].
  exact (@normalize_signal_rms small_parameters small_signal H).
Defined.

(** ** Concatenation that skips empty arrays *)

Lemma seq_shift_add (s n : nat) : seq s n = map (fun i => s + i) (seq 0 n).
Proof.
  revert s. induction n as [|n IH]; intros s; simpl; [reflexivity|].
  rewrite Nat.add_0_r. f_equal. rewrite (IH (S s)), <- seq_shift, map_map.
  apply map_ext. intros i. lia.
Qed.

Lemma flatten_no_rows (A : Type) (a : ndarray A) : shape0 a = 0 -> flatten a = [].
Proof.
  intros H. unfold flatten. now rewrite H.
Qed.

Lemma concatenate2_rows (A : Type) (a b r : ndarray A) :
  concatenate2 a b 0 = Ok r ->
  shape1 a = shape1 b /\ shape0 r = shape0 a + shape0 b /\ shape1 r = shape1 a /\
  flatten r = flatten a ++ flatten b.
Proof.
  unfold concatenate2. destruct (Nat.eqb_spec (shape1 a) (shape1 b)) as [Hc|];
    [|discriminate].
  intros E. inversion E; subst. clear E. simpl. repeat split; try assumption.
  unfold flatten. simpl. rewrite seq_app, flat_map_app. f_equal.
  - apply flat_map_ext_in || idtac.
    rewrite !flat_map_concat_map. f_equal. apply map_ext_in.
    intros i Hi. apply in_seq in Hi.
    destruct (Nat.ltb_spec i (shape0 a)); [reflexivity|lia].
  - simpl. rewrite (seq_shift_add (shape0 a)), !flat_map_concat_map, map_map.
    f_equal. apply map_ext. intros i.
    destruct (Nat.ltb_spec (shape0 a + i) (shape0 a)); [lia|].
    rewrite Hc. apply map_ext. intros j. f_equal. lia.
Qed.

Lemma generalizedConcat_step_no_rows (A : Type) (dim : nat)
    (acc : option (ndarray A)) (data : ndarray A) :
  shape0 data = 0 -> generalizedConcat_step dim acc data = Ok acc.
Proof.
  intros H. unfold generalizedConcat_step. now rewrite H.
Qed.

(** X25. Arrays without rows do not matter: [generalizedConcat] returns (or
    raises) the same on the list with these arrays removed, along every
    axis. *)
Theorem generalizedConcat_skips_empty (A : Type) (in_data : list (ndarray A))
    (dim : nat) :
  generalizedConcat in_data dim = generalizedConcat (filter has_rows in_data) dim.
Proof.
  unfold generalizedConcat. generalize (@None (ndarray A)) as acc.
  induction in_data as [|data l IH]; intros acc; simpl; [reflexivity|].
  unfold has_rows at 1. destruct (Nat.eqb_spec (shape0 data) 0) as [H0|H0]; simpl.
  - rewrite generalizedConcat_step_no_rows by assumption. simpl. apply IH.
  - destruct (generalizedConcat_step dim acc data); simpl; [apply IH|reflexivity].
Qed.

Lemma generalizedConcat_from_some (A : Type) (dim : nat) (l : list (ndarray A)) :
  forall out, 0 < shape0 out ->
    foldM (generalizedConcat_step dim) l (Some out) <> Ok None.
Proof.
  induction l as [|data l IH]; intros out Hout; simpl; [discriminate|].
  unfold generalizedConcat_step at 1.
  destruct (Nat.eqb_spec (shape0 data) 0) as [H0|H0]; simpl; [now apply IH|].
  destruct (Nat.eqb_spec (shape0 out) 0) as [|_]; [lia|].
  destruct (concatenate2 out data dim) as [r|e] eqn:Ec; simpl; [|discriminate].
  apply IH. unfold concatenate2 in Ec.
  destruct dim as [|[|dim]]; [| |discriminate].
  - destruct (shape1 out =? shape1 data); [|discriminate].
    inversion Ec; subst. simpl. lia.
  - destruct (shape0 out =? shape0 data); [|discriminate].
    inversion Ec; subst. simpl. lia.
Qed.

(** X26. [generalizedConcat] returns the empty list it starts with exactly
    when every array of the input has no rows (in particular for an empty
    input), whatever the axis. *)
Theorem generalizedConcat_none_iff (A : Type) (in_data : list (ndarray A))
    (dim : nat) :
  generalizedConcat in_data dim = Ok None <->
  Forall (fun data => shape0 data = 0) in_data.
Proof.
  unfold generalizedConcat. split.
  - induction in_data as [|data l IH]; intros E; [constructor|].
    simpl in E. unfold generalizedConcat_step at 1 in E.
    destruct (Nat.eqb_spec (shape0 data) 0) as [H0|H0]; simpl in E.
    + constructor; auto.
    + exfalso. revert E. apply generalizedConcat_from_some. lia.
  - induction 1 as [|data l H0 Hall IH]; simpl; [reflexivity|].
    now rewrite generalizedConcat_step_no_rows.
Qed.

(** Along axis 0, from a state that holds rows of [c] columns. *)
Lemma generalizedConcat_axis0_from (A : Type) (c : nat) (l : list (ndarray A)) :
  forall acc,
    (forall out, acc = Some out -> 0 < shape0 out /\ shape1 out = c) ->
    Forall (fun data => shape0 data = 0 \/ shape1 data = c) l ->
    exists res,
      foldM (generalizedConcat_step 0) l acc = Ok res /\
      (forall out, res = Some out -> 0 < shape0 out /\ shape1 out = c) /\
      stacked_rows res = stacked_rows acc + list_sum (map (@shape0 A) l) /\
      stacked_entries res = stacked_entries acc ++ concat (map (@flatten A) l).
Proof.
  induction l as [|data l IH]; intros acc Hacc Hall.
  - exists acc. simpl. rewrite app_nil_r. repeat split; auto; try apply Hacc; auto.
  - inversion Hall as [|? ? Hd Hl]; subst.
    destruct (Nat.eq_dec (shape0 data) 0) as [H0|H0].
    + destruct (IH acc Hacc Hl) as [res [E [Hres [Hrows Hent]]]].
      exists res. cbn [foldM].
      rewrite (generalizedConcat_step_no_rows A 0 acc data H0). cbn [bind].
      cbn [map list_sum concat]. rewrite H0, (flatten_no_rows _ data H0). simpl. auto.
    + destruct Hd as [Hd|Hd]; [contradiction|].
      destruct acc as [out|].
      * destruct (Hacc out eq_refl) as [Hout Hc].
        destruct (concatenate2 out data 0) as [r|e] eqn:Er.
        2:{ unfold concatenate2 in Er. rewrite Hc, Hd, Nat.eqb_refl in Er.
            discriminate. }
        assert (Estep : generalizedConcat_step 0 (Some out) data = Ok (Some r)).
        { unfold generalizedConcat_step.
          destruct (Nat.eqb_spec (shape0 data) 0) as [|_]; [contradiction|].
          destruct (Nat.eqb_spec (shape0 out) 0) as [|_]; [lia|].
          now rewrite Er. }
        apply concatenate2_rows in Er. destruct Er as [_ [Hr0 [Hr1 Hflat]]].
        destruct (IH (Some r)) as [res [E [Hres [Hrows Hent]]]]; [|assumption|].
        { intros o Ho. injection Ho as <-. split; [lia|congruence]. }
        exists res. cbn [foldM]. rewrite Estep. cbn [bind].
        split; [exact E|]. split; [exact Hres|].
        simpl in *. rewrite Hrows, Hent, Hflat, Hr0, <- app_assoc.
        split; [lia|reflexivity].
      * assert (Estep : generalizedConcat_step 0 None data = Ok (Some data)).
        { unfold generalizedConcat_step.
          destruct (Nat.eqb_spec (shape0 data) 0) as [|_]; [contradiction|reflexivity]. }
        destruct (IH (Some data)) as [res [E [Hres [Hrows Hent]]]]; [|assumption|].
        { intros o Ho. injection Ho as <-. split; [lia|assumption]. }
        exists res. cbn [foldM]. rewrite Estep. cbn [bind].
        split; [exact E|]. split; [exact Hres|].
        simpl in *. rewrite Hrows, Hent. split; [lia|reflexivity].
Qed.

(** X27. Along axis 0, when the arrays that have rows all have [c] columns
    and there is at least one of them, [generalizedConcat] returns an array
    of [c] columns whose rows are the rows of the inputs in order: it has
    the sum of their numbers of rows, and its entries in row-major order are
    those of the inputs one after the other. *)
Theorem generalizedConcat_axis0 (A : Type) (in_data : list (ndarray A)) (c : nat) :
  Forall (fun data => shape0 data = 0 \/ shape1 data = c) in_data ->
  Exists (fun data => shape0 data <> 0) in_data ->
  exists out,
    generalizedConcat in_data 0 = Ok (Some out) /\
    shape0 out = list_sum (map (@shape0 A) in_data) /\
    shape1 out = c /\
    flatten out = concat (map (@flatten A) in_data).
Proof.
  intros Hall Hex.
  destruct (generalizedConcat_axis0_from A c in_data None) as [res [E [Hres [Hrows Hent]]]];
    [discriminate|assumption|].
  unfold generalizedConcat. rewrite E. destruct res as [out|].
  - exists out. simpl in Hrows, Hent. destruct (Hres out eq_refl) as [_ Hc]. auto.
  - exfalso. simpl in Hrows.
    assert (Hpos : 0 < list_sum (map (@shape0 A) in_data)); [|lia].
    clear -Hex. induction Hex as [data l Hd|data l _ IH]; simpl; lia.
Qed.

Lemma generalizedConcat_axis0_keeps (A : Type) (l : list (ndarray A)) :
  forall out,
    0 < shape0 out ->
    (exists data, In data l /\ shape0 data <> 0 /\ shape1 data <> shape1 out) ->
    foldM (generalizedConcat_step 0) l (Some out) = Raise ValueError.
Proof.
  induction l as [|data l IH]; intros out Hout [bad [Hin [Hb0 Hb1]]];
    [contradiction|].
  simpl. unfold generalizedConcat_step at 1.
  destruct (Nat.eqb_spec (shape0 data) 0) as [H0|H0]; simpl.
  - apply IH; [assumption|]. destruct Hin as [->|Hin]; [contradiction|eauto].
  - destruct (Nat.eqb_spec (shape0 out) 0) as [|_]; [lia|].
    unfold concatenate2.
    destruct (Nat.eqb_spec (shape1 out) (shape1 data)) as [Hc|Hc]; simpl;
      [|reflexivity].
    apply IH; simpl; [lia|]. destruct Hin as [->|Hin]; [congruence|eauto].
Qed.

(** X28. Along axis 0, when two arrays of the input that have rows differ
    in their numbers of columns, [generalizedConcat] raises [ValueError]. *)
Theorem generalizedConcat_axis0_mismatch (A : Type) (in_data : list (ndarray A))
    (a b : ndarray A) :
  In a in_data -> In b in_data ->
  shape0 a <> 0 -> shape0 b <> 0 -> shape1 a <> shape1 b ->
  generalizedConcat in_data 0 = Raise ValueError.
Proof.
  unfold generalizedConcat.
  induction in_data as [|data l IH]; intros Ha Hb Ha0 Hb0 Hab; [contradiction|].
  simpl. unfold generalizedConcat_step at 1.
  destruct (Nat.eqb_spec (shape0 data) 0) as [H0|H0]; simpl.
  - apply IH; try assumption.
    + destruct Ha as [->|Ha]; [contradiction|assumption].
    + destruct Hb as [->|Hb]; [contradiction|assumption].
  - apply generalizedConcat_axis0_keeps; [lia|].
    destruct (Nat.eq_dec (shape1 a) (shape1 data)) as [Ea|Na].
    + exists b. destruct Hb as [->|Hb]; [congruence|].
      repeat split; [assumption|assumption|congruence].
    + exists a. destruct Ha as [->|Ha]; [congruence|].
      repeat split; assumption.
Qed.

Lemma generalizedConcat_axis0_witness :
  Forall (fun data : ndarray Z => shape0 data = 0 \/ shape1 data = 2) small_blocks /\
  Exists (fun data : ndarray Z => shape0 data <> 0) small_blocks /\
  exists out,
    generalizedConcat small_blocks 0 = Ok (Some out) /\
    shape0 out = list_sum (map (@shape0 Z) small_blocks) /\
    shape1 out = 2 /\
    flatten out = concat (map (@flatten Z) small_blocks).
Proof.
  assert (H1 : Forall (fun data : ndarray Z => shape0 data = 0 \/ shape1 data = 2)
                      small_blocks).
  { unfold small_blocks. repeat (apply Forall_cons; [simpl; auto|]). constructor. }
  assert (H2 : Exists (fun data : ndarray Z => shape0 data <> 0) small_blocks)
    by (apply Exists_cons_hd; simpl; lia).
  split; [exact H1|]. split; [exact H2|].
  exact (generalizedConcat_axis0 Z small_blocks 2 H1 H2).
Defined.

Lemma generalizedConcat_axis0_mismatch_witness :
  In (hd wide_block small_blocks) (small_blocks ++ [wide_block]) /\
  In wide_block (small_blocks ++ [wide_block]) /\
  shape0 (hd wide_block small_blocks) <> 0 /\ shape0 wide_block <> 0 /\
  shape1 (hd wide_block small_blocks) <> shape1 wide_block /\
  generalizedConcat (small_blocks ++ [wide_block]) 0 = Raise ValueError.
Proof.
  assert (H1 : In (hd wide_block small_blocks) (small_blocks ++ [wide_block]))
    by (simpl; auto).
  assert (H2 : In wide_block (small_blocks ++ [wide_block]))
    by (simpl; auto).
  assert (H3 : shape0 (hd wide_block small_blocks) <> 0) by (simpl; lia).
  assert (H4 : shape0 wide_block <> 0) by (simpl; lia).
  assert (H5 : shape1 (hd wide_block small_blocks) <> shape1 wide_block)
    by (simpl; lia).
  repeat (split; [assumption|]).
  exact (generalizedConcat_axis0_mismatch Z (small_blocks ++ [wide_block])
           (hd wide_block small_blocks) wide_block H1 H2 H3 H4 H5).
Defined.

Example generalizedConcat_small_blocks :
  match generalizedConcat small_blocks 0 with
  | Ok (Some out) => flatten out = [0; 1; 2; 3; 4; 5]%Z
  | _ => False
  end.
Proof. reflexivity. Qed.

(** ** Feature assembly *)

Section FeatureFacts.
Context {FE : feature_extractors} {FP : feature_parameters}.

Lemma column_stack3_ok (c1 c2 : list R) (m cf : ndarray R) :
  column_stack3 c1 c2 m = Ok cf ->
  length c1 = shape0 m /\ length c2 = shape0 m /\
  shape0 cf = shape0 m /\ shape1 cf = 2 + shape1 m /\
  forall t, item cf t 0 = nth t c1 0%R /\ item cf t 1 = nth t c2 0%R /\
            forall j, item cf t (2 + j) = item m t j.
Proof.
  unfold column_stack3.
  destruct (Nat.eqb_spec (length c1) (length c2)) as [H1|]; simpl; [|discriminate].
  destruct (Nat.eqb_spec (length c2) (shape0 m)) as [H2|]; [|discriminate].
  intros E. inversion E; subst. simpl. repeat split; congruence.
Qed.

(** One pass of the loop, when the three feature arrays fit. *)
Lemma channel_features_step_ok (mfcc ild ipd : ndarray R)
    (self_features : list (ndarray R)) (ind : nat) :
  shape0 ild = shape0 mfcc -> shape0 ipd = shape0 mfcc ->
  ind < shape1 ild -> ind < shape1 ipd ->
  exists cf,
    channel_features_step mfcc ild ipd self_features ind = Ok (self_features ++ [cf]) /\
    shape0 cf = shape0 mfcc /\ shape1 cf = 2 + shape1 mfcc /\
    forall t, t < shape0 mfcc ->
      item cf t 0 = item ild t ind /\ item cf t 1 = item ipd t ind /\
      forall j, item cf t (2 + j) = item mfcc t j.
Proof.
  intros H1 H2 Hi1 Hi2. unfold channel_features_step, getcol.
  apply Nat.ltb_lt in Hi1, Hi2. rewrite Hi1, Hi2. simpl.
  destruct (column_stack3 _ _ mfcc) as [cf|e] eqn:E.
  - apply column_stack3_ok in E. destruct E as [_ [_ [E0 [E1 Hitem]]]].
    exists cf. simpl. repeat split; try assumption;
      destruct (Hitem t) as [Ha [Hb Hc]].
    + rewrite Ha. apply (nth_map_seq R (fun i => item ild i ind)). lia.
    + rewrite Hb. apply (nth_map_seq R (fun i => item ipd i ind)). lia.
    + apply Hc.
  - exfalso. unfold column_stack3 in E.
    rewrite !length_map, !length_seq, H1, H2, !Nat.eqb_refl in E. discriminate.
Qed.

(** The loop returns when the three feature arrays fit. *)
Lemma updateFeaturesFromResSignal_ok_aux (self_res_signal : stereo) :
  shape0 (getILD self_res_signal) = shape0 (getMFCC self_res_signal) ->
  shape0 (getIPD self_res_signal) = shape0 (getMFCC self_res_signal) ->
  SGRAM_NUM_CHANNELS <= shape1 (getILD self_res_signal) ->
  SGRAM_NUM_CHANNELS <= shape1 (getIPD self_res_signal) ->
  exists self_features,
    updateFeaturesFromResSignal self_res_signal = Ok self_features.
Proof.
  intros H1 H2 Hn1 Hn2. unfold updateFeaturesFromResSignal.
  destruct (foldM_seq_inv _
              (channel_features_step (getMFCC self_res_signal)
                 (getILD self_res_signal) (getIPD self_res_signal))
              (fun _ _ => True) SGRAM_NUM_CHANNELS)
    with (a0 := @nil (ndarray R)) as [feats [E _]]; [|exact I|eauto].
  intros ind feats Hind _.
  destruct (channel_features_step_ok (getMFCC self_res_signal)
              (getILD self_res_signal) (getIPD self_res_signal) feats ind H1 H2)
    as [cf [E _]]; [lia|lia|eauto].
Qed.

(** X29. When the level and phase difference arrays have the rows of the
    spectral coefficient array and at least [SGRAM_NUM_CHANNELS] columns,
    [updateFeaturesFromResSignal] returns one feature array per channel;
    the array of a channel has these rows, the level differences of the
    channel in column 0, its phase differences in column 1, and the
    spectral coefficients, the same for all channels, in the columns after
    them. *)
Theorem updateFeaturesFromResSignal_spec (self_res_signal : stereo) :
  shape0 (getILD self_res_signal) = shape0 (getMFCC self_res_signal) ->
  shape0 (getIPD self_res_signal) = shape0 (getMFCC self_res_signal) ->
  SGRAM_NUM_CHANNELS <= shape1 (getILD self_res_signal) ->
  SGRAM_NUM_CHANNELS <= shape1 (getIPD self_res_signal) ->
  exists self_features,
    updateFeaturesFromResSignal self_res_signal = Ok self_features /\
    length self_features = SGRAM_NUM_CHANNELS /\
    forall ind, ind < SGRAM_NUM_CHANNELS ->
      exists cf,
        nth_error self_features ind = Some cf /\
        shape0 cf = shape0 (getMFCC self_res_signal) /\
        shape1 cf = 2 + shape1 (getMFCC self_res_signal) /\
        forall t, t < shape0 (getMFCC self_res_signal) ->
          item cf t 0 = item (getILD self_res_signal) t ind /\
          item cf t 1 = item (getIPD self_res_signal) t ind /\
          forall j, item cf t (2 + j) = item (getMFCC self_res_signal) t j.
Proof.
  intros H1 H2 Hn1 Hn2. unfold updateFeaturesFromResSignal.
  set (mfcc := getMFCC self_res_signal) in *.
  set (ild := getILD self_res_signal) in *.
  set (ipd := getIPD self_res_signal) in *.
  set (Inv := fun (n : nat) (feats : list (ndarray R)) =>
    length feats = n /\
    forall ind, ind < n ->
      exists cf, nth_error feats ind = Some cf /\
        shape0 cf = shape0 mfcc /\ shape1 cf = 2 + shape1 mfcc /\
        forall t, t < shape0 mfcc ->
          item cf t 0 = item ild t ind /\ item cf t 1 = item ipd t ind /\
          forall j, item cf t (2 + j) = item mfcc t j).
  destruct (foldM_seq_inv _ (channel_features_step mfcc ild ipd) Inv SGRAM_NUM_CHANNELS)
    with (a0 := @nil (ndarray R)) as [feats [E [Hl Hall]]].
  - intros ind feats Hind [Hl Hall].
    destruct (channel_features_step_ok mfcc ild ipd feats ind H1 H2)
      as [cf [E [Hc0 [Hc1 Hitem]]]]; [lia|lia|].
    exists (feats ++ [cf]). split; [exact E|]. split.
    + rewrite length_app. simpl. lia.
    + intros k Hk. destruct (Nat.eq_dec k ind) as [->|Hne].
      * exists cf. rewrite nth_error_app2, Hl, Nat.sub_diag by lia. auto.
      * destruct (Hall k) as [cf' Hcf']; [lia|].
        exists cf'. rewrite nth_error_app1 by lia. exact Hcf'.
  - split; [reflexivity|]. intros; lia.
  - exists feats. auto.
Qed.

(** X30. [updateFeaturesFromResSignal] returns exactly when no channel is
    configured, or the three feature arrays have the same number of rows
    and the level and phase difference arrays have at least
    [SGRAM_NUM_CHANNELS] columns; otherwise it raises. *)
Theorem updateFeaturesFromResSignal_returns_iff (self_res_signal : stereo) :
  (exists self_features, updateFeaturesFromResSignal self_res_signal = Ok self_features)
  <->
  SGRAM_NUM_CHANNELS = 0 \/
  (shape0 (getILD self_res_signal) = shape0 (getMFCC self_res_signal) /\
   shape0 (getIPD self_res_signal) = shape0 (getMFCC self_res_signal) /\
   SGRAM_NUM_CHANNELS <= shape1 (getILD self_res_signal) /\
   SGRAM_NUM_CHANNELS <= shape1 (getIPD self_res_signal)).
Proof.
  split.
  - intros [feats E]. unfold updateFeaturesFromResSignal in E.
    destruct SGRAM_NUM_CHANNELS as [|n] eqn:En; [now left|right].
    assert (Hin : In n (seq 0 (S n))) by (apply in_seq; lia).
    destruct (foldM_ok_each _ _ _ (fun _ => True) (fun _ _ _ _ _ => I) _ _ _ I E n Hin)
      as [f1 [f2 [_ Estep]]].
    unfold channel_features_step, getcol in Estep.
    destruct (Nat.ltb_spec n (shape1 (getILD self_res_signal))); simpl in Estep;
      [|discriminate].
    destruct (Nat.ltb_spec n (shape1 (getIPD self_res_signal))); simpl in Estep;
      [|discriminate].
    destruct (column_stack3 _ _ _) as [cf|] eqn:Ecf; simpl in Estep; [|discriminate].
    apply column_stack3_ok in Ecf. destruct Ecf as [L1 [L2 _]].
    rewrite length_map, length_seq in L1, L2. repeat split; try assumption; lia.
  - intros [H0|[H1 [H2 [H3 H4]]]].
    + unfold updateFeaturesFromResSignal. rewrite H0. simpl. eauto.
    + destruct (updateFeaturesFromResSignal_ok_aux self_res_signal H1 H2 H3 H4)
        as [feats E]. eauto.
Qed.

End FeatureFacts.

Lemma updateFeaturesFromResSignal_spec_witness :
  shape0 (@getILD small_extractors (small_signal, small_signal))
    = shape0 (@getMFCC small_extractors (small_signal, small_signal)) /\
  shape0 (@getIPD small_extractors (small_signal, small_signal))
    = shape0 (@getMFCC small_extractors (small_signal, small_signal)) /\
  @SGRAM_NUM_CHANNELS small_feature_parameters
    <= shape1 (@getILD small_extractors (small_signal, small_signal)) /\
  @SGRAM_NUM_CHANNELS small_feature_parameters
    <= shape1 (@getIPD small_extractors (small_signal, small_signal)) /\
  exists self_features,
    @updateFeaturesFromResSignal small_extractors small_feature_parameters
      (small_signal, small_signal) = Ok self_features /\
    length self_features = @SGRAM_NUM_CHANNELS small_feature_parameters /\
    forall ind, ind < @SGRAM_NUM_CHANNELS small_feature_parameters ->
      exists cf,
        nth_error self_features ind = Some cf /\
        shape0 cf = shape0 (@getMFCC small_extractors (small_signal, small_signal)) /\
        shape1 cf
          = 2 + shape1 (@getMFCC small_extractors (small_signal, small_signal)) /\
        forall t, t < shape0 (@getMFCC small_extractors (small_signal, small_signal)) ->
          item cf t 0 = item (@getILD small_extractors (small_signal, small_signal)) t ind /\
          item cf t 1 = item (@getIPD small_extractors (small_signal, small_signal)) t ind /\
          forall j, item cf t (2 + j)
                    = item (@getMFCC small_extractors (small_signal, small_signal)) t j.
Proof.
  assert (H1 : shape0 (@getILD small_extractors (small_signal, small_signal))
               = shape0 (@getMFCC small_extractors (small_signal, small_signal)))
    by reflexivity.
  assert (H2 : shape0 (@getIPD small_extractors (small_signal, small_signal))
               = shape0 (@getMFCC small_extractors (small_signal, small_signal)))
    by reflexivity.
  assert (H3 : @SGRAM_NUM_CHANNELS small_feature_parameters
               <= shape1 (@getILD small_extractors (small_signal, small_signal)))
    by (simpl; lia).
  assert (H4 : @SGRAM_NUM_CHANNELS small_feature_parameters
               <= shape1 (@getIPD small_extractors (small_signal, small_signal)))
    by (simpl; lia).
  repeat (split; [assumption|]).
  exact (@updateFeaturesFromResSignal_spec small_extractors small_feature_parameters
           (small_signal, small_signal) H1 H2 H3 H4).
Defined.
